(** * Verification of the FluidEngine simulation core

    A shallow embedding of the parts of the engine that the specification
    makes precise statements about: the dense 3-D array, the CSR sparse
    matrix, the blocked boundary-condition solver, the frame / sub-step
    driver and the grid fluid solver.

    Conventions of the embedding
    - [size_t] indices of arrays are [nat]; in the CSR matrix, where the
      sentinel [kMaxSize] is a value of the index type, they are [N].
      [size_t] is taken to be 64 bits wide: where the code multiplies
      extents to allocate, the product is taken modulo 2^64.
    - [double] is modelled by the exact rationals [Q]: rounding, infinities
      and NaN are outside the model.  A division by zero leaves the finite
      numbers: the frame driver says so explicitly, and the statements
      about the grid solver take its divisors (the smallest grid spacing,
      the maximal CFL number) positive.
    - A failed [assert], an out-of-range vector access, a null pointer
      dereference and the conversion of a double to an [unsigned int]
      that cannot hold it are the result [None].
    - Virtual member functions and collaborators whose sources are not part
      of the development are parameters (type classes). *)

From Stdlib Require Import ZArith NArith QArith Qabs Qround Lia Lqa List.
From stdpp Require Import base list option numbers.

(** ** Numbers *)

(** [a < b] on doubles. *)
Definition Qltb (a b : Q) : bool := negb (Qle_bool b a).

(** [std::max(a, b)] is [(a < b) ? b : a]. *)
Definition std_max (a b : Q) : Q := if Qltb a b then b else a.

(** [std::min(a, b)] is [(b < a) ? b : a]. *)
Definition std_min (a b : Q) : Q := if Qltb b a then b else a.

(** [min3] of MathUtils. *)
Definition min3 (a b c : Q) : Q := std_min (std_min a b) c.

(** ** Loops *)

(** [for (size_t i = lo; i < lo + count; ++i) body(i)] over a state [St];
    the body may fail. *)
Fixpoint forLoop {St : Type} (body : nat -> St -> option St)
    (lo count : nat) (s : St) : option St :=
  match count with
  | O => Some s
  | S c => match body lo s with
           | Some s' => forLoop body (S lo) c s'
           | None => None
           end
  end.

(** [for (size_t i = 0; i < n; ++i) body(i)]. *)
Definition forUpTo {St : Type} (n : nat) (body : nat -> St -> option St)
    (s : St) : option St :=
  forLoop body 0 n s.

(** The same loop with a body that cannot fail. *)
Fixpoint forLoopT {St : Type} (body : nat -> St -> St)
    (lo count : nat) (s : St) : St :=
  match count with
  | O => s
  | S c => forLoopT body (S lo) c (body lo s)
  end.

Definition forUpToT {St : Type} (n : nat) (body : nat -> St -> St) (s : St) : St :=
  forLoopT body 0 n s.


(** * Dense 3-D array (Engine/Math/Array3.h) *)

Module Array3.

(** [Size3]: the extent of the array on each axis. *)
Record Size3 : Type := mkSize3 { x : nat; y : nat; z : nat }.

(** [Array<T, 3>]: the extent and the flat storage, [i] fastest. *)
Record Array (T : Type) : Type := mkArray {
  _size : Size3;
  _data : list T
}.
Arguments mkArray {T} _ _.
Arguments _size {T} _.
Arguments _data {T} _.

Section Operations.
Context {T : Type}.

(** The address [i + _size.x * (j + _size.y * k)]. *)
Definition linearIndex (sz : Size3) (i j k : nat) : nat :=
  i + x sz * (j + y sz * k).

(** The assertion [i < _size.x && j < _size.y && k < _size.z]. *)
Definition inBounds (sz : Size3) (i j k : nat) : bool :=
  (i <? x sz) && (j <? y sz) && (k <? z sz).

(** [at(i, j, k)], read. *)
Definition at_ (a : Array T) (i j k : nat) : option T :=
  if inBounds (_size a) i j k
  then _data a !! linearIndex (_size a) i j k
  else None.

(** [operator()(i, j, k) = v], write through the returned reference. *)
Definition assign (a : Array T) (i j k : nat) (v : T) : option (Array T) :=
  if inBounds (_size a) i j k
  then if linearIndex (_size a) i j k <? length (_data a)
       then Some (mkArray (_size a)
                     (<[linearIndex (_size a) i j k := v]> (_data a)))
       else None
  else None.

(** [Array()] : empty storage, zero extent. *)
Definition empty : Array T := mkArray (mkSize3 0 0 0) [].

(** [clear()]. *)
Definition clear (a : Array T) : Array T := mkArray (mkSize3 0 0 0) [].

(** [size.x * size.y * size.z] as the code computes it: [size_t] is 64
    bits wide and the product is taken modulo 2^64. *)
Definition elementCount (size : Size3) : nat :=
  N.to_nat ((N.of_nat (x size) * N.of_nat (y size) * N.of_nat (z size))
            mod 2 ^ 64).

(** The product of the extents is a [size_t]: it did not wrap. *)
Definition fitsSizeT (size : Size3) : Prop :=
  (N.of_nat (x size) * N.of_nat (y size) * N.of_nat (z size) < 2 ^ 64)%N.

(** [resize(size, initVal)]: a new grid of [size.x * size.y * size.z]
    elements filled with [initVal], into which the overlap of the old and
    the new extent is copied through [grid(i, j, k) = at(i, j, k)]; the
    new grid then replaces the old one ([swap]).  When the product wraps
    the grid has fewer elements than its extent says, and a write into it
    can leave the storage. *)
Definition resize (a : Array T) (size : Size3) (initVal : T)
  : option (Array T) :=
  let grid := mkArray size (replicate (elementCount size) initVal) in
  let iMin := Nat.min (x size) (x (_size a)) in
  let jMin := Nat.min (y size) (y (_size a)) in
  let kMin := Nat.min (z size) (z (_size a)) in
  forUpTo kMin (fun k =>
    forUpTo jMin (fun j =>
      forUpTo iMin (fun i grid =>
        match at_ a i j k with
        | Some v => assign grid i j k v
        | None => None
        end))) grid.

(** The storage holds exactly one element per index; their number, the
    [size()] of a [std::vector], is a [size_t]. *)
Definition wellFormed (a : Array T) : Prop :=
  length (_data a) = x (_size a) * y (_size a) * z (_size a) /\
  fitsSizeT (_size a).

(** [Array(size, initVal)], whose body is [resize(size, initVal)] on the
    members left empty by their default constructors. *)
Definition construct (size : Size3) (initVal : T) : option (Array T) :=
  resize empty size initVal.


(** [set(const T& value)]. *)
Definition setValue (a : Array T) (value : T) : Array T :=
  mkArray (_size a) (map (fun _ => value) (_data a)).

(** [set(lst)] for a nested initializer list, pages of rows of elements;
    [initVal] is the value-initialised [T()] that the resize fills with.
    For an empty list the function takes [begin()] of the page at the
    end iterator. *)
Definition setList (a : Array T) (initVal : T) (lst : list (list (list T)))
  : option (Array T) :=
  let depth := length lst in
  match lst with
  | [] => None
  | page0 :: _ =>
      let height := length page0 in
      let width := match page0 with [] => O | row0 :: _ => length row0 end in
      match resize a (mkSize3 width height depth) initVal with
      | None => None
      | Some a0 =>
          forUpTo depth (fun k a1 =>
            match lst !! k with
            | None => None
            | Some page =>
                if negb (height =? length page) then None
                else
                  forUpTo height (fun j a2 =>
                    match page !! j with
                    | None => None
                    | Some row =>
                        if negb (width =? length row) then None
                        else
                          forUpTo width (fun i a3 =>
                            match row !! i with
                            | None => None
                            | Some v => assign a3 i j k v
                            end) a2
                    end) a1
            end) a0
      end
  end.
End Operations.

(** A 2 x 2 x 1 array used to exercise the statements. *)
Definition sample : Array nat := mkArray (mkSize3 2 2 1) [10; 11; 12; 13].

End Array3.


(** * CSR sparse matrix (Engine/Math/MatrixCsr.h) *)

Module MatrixCsr.

(** The element type [T] of the template: a zero, [std::fabs] and the
    comparison [a > b]. *)
Class Scalar (T : Type) : Type := {
  zero : T;
  fabs : T -> T;
  gt : T -> T -> bool
}.

#[global] Instance Scalar_double : Scalar Q := {|
  zero := 0%Q;
  fabs := Qabs;
  gt := fun a b => Qltb b a
|}.

(** [kMaxSize], the largest [size_t] (Utils/Constants.h declares it; the
    width of [size_t] is taken to be 64 bits). *)
Definition kMaxSize : N := 18446744073709551615%N.

(** [Size2]: [x] rows and [y] columns. *)
Record Size2 : Type := mkSize2 { x : N; y : N }.

Record Matrix (T : Type) : Type := mkMatrix {
  _size : Size2;
  _nonZeros : list T;
  _rowPointers : list N;
  _columnIndices : list N
}.
Arguments mkMatrix {T} _ _ _ _.
Arguments _size {T} _.
Arguments _nonZeros {T} _.
Arguments _rowPointers {T} _.
Arguments _columnIndices {T} _.

(** A dense matrix expression: its extent and its element function. *)
Record MatrixExpression (T : Type) : Type := mkExpression {
  rows : N;
  cols : N;
  expression : N -> N -> T
}.
Arguments mkExpression {T} _ _ _.
Arguments rows {T} _.
Arguments cols {T} _.
Arguments expression {T} _ _ _.

Section Operations.
Context {T : Type} `{Scalar T}.

(** The members before any constructor body has run. *)
Definition uninitialised : Matrix T := mkMatrix (mkSize2 0 0) [] [] [].

(** [clear()]. *)
Definition clear (m : Matrix T) : Matrix T :=
  mkMatrix (mkSize2 0 0) [] [0%N] [].

(** [MatrixCsr()], whose body is [clear()]. *)
Definition defaultConstructed : Matrix T := clear uninitialised.

(** [_nonZeros.push_back(val); _columnIndices.push_back(j);] *)
Definition pushNonZero (val : T) (j : N) (m : Matrix T) : Matrix T :=
  mkMatrix (_size m) (_nonZeros m ++ [val]) (_rowPointers m)
           (_columnIndices m ++ [j]).

(** [_rowPointers.push_back(_nonZeros.size());] *)
Definition pushRowPointer (m : Matrix T) : Matrix T :=
  mkMatrix (_size m) (_nonZeros m)
           (_rowPointers m ++ [N.of_nat (length (_nonZeros m))])
           (_columnIndices m).

(** The body of the loop over the columns of row [i]. *)
Definition compressColumn (other : MatrixExpression T) (epsilon : T)
    (i j : nat) (m : Matrix T) : Matrix T :=
  let val := expression other (N.of_nat i) (N.of_nat j) in
  if gt (fabs val) epsilon then pushNonZero val (N.of_nat j) m else m.

(** [compress(const MatrixExpression<T, E>& other, T epsilon)].  The
    non-zeros and the column indices are cleared, the row pointers are
    not. *)
Definition compress (m : Matrix T) (other : MatrixExpression T)
    (epsilon : T) : Matrix T :=
  let numRows := rows other in
  let numCols := cols other in
  let m0 := mkMatrix (mkSize2 numRows numCols) [] (_rowPointers m) [] in
  let m1 :=
    forUpToT (N.to_nat numRows) (fun i m =>
      forUpToT (N.to_nat numCols) (compressColumn other epsilon i)
               (pushRowPointer m)) m0 in
  pushRowPointer m1.

(** [MatrixCsr(const MatrixExpression<T, E>& other, T epsilon)], whose
    body is [compress(other, epsilon)]. *)
Definition constructFrom (other : MatrixExpression T) (epsilon : T)
  : Matrix T :=
  compress uninitialised other epsilon.

(** [compress(const std::initializer_list<...>& lst, T epsilon)]: here
    the row pointers are cleared as well.  The assertion on the length
    of the rows can fail. *)
Definition compressList (m : Matrix T) (lst : list (list T)) (epsilon : T)
  : option (Matrix T) :=
  let numRows := length lst in
  let numCols := match lst with [] => O | row :: _ => length row end in
  let m0 := mkMatrix (mkSize2 (N.of_nat numRows) (N.of_nat numCols))
                     [] [] [] in
  match
    forUpTo numRows (fun i m =>
      match lst !! i with
      | None => None
      | Some row =>
          if Nat.eqb numCols (length row) then
            forUpTo numCols (fun j m =>
              match row !! j with
              | None => None
              | Some val =>
                  Some (if gt (fabs val) epsilon
                        then pushNonZero val (N.of_nat j) m else m)
              end) (pushRowPointer m)
          else None
      end) m0
  with
  | Some m1 => Some (pushRowPointer m1)
  | None => None
  end.

(** [std::lower_bound] on the column indices in [first, first + count):
    bisection.  The count at least halves in every round, so [fuel]
    rounds are enough when [fuel] is at least the count. *)
Fixpoint lowerBoundLoop (fuel : nat) (columnIndices : list N) (value : N)
    (first count : N) : option N :=
  match fuel with
  | O => Some first
  | S fuel' =>
      if (count =? 0)%N then Some first
      else
        let step := (count / 2)%N in
        let it := (first + step)%N in
        match columnIndices !! N.to_nat it with
        | None => None
        | Some c =>
            if (c <? value)%N
            then lowerBoundLoop fuel' columnIndices value
                   (it + 1)%N (count - (step + 1))%N
            else lowerBoundLoop fuel' columnIndices value first step
        end
  end.

Definition lower_bound (columnIndices : list N) (first last value : N)
  : option N :=
  lowerBoundLoop (N.to_nat (last - first)) columnIndices value
                 first (last - first)%N.

(** Modelled from the spec: [binaryFind] of Utils/MathUtils.h is not
    among the sources; element lookup is a binary search within the
    column-index slice of the row, and an absent entry is reported by
    the end of the slice.  It is [lower_bound] followed by the test
    that the position found holds the value. *)
Definition binaryFind (columnIndices : list N) (first last value : N)
  : option N :=
  match lower_bound columnIndices first last value with
  | None => None
  | Some p =>
      if (p =? last)%N then Some last
      else match columnIndices !! N.to_nat p with
           | None => None
           | Some c => if (value <? c)%N then Some last else Some p
           end
  end.

(** [hasElement(i, j)]: the position of the element in [_nonZeros], or
    [kMaxSize]. *)
Definition hasElement (m : Matrix T) (i j : N) : option N :=
  if (x (_size m) <=? i)%N || (y (_size m) <=? j)%N then Some kMaxSize
  else
    match _rowPointers m !! N.to_nat i,
          _rowPointers m !! N.to_nat (i + 1) with
    | Some rowBegin, Some rowEnd =>
        match binaryFind (_columnIndices m) rowBegin rowEnd j with
        | None => None
        | Some iter =>
            if negb (iter =? rowEnd)%N then Some iter else Some kMaxSize
        end
    | _, _ => None
    end.

(** [operator()(i, j)]. *)
Definition get (m : Matrix T) (i j : N) : option T :=
  match hasElement m i j with
  | None => None
  | Some nzIndex =>
      if (nzIndex =? kMaxSize)%N then Some zero
      else _nonZeros m !! N.to_nat nzIndex
  end.

(** The representation invariant that the reads rely on: a value per
    column index, and for every row a slice of the column indices
    delimited by two consecutive row pointers. *)
Definition wellFormed (m : Matrix T) : Prop :=
  length (_nonZeros m) = length (_columnIndices m) /\
  forall i, (i < x (_size m))%N ->
    exists rowBegin rowEnd,
      _rowPointers m !! N.to_nat i = Some rowBegin /\
      _rowPointers m !! N.to_nat (i + 1) = Some rowEnd /\
      (rowBegin <= rowEnd)%N /\
      (N.to_nat rowEnd <= length (_columnIndices m))%nat.

(** A non-zero is stored at (i, j): column [j] occurs in the slice of
    row [i]. *)
Definition stored (m : Matrix T) (i j : N) : Prop :=
  (i < x (_size m))%N /\ (j < y (_size m))%N /\
  exists rowBegin rowEnd p,
    _rowPointers m !! N.to_nat i = Some rowBegin /\
    _rowPointers m !! N.to_nat (i + 1) = Some rowEnd /\
    (rowBegin <= p < rowEnd)%N /\
    _columnIndices m !! N.to_nat p = Some j.

(** *** What [compress] stores, written as lists

    These are not taken from the source: they describe the result of
    the loops of [compress], and the theorems connect the two. *)

(** Column [j] of row [i] passes the cutoff. *)
Definition keeps (other : MatrixExpression T) (epsilon : T) (i j : nat)
  : bool :=
  gt (fabs (expression other (N.of_nat i) (N.of_nat j))) epsilon.

(** The (row, column) pairs kept among the first [n] columns of row
    [i], in increasing column order. *)
Definition rowEntries (other : MatrixExpression T) (epsilon : T)
    (i n : nat) : list (nat * nat) :=
  map (pair i) (List.filter (keeps other epsilon i) (seq 0 n)).

(** The pairs kept in the first [n] rows, row after row. *)
Definition allEntries (other : MatrixExpression T) (epsilon : T)
    (n : nat) : list (nat * nat) :=
  flat_map (fun r => rowEntries other epsilon r (N.to_nat (cols other)))
           (seq 0 n).

Definition entryValue (other : MatrixExpression T) (e : nat * nat) : T :=
  expression other (N.of_nat (fst e)) (N.of_nat (snd e)).

Definition entryColumn (e : nat * nat) : N := N.of_nat (snd e).

(** The number of entries stored before row [i]. *)
Definition rowOffset (other : MatrixExpression T) (epsilon : T)
    (i : nat) : N :=
  N.of_nat (length (allEntries other epsilon i)).
End Operations.

(** The column indices are in increasing order on [first0, last). *)
Definition sortedSlice (columnIndices : list N) (first0 last : N) : Prop :=
  forall q1 q2 c1 c2, (first0 <= q1)%N -> (q1 <= q2)%N -> (q2 < last)%N ->
    columnIndices !! N.to_nat q1 = Some c1 ->
    columnIndices !! N.to_nat q2 = Some c2 ->
    (c1 <= c2)%N.

(** The dense matrices used to exercise the statements. *)
Definition dense1 : MatrixExpression Q :=
  mkExpression 1%N 1%N (fun _ _ => 1%Q).

Definition dense2 : MatrixExpression Q :=
  mkExpression 2%N 2%N (fun i j => if (i =? j)%N then 2%Q else 0%Q).

Definition full2 : MatrixExpression Q :=
  mkExpression 2%N 2%N (fun _ _ => 1%Q).

(** ** Incremental construction, identity and scalar arithmetic *)

(** [size_t] arithmetic is modulo 2^64. *)
Definition wrap (n : N) : N := (n mod 2 ^ 64)%N.

(** [(ssize_t)n]. *)
Definition toSsize (n : N) : Z :=
  if (n <? 2 ^ 63)%N then Z.of_N n else (Z.of_N n - 2 ^ 64)%Z.

(** [std::vector::insert(begin() + offset, a)]; the offset must not lie
    behind the end. *)
Definition insertAt {A : Type} (offset : N) (a : A) (l : list A)
  : option (list A) :=
  if (N.to_nat offset <=? length l)%nat
  then Some (take (N.to_nat offset) l ++ a :: drop (N.to_nat offset) l)
  else None.

(** [std::vector::resize(n, fill)]. *)
Definition resizeVector {A : Type} (n : nat) (fill : A) (l : list A)
  : list A :=
  take n l ++ replicate (n - length l) fill.

(** [std::iota(l.begin(), l.end(), start)]. *)
Definition iota (start : N) (l : list N) : list N :=
  map (fun k => (start + N.of_nat k)%N) (seq 0 (length l)).

(** Modelled from the spec: [parallelFor] of Utils/Parallel.h is not
    among the sources; a parallel-for partitions the index range, runs
    the body at every index and joins.  The bodies in this file write
    the element at their own index only, so the loop in index order is
    taken. *)
Definition parallelFor {St : Type} (first last : nat)
    (body : nat -> St -> St) (s : St) : St :=
  forLoopT body first (last - first) s.

Section Editing.
Context {T : Type} `{Scalar T}.

(** [std::sort] of the zipped (value, column) pairs by column, as an
    insertion sort.  (The order that [std::sort] gives to pairs of equal
    column is unspecified.) *)
Fixpoint insertByColumn (e : T * N) (l : list (T * N)) : list (T * N) :=
  match l with
  | [] => [e]
  | e' :: l' =>
      if (snd e <? snd e')%N then e :: l else e' :: insertByColumn e l'
  end.

Definition sortByColumn (l : list (T * N)) : list (T * N) :=
  foldr insertByColumn [] l.

(** [addRow(nonZeros, columnIndices)]. *)
Definition addRow (nonZeros : list T) (columnIndices : list N)
    (m : Matrix T) : option (Matrix T) :=
  if negb (length nonZeros =? length columnIndices)%nat then None
  else
    let zipped := zip nonZeros columnIndices in
    let sizeY :=
      foldl (fun sy e => N.max sy (wrap (snd e + 1))) (y (_size m)) zipped in
    let sorted := sortByColumn zipped in
    let nonZeros' := _nonZeros m ++ map fst sorted in
    Some (mkMatrix (mkSize2 (wrap (x (_size m) + 1)) sizeY)
            nonZeros'
            (_rowPointers m ++ [N.of_nat (length nonZeros')])
            (_columnIndices m ++ map snd sorted)).

(** [for (i = first; i < _rowPointers.size(); ++i) ++_rowPointers[i];] *)
Definition incrementFrom (first : nat) (rowPointers : list N) : list N :=
  forLoopT (fun k rp => alter (fun p => wrap (p + 1)) k rp)
           first (length rowPointers - first) rowPointers.

(** [addElement(const Element& element)]. *)
Definition addElement (i j : N) (value : T) (m : Matrix T)
  : option (Matrix T) :=
  let numRowsToAdd := (toSsize i - toSsize (x (_size m)) + 1)%Z in
  match forUpTo (Z.to_nat numRowsToAdd) (fun _ => addRow [] []) m with
  | None => None
  | Some m1 =>
      let sizeY := N.max (y (_size m1)) (wrap (j + 1)) in
      match _rowPointers m1 !! N.to_nat i,
            _rowPointers m1 !! N.to_nat (wrap (i + 1)) with
      | Some rowBegin, Some rowEnd =>
          match lower_bound (_columnIndices m1) rowBegin rowEnd j with
          | None => None
          | Some offset =>
              match insertAt offset j (_columnIndices m1),
                    insertAt offset value (_nonZeros m1) with
              | Some columnIndices', Some nonZeros' =>
                  Some (mkMatrix (mkSize2 (x (_size m1)) sizeY)
                          nonZeros'
                          (incrementFrom (N.to_nat (wrap (i + 1)))
                                         (_rowPointers m1))
                          columnIndices')
              | _, _ => None
              end
          end
      | _, _ => None
      end
  end.

(** [setElement(const Element& element)]. *)
Definition setElement (i j : N) (value : T) (m : Matrix T)
  : option (Matrix T) :=
  match hasElement m i j with
  | None => None
  | Some nzIndex =>
      if (nzIndex =? kMaxSize)%N then addElement i j value m
      else if (N.to_nat nzIndex <? length (_nonZeros m))%nat
      then Some (mkMatrix (_size m)
                   (<[N.to_nat nzIndex := value]> (_nonZeros m))
                   (_rowPointers m) (_columnIndices m))
      else None
  end.

(** [makeIdentity(m)]; [one] is the element [1.0]. *)
Definition makeIdentity (one : T) (n : N) : Matrix T :=
  let ret := defaultConstructed in
  let nonZeros' := resizeVector (N.to_nat n) one (_nonZeros ret) in
  let columnIndices' :=
    iota 0 (resizeVector (N.to_nat n) 0%N (_columnIndices ret)) in
  let rowPointers' :=
    iota 0 (resizeVector (N.to_nat (wrap (n + 1))) 0%N (_rowPointers ret)) in
  mkMatrix (mkSize2 n n) nonZeros' rowPointers' columnIndices'.

(** The loop shared by the scalar operations: every stored non-zero is
    replaced by its image under [f]. *)
Definition forEachNonZero (f : T -> T) (m : Matrix T) : Matrix T :=
  mkMatrix (_size m)
    (parallelFor 0 (length (_nonZeros m)) (fun i nz => alter f i nz)
                 (_nonZeros m))
    (_rowPointers m) (_columnIndices m).

(** *** The rows a matrix stores

    Statement vocabulary, not taken from the source: a matrix as the
    list of its rows, each row a list of (column, value) pairs. *)

(** The row pointers that belong to the rows [rs]: the number of pairs
    before each row, and the total. *)
Definition offsets (rs : list (list (N * T))) : list N :=
  map (fun k => N.of_nat (length (concat (take k rs))))
      (seq 0 (S (length rs))).

(** The columns of a row are strictly increasing. *)
Definition increasing (r : list (N * T)) : Prop :=
  forall p q e1 e2, (p < q)%nat -> r !! p = Some e1 -> r !! q = Some e2 ->
    (fst e1 < fst e2)%N.

(** The representation relation: the four members of [m] hold exactly
    the rows [rs], the columns of every row are strictly increasing and
    in range, and the position of no stored pair is the sentinel. *)
Definition storesRows (m : Matrix T) (rs : list (list (N * T))) : Prop :=
  x (_size m) = N.of_nat (length rs) /\
  _nonZeros m = map snd (concat rs) /\
  _columnIndices m = map fst (concat rs) /\
  _rowPointers m = offsets rs /\
  (N.of_nat (length (concat rs)) < kMaxSize)%N /\
  Forall increasing rs /\
  Forall (Forall (fun e => (fst e < y (_size m))%N)) rs.

(** The layout of the four members: a column per value; a row pointer
    per row and one more, the first 0 and the last the number of values;
    between two consecutive row pointers the columns are strictly
    increasing; every column is in range. *)
Definition csrLayout (m : Matrix T) : Prop :=
  length (_nonZeros m) = length (_columnIndices m) /\
  length (_rowPointers m) = S (N.to_nat (x (_size m))) /\
  _rowPointers m !! 0%nat = Some 0%N /\
  _rowPointers m !! N.to_nat (x (_size m)) =
    Some (N.of_nat (length (_nonZeros m))) /\
  (forall i b e, _rowPointers m !! i = Some b ->
     _rowPointers m !! S i = Some e ->
     (b <= e)%N /\
     forall p q c d, (N.to_nat b <= p)%nat -> (p < q)%nat ->
       (q < N.to_nat e)%nat ->
       _columnIndices m !! p = Some c -> _columnIndices m !! q = Some d ->
       (c < d)%N) /\
  (forall p c, _columnIndices m !! p = Some c -> (c < y (_size m))%N).

(** The value of column [j] in a row. *)
Fixpoint rowLookup (j : N) (r : list (N * T)) : option T :=
  match r with
  | [] => None
  | (c, v) :: r' => if (c =? j)%N then Some v else rowLookup j r'
  end.

(** The entry (i, j) of the matrix with rows [rs]; absent entries are
    zero. *)
Definition entryAt (rs : list (list (N * T))) (i j : N) : T :=
  default zero (rs !! N.to_nat i ≫= rowLookup j).

(** Column [j] of a row set to [v]: replaced where present, inserted in
    column order otherwise. *)
Fixpoint rowSet (j : N) (v : T) (r : list (N * T)) : list (N * T) :=
  match r with
  | [] => [(j, v)]
  | (c, w) :: r' =>
      if (c <? j)%N then (c, w) :: rowSet j v r'
      else if (c =? j)%N then (j, v) :: r'
      else (j, v) :: (c, w) :: r'
  end.

(** Entry (i, j) of the rows set to [v], with empty rows appended up to
    row [i]. *)
Definition rowsSet (i j : N) (v : T) (rs : list (list (N * T)))
  : list (list (N * T)) :=
  alter (rowSet j v) (N.to_nat i)
        (rs ++ replicate (S (N.to_nat i) - length rs) []).

(** The rows that [compress] keeps of a dense expression. *)
Definition keptRows (other : MatrixExpression T) (epsilon : T)
  : list (list (N * T)) :=
  map (fun i =>
         map (fun e => (entryColumn e, entryValue other e))
             (rowEntries other epsilon i (N.to_nat (cols other))))
      (seq 0 (N.to_nat (rows other))).

(** The rows of the identity of order [n]. *)
Definition identityRows (one : T) (n : N) : list (list (N * T)) :=
  map (fun k => [(N.of_nat k, one)]) (seq 0 (N.to_nat n)).
End Editing.

(** The scalar operations on a matrix of doubles. *)
Definition add (m : Matrix Q) (s : Q) : Matrix Q :=
  forEachNonZero (fun a => (a + s)%Q) m.

Definition sub (m : Matrix Q) (s : Q) : Matrix Q :=
  forEachNonZero (fun a => (a - s)%Q) m.

Definition mul (m : Matrix Q) (s : Q) : Matrix Q :=
  forEachNonZero (fun a => (a * s)%Q) m.

Definition rsub (m : Matrix Q) (s : Q) : Matrix Q :=
  forEachNonZero (fun a => (s - a)%Q) m.

(** [MatrixCsrVectorMul::operator[](i)] for a matrix of doubles and the
    vector [v]: the products of the stored pairs of row [i] with the
    elements of [v] at their columns, summed in storage order. *)
Definition vectorMulAt (m : Matrix Q) (v : list Q) (i : N) : option Q :=
  match _rowPointers m !! N.to_nat i,
        _rowPointers m !! N.to_nat (wrap (i + 1)) with
  | Some colBegin, Some colEnd =>
      forLoop (fun jj sum =>
                 match _columnIndices m !! jj, _nonZeros m !! jj with
                 | Some j, Some a =>
                     match v !! N.to_nat j with
                     | Some b => Some (sum + a * b)%Q
                     | None => None
                     end
                 | _, _ => None
                 end)
              (N.to_nat colBegin) (N.to_nat colEnd - N.to_nat colBegin) 0%Q
  | _, _ => None
  end.

(** [MatrixCsr::mul(v)]: the constructor of [MatrixCsrVectorMul] asserts
    that the vector has as many elements as the matrix has columns. *)
Definition mulVector (m : Matrix Q) (v : list Q) : option (N -> option Q) :=
  if (y (_size m) =? N.of_nat (length v))%N then Some (vectorMulAt m v)
  else None.

(** Statement vocabulary: the sum of [f 0], ..., [f (n - 1)]. *)
Fixpoint sumUpTo (f : nat -> Q) (n : nat) : Q :=
  match n with
  | O => 0%Q
  | S k => (sumUpTo f k + f k)%Q
  end.

(** Statement vocabulary: a list of rows as a dense expression; its
    width is the length of the first row. *)
Definition denseOfList {T : Type} `{Scalar T} (lst : list (list T))
  : MatrixExpression T :=
  mkExpression (N.of_nat (length lst))
    (N.of_nat (match lst with [] => O | row :: _ => length row end))
    (fun i j => default zero (lst !! N.to_nat i ≫= fun row => row !! N.to_nat j)).

End MatrixCsr.


(** * Blocked boundary-condition solver
      (Engine/Simulation/GridBlockedBoundaryConditionSolver2.cpp) *)

Module Boundary2.

(** [Size2] and [Vector2D]. *)
Record Size2 : Type := mkSize2 { x : nat; y : nat }.
Record Vector2D : Type := mkVector2D { vx : Q; vy : Q }.

(** [Array2<T>].  Array2.h is not among the sources; its storage and
    addressing are those of Array3.h with a single page: element (i, j)
    is at [i + width * j]. *)
Definition Array2 (T : Type) : Type := Array3.Array T.

Section Array2.
Context {T : Type}.

Definition size2 (a : Array2 T) : Size2 :=
  mkSize2 (Array3.x (Array3._size a)) (Array3.y (Array3._size a)).

(** [a(i, j)], read. *)
Definition at2 (a : Array2 T) (i j : nat) : option T :=
  Array3.at_ a i j 0.

(** [a(i, j) = v]. *)
Definition assign2 (a : Array2 T) (i j : nat) (v : T) : option (Array2 T) :=
  Array3.assign a i j 0 v.

(** [Array2(size, initVal)]: the number of elements is the product of
    the extents as [size_t] computes it. *)
Definition filled2 (size : Size2) (initVal : T) : Array2 T :=
  Array3.mkArray (Array3.mkSize3 (x size) (y size) 1)
                 (replicate
                    (Array3.elementCount
                       (Array3.mkSize3 (x size) (y size) 1)) initVal).

(** [resize(size, initVal)]. *)
Definition resize2 (a : Array2 T) (size : Size2) (initVal : T)
  : option (Array2 T) :=
  Array3.resize a (Array3.mkSize3 (x size) (y size) 1) initVal.

(** [Array2()]: no element. *)
Definition empty2 : Array2 T :=
  Array3.mkArray (Array3.mkSize3 0 0 1) [].

(** [forEachIndex(func)]: [j] outside, [i] inside. *)
Definition forEachIndex2 {St : Type} (size : Size2)
    (func : nat -> nat -> St -> option St) (s : St) : option St :=
  forUpTo (y size) (fun j => forUpTo (x size) (fun i => func i j)) s.

(** One page, one element per index. *)
Definition wellFormed2 (a : Array2 T) : Prop :=
  Array3.wellFormed a /\ Array3.z (Array3._size a) = 1.
End Array2.

(** The number of elements of an array of this size is a [size_t]. *)
Definition fitsSizeT2 (size : Size2) : Prop :=
  Array3.fitsSizeT (Array3.mkSize3 (x size) (y size) 1).

(** Modelled from the spec: FaceCenteredGrid2.h is not among the
    sources.  The u-array has resolution.x + 1 samples along x and
    resolution.y along y, the v-array resolution.x along x and
    resolution.y + 1 along y.  The positions of the samples only feed the
    collider's velocity query and are kept as functions of the index. *)
Record FaceCenteredGrid2 : Type := mkFaceCenteredGrid2 {
  resolution : Size2;
  _dataU : Array2 Q;
  _dataV : Array2 Q;
  uPosition : nat -> nat -> Vector2D;
  vPosition : nat -> nat -> Vector2D
}.

(** [u(i, j)] and [v(i, j)], read and written through the accessors. *)
Definition u (g : FaceCenteredGrid2) (i j : nat) : option Q :=
  at2 (_dataU g) i j.
Definition v (g : FaceCenteredGrid2) (i j : nat) : option Q :=
  at2 (_dataV g) i j.

Definition setU (g : FaceCenteredGrid2) (i j : nat) (val : Q)
  : option FaceCenteredGrid2 :=
  match assign2 (_dataU g) i j val with
  | Some a => Some (mkFaceCenteredGrid2 (resolution g) a (_dataV g)
                      (uPosition g) (vPosition g))
  | None => None
  end.

Definition setV (g : FaceCenteredGrid2) (i j : nat) (val : Q)
  : option FaceCenteredGrid2 :=
  match assign2 (_dataV g) i j val with
  | Some a => Some (mkFaceCenteredGrid2 (resolution g) (_dataU g) a
                      (uPosition g) (vPosition g))
  | None => None
  end.

(** [FaceCenteredGrid2(resolution, ...)] followed by [fill(value)]. *)
Definition filledGrid (size : Size2) (value : Vector2D)
    (uPos vPos : nat -> nat -> Vector2D) : FaceCenteredGrid2 :=
  mkFaceCenteredGrid2 size
    (filled2 (mkSize2 (S (x size)) (y size)) (vx value))
    (filled2 (mkSize2 (x size) (S (y size))) (vy value))
    uPos vPos.

Definition gridWellFormed (g : FaceCenteredGrid2) : Prop :=
  wellFormed2 (_dataU g) /\ wellFormed2 (_dataV g) /\
  size2 (_dataU g) = mkSize2 (S (x (resolution g))) (y (resolution g)) /\
  size2 (_dataV g) = mkSize2 (x (resolution g)) (S (y (resolution g))).

(** The collider, as far as the solver uses it (Collider2.h is not among
    the sources): [velocityAt(point)]. *)
Record Collider2 : Type := mkCollider2 {
  velocityAt : Vector2D -> Vector2D
}.

(** Markers of the cells. *)
Definition kFluid : Z := 1.
Definition kCollider : Z := 0.

(** Modelled from the spec: the direction bits of Utils/Constants.h, which
    is not among the sources; one bit per domain face. *)
Definition kDirectionLeft : Z := 1.
Definition kDirectionRight : Z := 2.
Definition kDirectionDown : Z := 4.
Definition kDirectionUp : Z := 8.
Definition kDirectionBack : Z := 16.
Definition kDirectionFront : Z := 32.
Definition kDirectionAll : Z := 63.

(** [flag & direction], as a condition. *)
Definition isClosed (flag direction : Z) : bool :=
  negb (Z.land flag direction =? 0)%Z.

(** The largest finite double (Utils/Constants.h). *)
Definition kMaxD : Q := inject_Z (2 ^ 1024 - 2 ^ 971).

(** [isInsideSdf(phi)] (Utils/LevelSetUtils.h is not among the sources):
    the signed distance is negative inside. *)
Definition isInsideSdf (phi : Q) : bool := Qltb phi 0.

(** The solver: the members of GridBoundaryConditionSolver2, the cached
    signed-distance grid of the fractional solver, and [_marker]. *)
Record Solver : Type := mkSolver {
  _gridSize : Size2;
  _collider : option Collider2;
  _closedDomainBoundaryFlag : Z;
  _colliderSdf : Array2 Q;
  _marker : Array2 Z
}.

(** The solver as constructed: all directions closed. *)
Definition newSolver : Solver :=
  mkSolver (mkSize2 0 0) None kDirectionAll empty2 empty2.

Definition setClosedDomainBoundaryFlag (s : Solver) (flag : Z) : Solver :=
  mkSolver (_gridSize s) (_collider s) flag (_colliderSdf s) (_marker s).

(** The fractional solver, the base class of the blocked one.  Its
    sources are not part of the development; the blocked solver calls
    these two member functions of it. *)
Class FractionalBase : Type := {
  (** [GridFractionalBoundaryConditionSolver2::constrainVelocity] *)
  fractionalConstrainVelocity :
    Solver -> FaceCenteredGrid2 -> nat -> FaceCenteredGrid2;
  (** [GridFractionalBoundaryConditionSolver2::onColliderUpdated]: the
      signed-distance grid it caches. *)
  fractionalColliderSdf : Solver -> Size2 -> Array2 Q
}.

Section Blocked.
Context `{FractionalBase}.

(** [i < size - 1] on [size_t]: for [size = 0] the right-hand side
    wraps around to the largest [size_t], above every index. *)
Definition ltSizeMinusOne (i size : nat) : bool :=
  if size =? 0 then true else i <? size - 1.

(** [_marker(i, j) == value]. *)
Definition markerIs (marker : Array2 Z) (i j : nat) (value : Z)
  : option bool :=
  match at2 marker i j with
  | Some m => Some (m =? value)%Z
  | None => None
  end.

(** [if (guard && _marker(i', j') == kFluid) { write }], the guard
    evaluated first. *)
Definition whenFluidNeighbour (marker : Array2 Z) (guard : bool)
    (i' j' : nat) (write : FaceCenteredGrid2 -> option FaceCenteredGrid2)
    (vel : FaceCenteredGrid2) : option FaceCenteredGrid2 :=
  if guard then
    match markerIs marker i' j' kFluid with
    | Some true => write vel
    | Some false => Some vel
    | None => None
    end
  else Some vel.

(** [u(i, j) = collider()->velocityAt(uPos(i, j)).x]. *)
Definition projectU (collider : option Collider2) (i j : nat)
    (vel : FaceCenteredGrid2) : option FaceCenteredGrid2 :=
  match collider with
  | Some c => setU vel i j (vx (velocityAt c (uPosition vel i j)))
  | None => None
  end.

(** [v(i, j) = collider()->velocityAt(vPos(i, j)).y]. *)
Definition projectV (collider : option Collider2) (i j : nat)
    (vel : FaceCenteredGrid2) : option FaceCenteredGrid2 :=
  match collider with
  | Some c => setV vel i j (vy (velocityAt c (vPosition vel i j)))
  | None => None
  end.

(** The body of the loop over the markers. *)
Definition noFluxAtCell (s : Solver) (size : Size2) (i j : nat)
    (vel : FaceCenteredGrid2) : option FaceCenteredGrid2 :=
  match markerIs (_marker s) i j kCollider with
  | None => None
  | Some false => Some vel
  | Some true =>
      match whenFluidNeighbour (_marker s) (0 <? i) (i - 1) j
              (projectU (_collider s) i j) vel with
      | None => None
      | Some vel1 =>
      match whenFluidNeighbour (_marker s) (ltSizeMinusOne i (x size))
              (i + 1) j (projectU (_collider s) (i + 1) j) vel1 with
      | None => None
      | Some vel2 =>
      match whenFluidNeighbour (_marker s) (0 <? j) i (j - 1)
              (projectV (_collider s) i j) vel2 with
      | None => None
      | Some vel3 =>
          whenFluidNeighbour (_marker s) (ltSizeMinusOne j (y size))
            i (j + 1) (projectV (_collider s) i (j + 1)) vel3
      end end end
  end.

(** [_marker.forEachIndex(...)] of [constrainVelocity]. *)
Definition noFlux (s : Solver) (vel : FaceCenteredGrid2)
  : option FaceCenteredGrid2 :=
  forEachIndex2 (size2 (_marker s))
    (noFluxAtCell s (resolution vel)) vel.

(** [GridBlockedBoundaryConditionSolver2::constrainVelocity]. *)
Definition constrainVelocity (s : Solver) (velocity : FaceCenteredGrid2)
    (extrapolationDepth : nat) : option FaceCenteredGrid2 :=
  noFlux s (fractionalConstrainVelocity s velocity extrapolationDepth).

(** The body of the loop that classifies the cells. *)
Definition classifyCell (sdf : Array2 Q) (i j : nat) (marker : Array2 Z)
  : option (Array2 Z) :=
  match at2 sdf i j with
  | Some phi =>
      assign2 marker i j (if isInsideSdf phi then kCollider else kFluid)
  | None => None
  end.

(** [GridBlockedBoundaryConditionSolver2::onColliderUpdated].  The
    loop over the markers is a parallel one in the source; every
    index writes its own marker only. *)
Definition onColliderUpdated (s : Solver) (gridSize : Size2)
  : option Solver :=
  let sdf := fractionalColliderSdf s gridSize in
  match resize2 (_marker s) gridSize 0%Z with
  | None => None
  | Some marker0 =>
      match forEachIndex2 (size2 marker0) (classifyCell sdf) marker0 with
      | Some marker =>
          Some (mkSolver (_gridSize s) (_collider s)
                  (_closedDomainBoundaryFlag s) sdf marker)
      | None => None
      end
  end.

(** Modelled from the spec: [updateCollider] of the abstract solver
    (its .cpp is not among the sources) applies the new collider and
    the grid geometry and rebuilds the cache. *)
Definition updateCollider (s : Solver) (newCollider : option Collider2)
    (gridSize : Size2) : option Solver :=
  onColliderUpdated
    (mkSolver gridSize newCollider (_closedDomainBoundaryFlag s)
              (_colliderSdf s) (_marker s))
    gridSize.
End Blocked.

(** *** The fractional base class, as the spec describes it *)

(** The loops [for (j ...) u(i0, j) = 0] and [for (i ...) v(i, j0) = 0]
    that close one side of the domain. *)
Definition zeroColumnU (i0 : nat) (vel : FaceCenteredGrid2)
  : option FaceCenteredGrid2 :=
  forUpTo (y (size2 (_dataU vel))) (fun j vel => setU vel i0 j 0%Q) vel.

Definition zeroRowV (j0 : nat) (vel : FaceCenteredGrid2)
  : option FaceCenteredGrid2 :=
  forUpTo (x (size2 (_dataV vel))) (fun i vel => setV vel i j0 0%Q) vel.

Definition whenClosed (flag direction : Z)
    (close : FaceCenteredGrid2 -> option FaceCenteredGrid2)
    (vel : FaceCenteredGrid2) : option FaceCenteredGrid2 :=
  if isClosed flag direction then close vel else Some vel.

(** Modelled from the spec: the closing pass of
    [GridFractionalBoundaryConditionSolver2::constrainVelocity], whose
    source is not part of the development.  The velocity at the
    domain-boundary faces marked closed is projected to zero normal flow,
    the faces of open sides are left untouched, and a zero-size grid is
    left as it is. *)
Definition closeDomainBoundary (flag : Z) (vel : FaceCenteredGrid2)
  : FaceCenteredGrid2 :=
  if (x (resolution vel) =? 0) || (y (resolution vel) =? 0) then vel
  else
    let closed :=
      match whenClosed flag kDirectionLeft (zeroColumnU 0) vel with
      | None => None
      | Some vel1 =>
      match whenClosed flag kDirectionRight
              (zeroColumnU (x (size2 (_dataU vel1)) - 1)) vel1 with
      | None => None
      | Some vel2 =>
      match whenClosed flag kDirectionDown (zeroRowV 0) vel2 with
      | None => None
      | Some vel3 =>
          whenClosed flag kDirectionUp
            (zeroRowV (y (size2 (_dataV vel3)) - 1)) vel3
      end end end in
    match closed with Some vel' => vel' | None => vel end.

(** Modelled from the spec: [GridFractionalBoundaryConditionSolver2], the
    base class, whose [constrainVelocity] and [onColliderUpdated] are not
    among the sources.
    With a null collider the signed distance is +infinity everywhere
    (the largest double stands for it) and only the domain-boundary
    closure applies.  What it does against a collider is left open: the
    projection [againstCollider] and the sampled distance [sampledSdf]
    are parameters. *)
Definition specFractionalBase
    (againstCollider :
       Collider2 -> Solver -> FaceCenteredGrid2 -> nat -> FaceCenteredGrid2)
    (sampledSdf : Collider2 -> Size2 -> Array2 Q) : FractionalBase := {|
  fractionalConstrainVelocity := fun s vel depth =>
    match _collider s with
    | None => closeDomainBoundary (_closedDomainBoundaryFlag s) vel
    | Some c =>
        closeDomainBoundary (_closedDomainBoundaryFlag s)
          (againstCollider c s vel depth)
    end;
  fractionalColliderSdf := fun s gridSize =>
    match _collider s with
    | None => filled2 gridSize kMaxD
    | Some c => sampledSdf c gridSize
    end
|}.

(** *** Vocabulary of the statements *)

(** [_marker(i, j) == value], false outside the array. *)
Definition markerEq (marker : Array2 Z) (i j : nat) (value : Z) : bool :=
  match at2 marker i j with
  | Some m => (m =? value)%Z
  | None => false
  end.

(** The loop body at cell (i, j) writes the u-face (a, b): the cell is a
    collider cell and the face is shared with a fluid cell on its left or
    on its right. *)
Definition writesU (marker : Array2 Z) (size : Size2) (i j a b : nat)
  : bool :=
  markerEq marker i j kCollider && (b =? j) &&
  (((a =? i) && (0 <? i) && markerEq marker (i - 1) j kFluid) ||
   ((a =? i + 1) && ltSizeMinusOne i (x size) &&
    markerEq marker (i + 1) j kFluid)).

(** The same for the v-face (a, b) and the cells below and above. *)
Definition writesV (marker : Array2 Z) (size : Size2) (i j a b : nat)
  : bool :=
  markerEq marker i j kCollider && (a =? i) &&
  (((b =? j) && (0 <? j) && markerEq marker i (j - 1) kFluid) ||
   ((b =? j + 1) && ltSizeMinusOne j (y size) &&
    markerEq marker i (j + 1) kFluid)).

(** Some cell visited before the loops reach (i0, j0) satisfies [w]. *)
Definition touchedBefore (w : nat -> nat -> bool) (size : Size2)
    (j0 i0 : nat) : Prop :=
  exists i j, i < x size /\ j < y size /\
              (j < j0 \/ (j = j0 /\ i < i0)) /\ w i j = true.

(** [g'] has the shape of [g]: same resolution, same positions, and it
    is well formed. *)
Definition sameShape (g g' : FaceCenteredGrid2) : Prop :=
  gridWellFormed g' /\ resolution g' = resolution g /\
  uPosition g' = uPosition g /\ vPosition g' = vPosition g.

(** *** Data to exercise the statements *)

Definition samplePosition (i j : nat) : Vector2D :=
  mkVector2D (inject_Z (Z.of_nat i)) (inject_Z (Z.of_nat j)).

(** A collider moving with velocity (3, 5). *)
Definition sampleCollider : Collider2 :=
  mkCollider2 (fun _ => mkVector2D 3 5).

(** A base class that leaves the velocity as it is and reports the
    left cell of a 2 x 1 grid inside the collider. *)
Definition sampleBase : FractionalBase := {|
  fractionalConstrainVelocity := fun _ vel _ => vel;
  fractionalColliderSdf := fun _ _ =>
    Array3.mkArray (Array3.mkSize3 2 1 1) [(-1)%Q; 1%Q]
|}.

Definition sampleSolver : Solver :=
  mkSolver (mkSize2 2 1) (Some sampleCollider) kDirectionAll
    (Array3.mkArray (Array3.mkSize3 2 1 1) [(-1)%Q; 1%Q])
    (Array3.mkArray (Array3.mkSize3 2 1 1) [kCollider; kFluid]).

Definition sampleGrid : FaceCenteredGrid2 :=
  filledGrid (mkSize2 2 1) (mkVector2D 1 1) samplePosition samplePosition.

End Boundary2.


(** * Frame and sub-step driver (Engine/Simulation/PhysicsAnimation.cpp) *)

Module PhysicsAnimation.
Local Open Scope Q_scope.

(** Modelled from the spec: Frame.h is not among the sources.  A frame is
    an integer index and the seconds per frame, and its time is
    index * seconds per frame. *)
Record Frame : Type := mkFrame {
  index : Z;
  timeIntervalInSeconds : Q
}.

Definition timeInSeconds (f : Frame) : Q :=
  inject_Z (index f) * timeIntervalInSeconds f.

(** The value of an [int32_t] expression: two's complement wrap-around.
    (An overflow of [int] is undefined in the source language; the
    statements below exclude it.) *)
Definition wrapInt32 (n : Z) : Z :=
  ((n + 2 ^ 31) mod 2 ^ 32 - 2 ^ 31)%Z.

(** What the driver does that an observer can count: the calls of the
    hooks, each entry into [advanceTimeStep], and each query of
    [numberOfSubTimeSteps] with its argument and its result. *)
Inductive Event : Type :=
| EvOnInitialize
| EvAdvanceTimeStep (timeIntervalInSeconds : Q)
| EvNumberOfSubTimeSteps (remainingTime : Q) (numSteps : N)
| EvOnAdvanceTimeStep (actualTimeInterval : Q).

(** The members of [PhysicsAnimation], the state [U] of the class
    derived from it, and the log of events. *)
Record State (U : Type) : Type := mkState {
  _currentFrame : Frame;
  _isUsingFixedSubTimeSteps : bool;
  _numberOfFixedSubTimeSteps : N;
  _currentTime : Q;
  _isInitialized : bool;
  derived : U;
  trace : list Event
}.
Arguments mkState {U} _ _ _ _ _ _ _.
Arguments _currentFrame {U} _.
Arguments _isUsingFixedSubTimeSteps {U} _.
Arguments _numberOfFixedSubTimeSteps {U} _.
Arguments _currentTime {U} _.
Arguments _isInitialized {U} _.
Arguments derived {U} _.
Arguments trace {U} _.

(** The virtual member functions.  [onAdvanceTimeStep] may read the
    current time; [numberOfSubTimeSteps] may read the fixed count. *)
Class Hooks (U : Type) : Type := {
  onInitialize : U -> U;
  onAdvanceTimeStep : Q -> Q -> U -> U;
  numberOfSubTimeSteps : N -> U -> Q -> N
}.

(** [PhysicsAnimation] itself: [onInitialize] does nothing and
    [numberOfSubTimeSteps] returns the fixed count. *)
Definition baseHooks (U : Type) (step : Q -> Q -> U -> U) : Hooks U := {|
  onInitialize := fun u => u;
  onAdvanceTimeStep := step;
  numberOfSubTimeSteps := fun fixedCount _ _ => fixedCount
|}.

(** The result of a loop whose number of rounds is not known in
    advance: it finished, or the rounds allowed were used up, or a
    double left the finite numbers (a division by zero). *)
Inductive Outcome (A : Type) : Type :=
| Done (a : A)
| OutOfFuel
| NonFinite.
Arguments Done {A} _.
Arguments OutOfFuel {A}.
Arguments NonFinite {A}.


Section Driver.
Context {U : Type} `{Hooks U}.
(** [kEpsilonD] of Utils/Constants.h, which is not among the sources. *)
Variable kEpsilonD : Q.

Definition logEvent (e : Event) (s : State U) : State U :=
  mkState (_currentFrame s) (_isUsingFixedSubTimeSteps s)
    (_numberOfFixedSubTimeSteps s) (_currentTime s) (_isInitialized s)
    (derived s) (trace s ++ [e]).

Definition setCurrentFrame (frame : Frame) (s : State U) : State U :=
  mkState frame (_isUsingFixedSubTimeSteps s)
    (_numberOfFixedSubTimeSteps s) (_currentTime s) (_isInitialized s)
    (derived s) (trace s).

Definition setCurrentTime (t : Q) (s : State U) : State U :=
  mkState (_currentFrame s) (_isUsingFixedSubTimeSteps s)
    (_numberOfFixedSubTimeSteps s) t (_isInitialized s)
    (derived s) (trace s).

(** [initialize()]. *)
Definition initialize (s : State U) : State U :=
  if _isInitialized s then s
  else
    mkState (_currentFrame s) (_isUsingFixedSubTimeSteps s)
      (_numberOfFixedSubTimeSteps s) (_currentTime s) true
      (onInitialize (derived s)) (trace s ++ [EvOnInitialize]).

(** [onAdvanceTimeStep(actualTimeInterval);
     _currentTime += actualTimeInterval;] *)
Definition subStep (actualTimeInterval : Q) (s : State U) : State U :=
  mkState (_currentFrame s) (_isUsingFixedSubTimeSteps s)
    (_numberOfFixedSubTimeSteps s)
    (_currentTime s + actualTimeInterval) (_isInitialized s)
    (onAdvanceTimeStep (_currentTime s) actualTimeInterval (derived s))
    (trace s ++ [EvOnAdvanceTimeStep actualTimeInterval]).

(** [static_cast<double>(n)]. *)
Definition toDouble (n : N) : Q := inject_Z (Z.of_N n).

(** [while (remainingTime > kEpsilonD) { ... }] *)
Fixpoint adaptiveLoop (fuel : nat) (remainingTime : Q) (s : State U)
  : Outcome (State U) :=
  if Qltb kEpsilonD remainingTime then
    match fuel with
    | O => OutOfFuel
    | S fuel' =>
        let numSteps :=
          numberOfSubTimeSteps (_numberOfFixedSubTimeSteps s)
                               (derived s) remainingTime in
        if (numSteps =? 0)%N then NonFinite
        else
          let actualTimeInterval := remainingTime / toDouble numSteps in
          let s1 :=
            logEvent (EvNumberOfSubTimeSteps remainingTime numSteps) s in
          adaptiveLoop fuel' (remainingTime - actualTimeInterval)
                       (subStep actualTimeInterval s1)
    end
  else Done s.

(** [advanceTimeStep(timeIntervalInSeconds)]. *)
Definition advanceTimeStep (fuel : nat) (timeIntervalInSeconds : Q)
    (s : State U) : Outcome (State U) :=
  let s0 :=
    logEvent (EvAdvanceTimeStep timeIntervalInSeconds)
      (setCurrentTime (timeInSeconds (_currentFrame s)) s) in
  if _isUsingFixedSubTimeSteps s0 then
    let actualTimeInterval :=
      timeIntervalInSeconds / toDouble (_numberOfFixedSubTimeSteps s0) in
    Done (forUpToT (N.to_nat (_numberOfFixedSubTimeSteps s0))
            (fun _ => subStep actualTimeInterval) s0)
  else adaptiveLoop fuel timeIntervalInSeconds s0.

(** [for (int32_t i = 0; i < numberOfFrames; ++i) advanceTimeStep(...)] *)
Fixpoint advanceFrames (fuel : nat) (count : nat)
    (timeIntervalInSeconds : Q) (s : State U) : Outcome (State U) :=
  match count with
  | O => Done s
  | S count' =>
      match advanceTimeStep fuel timeIntervalInSeconds s with
      | Done s' => advanceFrames fuel count' timeIntervalInSeconds s'
      | OutOfFuel => OutOfFuel
      | NonFinite => NonFinite
      end
  end.

(** [onUpdate(frame)]. *)
Definition onUpdate (fuel : nat) (frame : Frame) (s : State U)
  : Outcome (State U) :=
  if (index (_currentFrame s) <? index frame)%Z then
    let s1 := initialize s in
    let numberOfFrames :=
      wrapInt32 (index frame - index (_currentFrame s1)) in
    match advanceFrames fuel (Z.to_nat numberOfFrames)
            (timeIntervalInSeconds frame) s1 with
    | Done s2 => Done (setCurrentFrame frame s2)
    | OutOfFuel => OutOfFuel
    | NonFinite => NonFinite
    end
  else Done s.


End Driver.

(** *** Vocabulary of the statements *)

(** The sizes of the sub-steps taken, in order. *)
Fixpoint subSteps (events : list Event) : list Q :=
  match events with
  | [] => []
  | EvOnAdvanceTimeStep dt :: rest => dt :: subSteps rest
  | _ :: rest => subSteps rest
  end.

Fixpoint Qsum (l : list Q) : Q :=
  match l with
  | [] => 0
  | q :: rest => q + Qsum rest
  end.

Definition isInitializeEvent (e : Event) : bool :=
  match e with EvOnInitialize => true | _ => false end.

Definition isAdvanceTimeStepEvent (e : Event) : bool :=
  match e with EvAdvanceTimeStep _ => true | _ => false end.

Definition countInitialize (events : list Event) : nat :=
  length (List.filter isInitializeEvent events).

Definition countAdvanceTimeStep (events : list Event) : nat :=
  length (List.filter isAdvanceTimeStepEvent events).

(** The events of an adaptive run that starts with [remainingTime] left:
    each round queries the number of sub-steps for the time then
    remaining and takes one sub-step of that time divided by the
    answer. *)
Fixpoint recomputedFrom (remainingTime : Q) (events : list Event) : Prop :=
  match events with
  | [] => True
  | EvNumberOfSubTimeSteps r n :: EvOnAdvanceTimeStep dt :: rest =>
      r = remainingTime /\ dt = remainingTime / inject_Z (Z.of_N n) /\
      recomputedFrom (remainingTime - dt) rest
  | _ => False
  end.

(** The members of the base class that the sub-steps leave alone. *)
Definition sameSettings {U : Type} (s s' : State U) : Prop :=
  _currentFrame s' = _currentFrame s /\
  _isUsingFixedSubTimeSteps s' = _isUsingFixedSubTimeSteps s /\
  _numberOfFixedSubTimeSteps s' = _numberOfFixedSubTimeSteps s /\
  _isInitialized s' = _isInitialized s.

(** Rounds that are enough for an adaptive run over [interval] when no
    query answers more than [bound]. *)
Definition enoughFuel (kEpsilonD interval : Q) (bound : N) : nat :=
  Z.to_nat (Qceiling (interval * inject_Z (Z.of_N bound) / kEpsilonD)).

(** The sub-stepping of [s] comes to an end: the count is fixed, or the
    cutoff is positive and the state of the derived class satisfies an
    invariant [Inv] of its hooks under which, for the fixed count of [s],
    every query of [numberOfSubTimeSteps] for a time above the cutoff
    answers between 1 and [bound]. *)
Definition subSteppingEnds {U : Type} `{Hooks U} (kEpsilonD : Q)
    (bound : N) (Inv : U -> Prop) (s : State U) : Prop :=
  _isUsingFixedSubTimeSteps s = true \/
  (0 < kEpsilonD /\
   Inv (derived s) /\
   (forall u : U, Inv u -> Inv (onInitialize u)) /\
   (forall (t dt : Q) (u : U), Inv u -> Inv (onAdvanceTimeStep t dt u)) /\
   forall (u : U) (t : Q),
     Inv u -> kEpsilonD < t ->
     (1 <= numberOfSubTimeSteps (_numberOfFixedSubTimeSteps s) u t
      <= bound)%N).

(** *** Data to exercise the statements *)

(** A derived class that counts its sub-steps and asks for [k]
    sub-steps whatever the interval. *)
Definition countingHooks (k : N) : Hooks nat := {|
  onInitialize := fun u => u;
  onAdvanceTimeStep := fun _ _ u => S u;
  numberOfSubTimeSteps := fun _ _ _ => k
|}.

(** The base class with a derived state that counts the sub-steps. *)
Definition baseCountingHooks : Hooks nat :=
  baseHooks nat (fun _ _ u => S u).

Definition newAnimation (fixed : bool) (count : N) : State nat :=
  mkState (mkFrame (-1)%Z (1 # 60)) fixed count 0 false O [].

End PhysicsAnimation.


(** * Grid fluid solver (Engine/Simulation/GridFluidSolver3.cpp) *)

Module GridFluidSolver3.
Local Open Scope Q_scope.

Record Vector3D : Type := mkVector3D { x : Q; y : Q; z : Q }.

(** [a + b], [c * v] and [v.lengthSquared()]. *)
Definition vadd (a b : Vector3D) : Vector3D :=
  mkVector3D (x a + x b) (y a + y b) (z a + z b).
Definition vscale (c : Q) (v : Vector3D) : Vector3D :=
  mkVector3D (c * x v) (c * y v) (c * z v).
Definition lengthSquared (v : Vector3D) : Q :=
  x v * x v + y v * y v + z v * z v.

(** The collaborators of the solver: the grids, the collider, the
    emitter, the three equation solvers, the boundary-condition solver
    and the extrapolation routine.  Their sources are not part of the
    development; the solver uses the operations listed here. *)
Class Collaborators : Type := {
  FaceCenteredGrid3 : Type;
  CollocatedVectorGrid3 : Type;
  ScalarGrid3 : Type;
  ScalarField3 : Type;
  VectorField3 : Type;
  Collider3 : Type;
  GridEmitter3 : Type;
  AdvectionSolver3 : Type;
  GridDiffusionSolver3 : Type;
  GridPressureSolver3 : Type;
  GridBoundaryConditionSolver3 : Type;

  (** [vel->valueAtCellCenter(i, j, k)] *)
  valueAtCellCenter : FaceCenteredGrid3 -> nat -> nat -> nat -> Vector3D;
  (** [forEachUIndex: u(i, j, k) += c], and the same for v and w *)
  addToU : Q -> FaceCenteredGrid3 -> FaceCenteredGrid3;
  addToV : Q -> FaceCenteredGrid3 -> FaceCenteredGrid3;
  addToW : Q -> FaceCenteredGrid3 -> FaceCenteredGrid3;
  (** [ConstantScalarField3(value)] *)
  constantScalarField : Q -> ScalarField3;

  (** [collider->update(currentTime, dt)] *)
  colliderUpdate : Collider3 -> Q -> Q -> Collider3;
  (** [emitter->update(currentTime, dt)], which may write to the
      velocity grid it was given *)
  emitterUpdate : GridEmitter3 -> Q -> Q -> FaceCenteredGrid3 ->
                  GridEmitter3 * FaceCenteredGrid3;

  (** the boundary-condition solver *)
  bcUpdateCollider : GridBoundaryConditionSolver3 -> option Collider3 ->
                     Array3.Size3 -> Vector3D -> Vector3D ->
                     GridBoundaryConditionSolver3;
  bcConstrainVelocity : GridBoundaryConditionSolver3 -> FaceCenteredGrid3 ->
                        N -> FaceCenteredGrid3;
  bcColliderSdf : GridBoundaryConditionSolver3 -> ScalarField3;
  bcColliderVelocityField : GridBoundaryConditionSolver3 -> VectorField3;
  bcSetClosedDomainBoundaryFlag :
    GridBoundaryConditionSolver3 -> Z -> GridBoundaryConditionSolver3;
  (** [suggestedBoundaryConditionSolver()], a pointer that the caller
      does not test *)
  suggestedBoundaryConditionSolver :
    GridPressureSolver3 -> option GridBoundaryConditionSolver3;

  (** [solve(source, coefficient, dt, dest, boundarySdf, fluidSdf)] *)
  diffusionSolve : GridDiffusionSolver3 -> FaceCenteredGrid3 -> Q -> Q ->
                   ScalarField3 -> ScalarField3 -> FaceCenteredGrid3;
  (** [solve(source, dt, dest, boundarySdf, boundaryVelocity, fluidSdf,
      useCompressed)] *)
  pressureSolve : GridPressureSolver3 -> FaceCenteredGrid3 -> Q ->
                  ScalarField3 -> VectorField3 -> ScalarField3 -> bool ->
                  FaceCenteredGrid3;
  (** [advect(input, flow, dt, output, boundarySdf)] for the three kinds
      of grid *)
  advectScalar : AdvectionSolver3 -> ScalarGrid3 -> FaceCenteredGrid3 ->
                 Q -> ScalarField3 -> ScalarGrid3;
  advectCollocated : AdvectionSolver3 -> CollocatedVectorGrid3 ->
                     FaceCenteredGrid3 -> Q -> ScalarField3 ->
                     CollocatedVectorGrid3;
  advectFaceCentered : AdvectionSolver3 -> FaceCenteredGrid3 ->
                       FaceCenteredGrid3 -> Q -> ScalarField3 ->
                       FaceCenteredGrid3;

  (** the marker array built from the collider's signed distance,
      followed by [extrapolateToRegion] to the given depth *)
  extrapolateScalar : ScalarField3 -> N -> ScalarGrid3 -> ScalarGrid3;
  extrapolateCollocated : ScalarField3 -> N -> CollocatedVectorGrid3 ->
                          CollocatedVectorGrid3;
  extrapolateFaceCentered : ScalarField3 -> N -> FaceCenteredGrid3 ->
                            FaceCenteredGrid3
}.

Section Solver.
Context `{Collaborators}.
(** [kEpsilonD] and [kMaxD] of Utils/Constants.h, which is not among
    the sources. *)
Variables (kEpsilonD kMaxD : Q).

(** A layer of vector data.  The velocity itself is one of the
    advectable vector layers (the same object, at [_velocityIdx]); it
    is held once, in [_velocity], and its place in the list is marked.
    A layer that is neither collocated nor face-centred fails both
    casts of the advection stage. *)
Inductive VectorGrid3 : Type :=
| VelocityLayer
| Collocated (grid : CollocatedVectorGrid3)
| FaceCentered (grid : FaceCenteredGrid3)
| OtherVectorGrid.

(** [GridSystemData3]. *)
Record GridSystemData3 : Type := mkGridSystemData3 {
  _resolution : Array3.Size3;
  _gridSpacing : Vector3D;
  _origin : Vector3D;
  _velocityIdx : nat;
  _velocity : FaceCenteredGrid3;
  _advectableScalarDataList : list ScalarGrid3;
  _advectableVectorDataList : list VectorGrid3
}.

Definition withVelocity (vel : FaceCenteredGrid3) (g : GridSystemData3)
  : GridSystemData3 :=
  mkGridSystemData3 (_resolution g) (_gridSpacing g) (_origin g)
    (_velocityIdx g) vel (_advectableScalarDataList g)
    (_advectableVectorDataList g).

Definition withAdvectableScalar (i : nat) (grid : ScalarGrid3)
    (g : GridSystemData3) : GridSystemData3 :=
  mkGridSystemData3 (_resolution g) (_gridSpacing g) (_origin g)
    (_velocityIdx g) (_velocity g)
    (<[i := grid]> (_advectableScalarDataList g))
    (_advectableVectorDataList g).

Definition withAdvectableVector (i : nat) (grid : VectorGrid3)
    (g : GridSystemData3) : GridSystemData3 :=
  mkGridSystemData3 (_resolution g) (_gridSpacing g) (_origin g)
    (_velocityIdx g) (_velocity g) (_advectableScalarDataList g)
    (<[i := grid]> (_advectableVectorDataList g)).

(** The members of [GridFluidSolver3], and the current time of the
    animation it derives from. *)
Record Solver : Type := mkSolver {
  _gravity : Vector3D;
  _viscosityCoefficient : Q;
  _maxCfl : Q;
  _useCompressedLinearSys : bool;
  _closedDomainBoundaryFlag : Z;
  _grids : GridSystemData3;
  _collider : option Collider3;
  _emitter : option GridEmitter3;
  _advectionSolver : option AdvectionSolver3;
  _diffusionSolver : option GridDiffusionSolver3;
  _pressureSolver : option GridPressureSolver3;
  _boundaryConditionSolver : option GridBoundaryConditionSolver3;
  currentTimeInSeconds : Q
}.

Definition withGrids (g : GridSystemData3) (s : Solver) : Solver :=
  mkSolver (_gravity s) (_viscosityCoefficient s) (_maxCfl s)
    (_useCompressedLinearSys s) (_closedDomainBoundaryFlag s) g
    (_collider s) (_emitter s) (_advectionSolver s) (_diffusionSolver s)
    (_pressureSolver s) (_boundaryConditionSolver s)
    (currentTimeInSeconds s).

(** *** Setters *)

Definition setGravity (newGravity : Vector3D) (s : Solver) : Solver :=
  mkSolver newGravity (_viscosityCoefficient s) (_maxCfl s)
    (_useCompressedLinearSys s) (_closedDomainBoundaryFlag s) (_grids s)
    (_collider s) (_emitter s) (_advectionSolver s) (_diffusionSolver s)
    (_pressureSolver s) (_boundaryConditionSolver s)
    (currentTimeInSeconds s).

(** [_viscosityCoefficient = std::max(newValue, 0.0)] *)
Definition setViscosityCoefficient (newValue : Q) (s : Solver) : Solver :=
  mkSolver (_gravity s) (std_max newValue 0) (_maxCfl s)
    (_useCompressedLinearSys s) (_closedDomainBoundaryFlag s) (_grids s)
    (_collider s) (_emitter s) (_advectionSolver s) (_diffusionSolver s)
    (_pressureSolver s) (_boundaryConditionSolver s)
    (currentTimeInSeconds s).

(** [_maxCfl = std::max(newCfl, kEpsilonD)] *)
Definition setMaxCfl (newCfl : Q) (s : Solver) : Solver :=
  mkSolver (_gravity s) (_viscosityCoefficient s)
    (std_max newCfl kEpsilonD)
    (_useCompressedLinearSys s) (_closedDomainBoundaryFlag s) (_grids s)
    (_collider s) (_emitter s) (_advectionSolver s) (_diffusionSolver s)
    (_pressureSolver s) (_boundaryConditionSolver s)
    (currentTimeInSeconds s).

Definition setUseCompressedLinearSystem (onoff : bool) (s : Solver)
  : Solver :=
  mkSolver (_gravity s) (_viscosityCoefficient s) (_maxCfl s) onoff
    (_closedDomainBoundaryFlag s) (_grids s)
    (_collider s) (_emitter s) (_advectionSolver s) (_diffusionSolver s)
    (_pressureSolver s) (_boundaryConditionSolver s)
    (currentTimeInSeconds s).

Definition setAdvectionSolver (newSolver : option AdvectionSolver3)
    (s : Solver) : Solver :=
  mkSolver (_gravity s) (_viscosityCoefficient s) (_maxCfl s)
    (_useCompressedLinearSys s) (_closedDomainBoundaryFlag s) (_grids s)
    (_collider s) (_emitter s) newSolver (_diffusionSolver s)
    (_pressureSolver s) (_boundaryConditionSolver s)
    (currentTimeInSeconds s).

Definition setDiffusionSolver (newSolver : option GridDiffusionSolver3)
    (s : Solver) : Solver :=
  mkSolver (_gravity s) (_viscosityCoefficient s) (_maxCfl s)
    (_useCompressedLinearSys s) (_closedDomainBoundaryFlag s) (_grids s)
    (_collider s) (_emitter s) (_advectionSolver s) newSolver
    (_pressureSolver s) (_boundaryConditionSolver s)
    (currentTimeInSeconds s).

(** [setPressureSolver]: a non-null pressure solver brings its own
    boundary-condition solver, which replaces the one installed and is
    dereferenced without a test to apply the flag. *)
Definition setPressureSolver (newSolver : option GridPressureSolver3)
    (s : Solver) : option Solver :=
  match newSolver with
  | Some p =>
      match suggestedBoundaryConditionSolver p with
      | Some bc =>
          Some (mkSolver (_gravity s) (_viscosityCoefficient s) (_maxCfl s)
                  (_useCompressedLinearSys s) (_closedDomainBoundaryFlag s)
                  (_grids s) (_collider s) (_emitter s) (_advectionSolver s)
                  (_diffusionSolver s) (Some p)
                  (Some (bcSetClosedDomainBoundaryFlag bc
                           (_closedDomainBoundaryFlag s)))
                  (currentTimeInSeconds s))
      | None => None
      end
  | None =>
      Some (mkSolver (_gravity s) (_viscosityCoefficient s) (_maxCfl s)
              (_useCompressedLinearSys s) (_closedDomainBoundaryFlag s)
              (_grids s) (_collider s) (_emitter s) (_advectionSolver s)
              (_diffusionSolver s) None (_boundaryConditionSolver s)
              (currentTimeInSeconds s))
  end.

(** [setClosedDomainBoundaryFlag]: the boundary-condition solver is
    dereferenced without a test. *)
Definition setClosedDomainBoundaryFlag (flag : Z) (s : Solver)
  : option Solver :=
  match _boundaryConditionSolver s with
  | Some bc =>
      Some (mkSolver (_gravity s) (_viscosityCoefficient s) (_maxCfl s)
              (_useCompressedLinearSys s) flag (_grids s)
              (_collider s) (_emitter s) (_advectionSolver s)
              (_diffusionSolver s) (_pressureSolver s)
              (Some (bcSetClosedDomainBoundaryFlag bc flag))
              (currentTimeInSeconds s))
  | None => None
  end.

Definition setCollider (newCollider : option Collider3) (s : Solver)
  : Solver :=
  mkSolver (_gravity s) (_viscosityCoefficient s) (_maxCfl s)
    (_useCompressedLinearSys s) (_closedDomainBoundaryFlag s) (_grids s)
    newCollider (_emitter s) (_advectionSolver s) (_diffusionSolver s)
    (_pressureSolver s) (_boundaryConditionSolver s)
    (currentTimeInSeconds s).

Definition setEmitter (newEmitter : option GridEmitter3) (s : Solver)
  : Solver :=
  mkSolver (_gravity s) (_viscosityCoefficient s) (_maxCfl s)
    (_useCompressedLinearSys s) (_closedDomainBoundaryFlag s) (_grids s)
    (_collider s) newEmitter (_advectionSolver s) (_diffusionSolver s)
    (_pressureSolver s) (_boundaryConditionSolver s)
    (currentTimeInSeconds s).

(** A call of one of the setters. *)
Inductive SetterCall : Type :=
| CallSetGravity (newGravity : Vector3D)
| CallSetViscosityCoefficient (newValue : Q)
| CallSetMaxCfl (newCfl : Q)
| CallSetUseCompressedLinearSystem (onoff : bool)
| CallSetAdvectionSolver (newSolver : option AdvectionSolver3)
| CallSetDiffusionSolver (newSolver : option GridDiffusionSolver3)
| CallSetPressureSolver (newSolver : option GridPressureSolver3)
| CallSetClosedDomainBoundaryFlag (flag : Z)
| CallSetCollider (newCollider : option Collider3)
| CallSetEmitter (newEmitter : option GridEmitter3).

Definition applySetter (call : SetterCall) (s : Solver) : option Solver :=
  match call with
  | CallSetGravity g => Some (setGravity g s)
  | CallSetViscosityCoefficient v => Some (setViscosityCoefficient v s)
  | CallSetMaxCfl c => Some (setMaxCfl c s)
  | CallSetUseCompressedLinearSystem b =>
      Some (setUseCompressedLinearSystem b s)
  | CallSetAdvectionSolver a => Some (setAdvectionSolver a s)
  | CallSetDiffusionSolver d => Some (setDiffusionSolver d s)
  | CallSetPressureSolver p => setPressureSolver p s
  | CallSetClosedDomainBoundaryFlag f => setClosedDomainBoundaryFlag f s
  | CallSetCollider c => Some (setCollider c s)
  | CallSetEmitter e => Some (setEmitter e s)
  end.

Fixpoint applySetters (calls : list SetterCall) (s : Solver)
  : option Solver :=
  match calls with
  | [] => Some s
  | call :: rest =>
      match applySetter call s with
      | Some s' => applySetters rest s'
      | None => None
      end
  end.

(** *** The CFL number *)

(** The body of the loop over the cells. *)
Definition cflCell (s : Solver) (timeIntervalInSeconds : Q)
    (i j k : nat) (maxVel : Q) : Q :=
  let v := vadd (valueAtCellCenter (_velocity (_grids s)) i j k)
                (vscale timeIntervalInSeconds (_gravity s)) in
  let maxVel := std_max maxVel (x v) in
  let maxVel := std_max maxVel (y v) in
  std_max maxVel (z v).

(** [forEachCellIndex(func)]: [k] outside, [i] inside. *)
Definition forEachCellIndex {St : Type} (resolution : Array3.Size3)
    (func : nat -> nat -> nat -> St -> St) (s : St) : St :=
  forUpToT (Array3.z resolution) (fun k =>
    forUpToT (Array3.y resolution) (fun j =>
      forUpToT (Array3.x resolution) (fun i => func i j k))) s.

(** [cfl(timeIntervalInSeconds)]. *)
Definition cfl (s : Solver) (timeIntervalInSeconds : Q) : Q :=
  let maxVel :=
    forEachCellIndex (_resolution (_grids s))
      (cflCell s timeIntervalInSeconds) 0 in
  let gridSpacing := _gridSpacing (_grids s) in
  let minGridSize := min3 (x gridSpacing) (y gridSpacing) (z gridSpacing) in
  maxVel * timeIntervalInSeconds / minGridSize.

(** The integer a double is truncated to, towards zero. *)
Definition truncate (d : Q) : Z :=
  if Qle_bool 0 d then Qfloor d else Qceiling d.

(** [static_cast<unsigned int>(d)]: the double is truncated towards
    zero; the conversion is undefined when the truncated value is not a
    value of [unsigned int], which is 32 bits wide. *)
Definition toUnsigned (d : Q) : option N :=
  let t := truncate d in
  if (0 <=? t)%Z && (t <? 2 ^ 32)%Z then Some (Z.to_N t) else None.

(** [std::ceil(d)]. *)
Definition ceil (d : Q) : Q := inject_Z (Qceiling d).

(** [numberOfSubTimeSteps(timeIntervalInSeconds)].  The divisor
    [_maxCfl] is at least [kEpsilonD] in every solver the setters leave;
    the statements about the count take it positive. *)
Definition numberOfSubTimeSteps (s : Solver) (timeIntervalInSeconds : Q)
  : option N :=
  let currentCfl := cfl s timeIntervalInSeconds in
  toUnsigned (std_max (ceil (currentCfl / _maxCfl s)) 1).

(** The CFL number in the words of the spec: the largest component,
    in absolute value, of the cell-centre velocity plus dt times
    gravity over all cells, times dt, divided by the smallest grid
    spacing. *)
Definition cflCellAsSpecified (s : Solver) (timeIntervalInSeconds : Q)
    (i j k : nat) (maxVel : Q) : Q :=
  let v := vadd (valueAtCellCenter (_velocity (_grids s)) i j k)
                (vscale timeIntervalInSeconds (_gravity s)) in
  std_max (std_max (std_max maxVel (Qabs (x v))) (Qabs (y v)))
          (Qabs (z v)).

Definition cflAsSpecified (s : Solver) (timeIntervalInSeconds : Q) : Q :=
  let maxVel :=
    forEachCellIndex (_resolution (_grids s))
      (cflCellAsSpecified s timeIntervalInSeconds) 0 in
  let gridSpacing := _gridSpacing (_grids s) in
  let minGridSize := min3 (x gridSpacing) (y gridSpacing) (z gridSpacing) in
  maxVel * timeIntervalInSeconds / minGridSize.

(** *** The sub-step *)

(** [colliderSdf()], [colliderVelocityField()]: the boundary-condition
    solver is dereferenced without a test. *)
Definition colliderSdf (s : Solver) : option ScalarField3 :=
  match _boundaryConditionSolver s with
  | Some bc => Some (bcColliderSdf bc)
  | None => None
  end.

Definition colliderVelocityField (s : Solver) : option VectorField3 :=
  match _boundaryConditionSolver s with
  | Some bc => Some (bcColliderVelocityField bc)
  | None => None
  end.

(** [fluidSdf()]. *)
Definition fluidSdf (s : Solver) : ScalarField3 :=
  constantScalarField (- kMaxD).

(** [applyBoundaryCondition()]. *)
Definition applyBoundaryCondition (s : Solver) : option Solver :=
  match _boundaryConditionSolver s with
  | Some bc =>
      match toUnsigned (ceil (_maxCfl s)) with
      | Some depth =>
          Some (withGrids
                  (withVelocity
                     (bcConstrainVelocity bc (_velocity (_grids s)) depth)
                     (_grids s)) s)
      | None => None
      end
  | None => Some s
  end.

(** [updateCollider(dt)]. *)
Definition updateCollider (timeIntervalInSeconds : Q) (s : Solver)
  : Solver :=
  match _collider s with
  | Some c =>
      setCollider
        (Some (colliderUpdate c (currentTimeInSeconds s)
                 timeIntervalInSeconds)) s
  | None => s
  end.

(** [updateEmitter(dt)]. *)
Definition updateEmitter (timeIntervalInSeconds : Q) (s : Solver)
  : Solver :=
  match _emitter s with
  | Some e =>
      let '(e', vel) :=
        emitterUpdate e (currentTimeInSeconds s) timeIntervalInSeconds
                      (_velocity (_grids s)) in
      setEmitter (Some e') (withGrids (withVelocity vel (_grids s)) s)
  | None => s
  end.

(** [onInitialize()]. *)
Definition onInitialize (s : Solver) : Solver :=
  updateEmitter 0 (updateCollider 0 s).

(** [beginAdvanceTimeStep(dt)]; the hook [onBeginAdvanceTimeStep] of
    this class is empty. *)
Definition beginAdvanceTimeStep (timeIntervalInSeconds : Q) (s : Solver)
  : option Solver :=
  let s1 := updateCollider timeIntervalInSeconds s in
  let s2 := updateEmitter timeIntervalInSeconds s1 in
  let s3 :=
    match _boundaryConditionSolver s2 with
    | Some bc =>
        mkSolver (_gravity s2) (_viscosityCoefficient s2) (_maxCfl s2)
          (_useCompressedLinearSys s2) (_closedDomainBoundaryFlag s2)
          (_grids s2) (_collider s2) (_emitter s2) (_advectionSolver s2)
          (_diffusionSolver s2) (_pressureSolver s2)
          (Some (bcUpdateCollider bc (_collider s2)
                   (_resolution (_grids s2)) (_gridSpacing (_grids s2))
                   (_origin (_grids s2))))
          (currentTimeInSeconds s2)
    | None => s2
    end in
  applyBoundaryCondition s3.

(** [endAdvanceTimeStep(dt)]; the hook of this class is empty. *)
Definition endAdvanceTimeStep (timeIntervalInSeconds : Q) (s : Solver)
  : Solver := s.

(** [computeGravity(dt)]. *)
Definition computeGravity (timeIntervalInSeconds : Q) (s : Solver)
  : option Solver :=
  if Qltb kEpsilonD (lengthSquared (_gravity s)) then
    let vel := _velocity (_grids s) in
    let vel :=
      if Qltb kEpsilonD (Qabs (x (_gravity s)))
      then addToU (timeIntervalInSeconds * x (_gravity s)) vel else vel in
    let vel :=
      if Qltb kEpsilonD (Qabs (y (_gravity s)))
      then addToV (timeIntervalInSeconds * y (_gravity s)) vel else vel in
    let vel :=
      if Qltb kEpsilonD (Qabs (z (_gravity s)))
      then addToW (timeIntervalInSeconds * z (_gravity s)) vel else vel in
    applyBoundaryCondition (withGrids (withVelocity vel (_grids s)) s)
  else Some s.

(** [computeExternalForces(dt)]. *)
Definition computeExternalForces (timeIntervalInSeconds : Q) (s : Solver)
  : option Solver :=
  computeGravity timeIntervalInSeconds s.

(** [computeViscosity(dt)]. *)
Definition computeViscosity (timeIntervalInSeconds : Q) (s : Solver)
  : option Solver :=
  match _diffusionSolver s with
  | Some diffusion =>
      if Qltb kEpsilonD (_viscosityCoefficient s) then
        let vel0 := _velocity (_grids s) in
        match colliderSdf s with
        | Some sdf =>
            let vel :=
              diffusionSolve diffusion vel0 (_viscosityCoefficient s)
                timeIntervalInSeconds sdf (fluidSdf s) in
            applyBoundaryCondition
              (withGrids (withVelocity vel (_grids s)) s)
        | None => None
        end
      else Some s
  | None => Some s
  end.

(** [computePressure(dt)]. *)
Definition computePressure (timeIntervalInSeconds : Q) (s : Solver)
  : option Solver :=
  match _pressureSolver s with
  | Some pressure =>
      let vel0 := _velocity (_grids s) in
      match colliderSdf s, colliderVelocityField s with
      | Some sdf, Some colliderVel =>
          let vel :=
            pressureSolve pressure vel0 timeIntervalInSeconds sdf
              colliderVel (fluidSdf s) (_useCompressedLinearSys s) in
          applyBoundaryCondition
            (withGrids (withVelocity vel (_grids s)) s)
      | _, _ => None
      end
  | None => Some s
  end.

(** The depth of the extrapolation into the collider,
    [static_cast<unsigned int>(std::ceil(_maxCfl))]. *)
Definition extrapolationDepth (s : Solver) : option N :=
  toUnsigned (ceil (_maxCfl s)).

(** The body of the loop over the advectable scalar layers. *)
Definition advectScalarLayer (advection : AdvectionSolver3)
    (timeIntervalInSeconds : Q) (i : nat) (s : Solver) : option Solver :=
  match _advectableScalarDataList (_grids s) !! i, colliderSdf s with
  | Some grid0, Some sdf =>
      let grid :=
        advectScalar advection grid0 (_velocity (_grids s))
          timeIntervalInSeconds sdf in
      match extrapolationDepth s with
      | Some depth =>
          let grid := extrapolateScalar sdf depth grid in
          Some (withGrids (withAdvectableScalar i grid (_grids s)) s)
      | None => None
      end
  | _, _ => None
  end.

(** The body of the loop over the advectable vector layers. *)
Definition advectVectorLayer (advection : AdvectionSolver3)
    (timeIntervalInSeconds : Q) (i : nat) (s : Solver) : option Solver :=
  if i =? _velocityIdx (_grids s) then Some s
  else
    match _advectableVectorDataList (_grids s) !! i with
    | None => None
    | Some (Collocated collocated0) =>
        match colliderSdf s with
        | Some sdf =>
            let grid :=
              advectCollocated advection collocated0
                (_velocity (_grids s)) timeIntervalInSeconds sdf in
            match extrapolationDepth s with
            | Some depth =>
                let grid := extrapolateCollocated sdf depth grid in
                Some (withGrids
                        (withAdvectableVector i (Collocated grid) (_grids s))
                        s)
            | None => None
            end
        | None => None
        end
    | Some (FaceCentered faceCentered0) =>
        match colliderSdf s with
        | Some sdf =>
            let grid :=
              advectFaceCentered advection faceCentered0
                (_velocity (_grids s)) timeIntervalInSeconds sdf in
            match extrapolationDepth s with
            | Some depth =>
                let grid := extrapolateFaceCentered sdf depth grid in
                Some (withGrids
                        (withAdvectableVector i (FaceCentered grid)
                           (_grids s))
                        s)
            | None => None
            end
        | None => None
        end
    | Some VelocityLayer => Some s
    | Some OtherVectorGrid => Some s
    end.

(** [computeAdvection(dt)]. *)
Definition computeAdvection (timeIntervalInSeconds : Q) (s : Solver)
  : option Solver :=
  match _advectionSolver s with
  | Some advection =>
      match
        forUpTo (length (_advectableScalarDataList (_grids s)))
          (advectScalarLayer advection timeIntervalInSeconds) s
      with
      | None => None
      | Some s1 =>
      match
        forUpTo (length (_advectableVectorDataList (_grids s1)))
          (advectVectorLayer advection timeIntervalInSeconds) s1
      with
      | None => None
      | Some s2 =>
          let vel0 := _velocity (_grids s2) in
          match colliderSdf s2 with
          | Some sdf =>
              let vel :=
                advectFaceCentered advection vel0 vel0
                  timeIntervalInSeconds sdf in
              applyBoundaryCondition
                (withGrids (withVelocity vel (_grids s2)) s2)
          | None => None
          end
      end end
  | None => Some s
  end.

(** The test that opens [onAdvanceTimeStep]. *)
Definition isEmptyGrid (s : Solver) : bool :=
  (Array3.x (_resolution (_grids s)) =? 0)%nat ||
  (Array3.y (_resolution (_grids s)) =? 0)%nat ||
  (Array3.z (_resolution (_grids s)) =? 0)%nat.

(** [onAdvanceTimeStep(dt)]. *)
Definition onAdvanceTimeStep (timeIntervalInSeconds : Q) (s : Solver)
  : option Solver :=
  if isEmptyGrid s then Some s
  else
    match beginAdvanceTimeStep timeIntervalInSeconds s with
    | None => None
    | Some s1 =>
    match computeExternalForces timeIntervalInSeconds s1 with
    | None => None
    | Some s2 =>
    match computeViscosity timeIntervalInSeconds s2 with
    | None => None
    | Some s3 =>
    match computePressure timeIntervalInSeconds s3 with
    | None => None
    | Some s4 =>
    match computeAdvection timeIntervalInSeconds s4 with
    | None => None
    | Some s5 => Some (endAdvanceTimeStep timeIntervalInSeconds s5)
    end end end end end.

(** *** Vocabulary of the statements *)


(** The boundary-condition solver of [s'] is installed, and its grid
    system has the resolution and the numbers of advectable layers of
    [s]; the maximal CFL number is that of [s]. *)
Definition keepsLayout (s s' : Solver) : Prop :=
  is_Some (_boundaryConditionSolver s') /\
  _resolution (_grids s') = _resolution (_grids s) /\
  length (_advectableScalarDataList (_grids s')) =
    length (_advectableScalarDataList (_grids s)) /\
  length (_advectableVectorDataList (_grids s')) =
    length (_advectableVectorDataList (_grids s)) /\
  _maxCfl s' = _maxCfl s.


(** The conversion of [std::ceil(_maxCfl)] to [unsigned int], which
    gives the depth of every extrapolation, is defined. *)
Definition depthFits (s : Solver) : Prop :=
  is_Some (toUnsigned (ceil (_maxCfl s))).

(** A call that passes a pressure solver passes one whose suggested
    boundary-condition solver is not null. *)
Definition suggestsSolver (call : SetterCall) : Prop :=
  match call with
  | CallSetPressureSolver (Some p) =>
      is_Some (suggestedBoundaryConditionSolver p)
  | _ => True
  end.

(** The three equation solvers of [s'] are those of [s]. *)
Definition sameEquationSolvers (s s' : Solver) : Prop :=
  _advectionSolver s' = _advectionSolver s /\
  _diffusionSolver s' = _diffusionSolver s /\
  _pressureSolver s' = _pressureSolver s.
End Solver.

(** *** Data to exercise the statements *)

(** Collaborators that do nothing: the velocity grid is the function
    giving the velocity at the cell centres. *)
Definition idleCollaborators : Collaborators := {|
  FaceCenteredGrid3 := nat -> nat -> nat -> Vector3D;
  CollocatedVectorGrid3 := unit;
  ScalarGrid3 := unit;
  ScalarField3 := unit;
  VectorField3 := unit;
  Collider3 := unit;
  GridEmitter3 := unit;
  AdvectionSolver3 := unit;
  GridDiffusionSolver3 := unit;
  GridPressureSolver3 := unit;
  GridBoundaryConditionSolver3 := unit;
  valueAtCellCenter := fun vel => vel;
  addToU := fun c vel i j k =>
    mkVector3D (x (vel i j k) + c) (y (vel i j k)) (z (vel i j k));
  addToV := fun c vel i j k =>
    mkVector3D (x (vel i j k)) (y (vel i j k) + c) (z (vel i j k));
  addToW := fun c vel i j k =>
    mkVector3D (x (vel i j k)) (y (vel i j k)) (z (vel i j k) + c);
  constantScalarField := fun _ => tt;
  colliderUpdate := fun c _ _ => c;
  emitterUpdate := fun e _ _ vel => (e, vel);
  bcUpdateCollider := fun bc _ _ _ _ => bc;
  bcConstrainVelocity := fun _ vel _ => vel;
  bcColliderSdf := fun _ => tt;
  bcColliderVelocityField := fun _ => tt;
  bcSetClosedDomainBoundaryFlag := fun bc _ => bc;
  suggestedBoundaryConditionSolver := fun _ => Some tt;
  diffusionSolve := fun _ vel _ _ _ _ => vel;
  pressureSolve := fun _ vel _ _ _ _ _ => vel;
  advectScalar := fun _ g _ _ _ => g;
  advectCollocated := fun _ g _ _ _ => g;
  advectFaceCentered := fun _ g _ _ _ => g;
  extrapolateScalar := fun _ _ g => g;
  extrapolateCollocated := fun _ _ g => g;
  extrapolateFaceCentered := fun _ _ g => g
|}.

(** A solver on a grid of the given resolution with unit spacing, the
    same velocity in every cell, the given gravity, and all three
    equation solvers present. *)
Definition sampleSolver (resolution : Array3.Size3)
    (velocity gravity : Vector3D) : @Solver idleCollaborators :=
  @mkSolver idleCollaborators gravity 0 5 false 63
    (@mkGridSystemData3 idleCollaborators resolution (mkVector3D 1 1 1)
       (mkVector3D 0 0 0) 0 (fun _ _ _ => velocity) [] [@VelocityLayer idleCollaborators])
    None None (Some tt) (Some tt) (Some tt) (Some tt) 0.

End GridFluidSolver3.


(** * Facts shared by the components *)

Section LoopFacts.
Context {St : Type}.

(** Invariant rule of the fallible [for] loop: it also gives that the
    loop does not fail. *)
Lemma forLoop_inv (P : nat -> St -> Prop) (body : nat -> St -> option St) :
  forall count lo s,
    P lo s ->
    (forall k t, lo <= k < lo + count -> P k t ->
                 exists t', body k t = Some t' /\ P (S k) t') ->
    exists s', forLoop body lo count s = Some s' /\ P (lo + count) s'.
Proof.
  induction count as [|c IH]; intros lo s H0 Hstep; simpl.
  - exists s. rewrite Nat.add_0_r. auto.
  - destruct (Hstep lo s) as (t' & Hb & Ht'); [lia | assumption |].
    rewrite Hb.
    destruct (IH (S lo) t' Ht') as (s' & Hs' & HP).
    + intros k t Hk HPk. apply Hstep; [lia | assumption].
    + exists s'. split; [assumption|].
      replace (lo + S c) with (S lo + c) by lia. assumption.
Qed.

Lemma forUpTo_inv (P : nat -> St -> Prop) (body : nat -> St -> option St) n s :
  P 0 s ->
  (forall k t, k < n -> P k t ->
               exists t', body k t = Some t' /\ P (S k) t') ->
  exists s', forUpTo n body s = Some s' /\ P n s'.
Proof.
  intros H0 Hstep. unfold forUpTo.
  destruct (forLoop_inv P body n 0 s H0) as (s' & Hs & HP).
  - intros k t Hk. apply Hstep. lia.
  - exists s'. auto.
Qed.

Lemma forLoopT_inv (P : nat -> St -> Prop) (body : nat -> St -> St) :
  forall count lo s,
    P lo s ->
    (forall k t, lo <= k < lo + count -> P k t -> P (S k) (body k t)) ->
    P (lo + count) (forLoopT body lo count s).
Proof.
  induction count as [|c IH]; intros lo s H0 Hstep; simpl.
  - rewrite Nat.add_0_r. assumption.
  - replace (lo + S c) with (S lo + c) by lia.
    apply IH.
    + apply Hstep; [lia | assumption].
    + intros k t Hk. apply Hstep. lia.
Qed.

Lemma forUpToT_inv (P : nat -> St -> Prop) (body : nat -> St -> St) n s :
  P 0 s ->
  (forall k t, k < n -> P k t -> P (S k) (body k t)) ->
  P n (forUpToT n body s).
Proof.
  intros H0 Hstep. unfold forUpToT.
  apply (forLoopT_inv P body n 0 s H0).
  intros k t Hk. apply Hstep. lia.
Qed.
End LoopFacts.

(** Row-major addressing is injective on in-range coordinates. *)
Lemma linear_index_inj (w a b a' b' : nat) :
  a < w -> a' < w -> a + w * b = a' + w * b' -> a = a' /\ b = b'.
Proof.
  intros Ha Ha' E.
  destruct (Nat.lt_trichotomy b b') as [Hlt | [Heq | Hgt]]; nia.
Qed.

Section NumberOrderFacts.
Local Open Scope Q_scope.

Lemma Qltb_lt (a b : Q) : Qltb a b = true <-> a < b.
Proof.
  unfold Qltb. rewrite negb_true_iff, <- not_true_iff_false, Qle_bool_iff.
  split; [apply Qnot_le_lt | apply Qlt_not_le].
Qed.

Lemma Qltb_ge (a b : Q) : Qltb a b = false <-> b <= a.
Proof.
  unfold Qltb. rewrite negb_false_iff, Qle_bool_iff. reflexivity.
Qed.

Lemma std_max_ge_r (a b : Q) : b <= std_max a b.
Proof.
  unfold std_max. destruct (Qltb a b) eqn:E; [lra|].
  by apply Qltb_ge in E.
Qed.

Lemma std_max_ge_l (a b : Q) : a <= std_max a b.
Proof.
  unfold std_max. destruct (Qltb a b) eqn:E; [|lra].
  apply Qltb_lt in E. lra.
Qed.

(** [std::max(m, c)] returns its first argument when [c <= m]. *)
Lemma std_max_keeps (m c : Q) : c <= m -> std_max m c = m.
Proof.
  intros Hle. unfold std_max.
  replace (Qltb m c) with false by (symmetry; by apply Qltb_ge).
  reflexivity.
Qed.
End NumberOrderFacts.

(** * The dense 3-D array *)

Section Array3Facts.
Import Array3.
Context {T : Type}.
Implicit Types (a g : Array T) (sz : Size3).

Lemma inBounds_true sz i j k :
  inBounds sz i j k = true <-> i < x sz /\ j < y sz /\ k < z sz.
Proof.
  unfold inBounds. rewrite !andb_true_iff, !Nat.ltb_lt. tauto.
Qed.

Lemma linearIndex_lt sz i j k :
  i < x sz -> j < y sz -> k < z sz ->
  linearIndex sz i j k < x sz * y sz * z sz.
Proof.
  unfold linearIndex. intros Hi Hj Hk.
  assert (H1 : j + y sz * k + 1 <= y sz * z sz) by nia.
  assert (H2 : x sz * (j + y sz * k + 1) <= x sz * (y sz * z sz))
    by (apply Nat.mul_le_mono_l; exact H1).
  lia.
Qed.

Lemma linearIndex_inj sz i j k i' j' k' :
  i < x sz -> j < y sz -> i' < x sz -> j' < y sz ->
  linearIndex sz i j k = linearIndex sz i' j' k' ->
  i = i' /\ j = j' /\ k = k'.
Proof.
  unfold linearIndex. intros Hi Hj Hi' Hj' E.
  apply linear_index_inj in E as [-> E]; try assumption.
  apply linear_index_inj in E as [-> ->]; auto.
Qed.

(** A product of extents that fits [size_t] is computed exactly. *)
Lemma elementCount_fits sz :
  fitsSizeT sz -> elementCount sz = x sz * y sz * z sz.
Proof.
  unfold fitsSizeT, elementCount. intros Hfit.
  rewrite N.mod_small by exact Hfit.
  by rewrite <- !Nat2N.inj_mul, Nat2N.id.
Qed.

(** Reading a well-formed array inside its extent succeeds. *)
Lemma at_is_Some a i j k :
  wellFormed a -> i < x (_size a) -> j < y (_size a) -> k < z (_size a) ->
  is_Some (at_ a i j k).
Proof.
  intros Hwf Hi Hj Hk. unfold at_.
  replace (inBounds (_size a) i j k) with true
    by (symmetry; apply inBounds_true; auto).
  apply lookup_lt_is_Some. rewrite (proj1 Hwf). by apply linearIndex_lt.
Qed.

(** A write inside the extent succeeds, keeps the extent and the
    invariant, and changes the one element written. *)
Lemma assign_spec g i j k v :
  wellFormed g -> i < x (_size g) -> j < y (_size g) -> k < z (_size g) ->
  exists g', assign g i j k v = Some g' /\ _size g' = _size g /\
    wellFormed g' /\
    at_ g' i j k = Some v /\
    forall i' j' k', (i', j', k') <> (i, j, k) ->
                     at_ g' i' j' k' = at_ g i' j' k'.
Proof.
  intros Hwf Hi Hj Hk. unfold assign.
  replace (inBounds (_size g) i j k) with true
    by (symmetry; apply inBounds_true; auto).
  assert (Hlt : linearIndex (_size g) i j k < length (_data g))
    by (rewrite (proj1 Hwf); by apply linearIndex_lt).
  apply Nat.ltb_lt in Hlt as Hb. rewrite Hb.
  eexists. split; [reflexivity|]. simpl. split; [reflexivity|].
  split; [|split].
  - unfold wellFormed. simpl. rewrite length_insert. exact Hwf.
  - unfold at_. simpl.
    replace (inBounds (_size g) i j k) with true
      by (symmetry; apply inBounds_true; auto).
    by apply list_lookup_insert_eq.
  - intros i' j' k' Hne. unfold at_. simpl.
    destruct (inBounds (_size g) i' j' k') eqn:Hin; [|reflexivity].
    apply inBounds_true in Hin as (Hi' & Hj' & Hk').
    apply list_lookup_insert_ne. intros E.
    apply linearIndex_inj in E as (-> & -> & ->); auto.
Qed.

(** What [resize] builds: the new extent, with the old values on the
    overlap and the fill value elsewhere. *)
Lemma resize_spec a sz (initVal : T) :
  wellFormed a -> fitsSizeT sz ->
  exists g, resize a sz initVal = Some g /\ _size g = sz /\ wellFormed g /\
    forall i j k, i < x sz -> j < y sz -> k < z sz ->
      at_ g i j k =
        if (i <? x (_size a)) && (j <? y (_size a)) && (k <? z (_size a))
        then at_ a i j k else Some initVal.
Proof.
  intros Hwf Hfit. unfold resize. rewrite (elementCount_fits sz Hfit).
  remember (Nat.min (x sz) (x (_size a))) as iMin eqn:EiMin.
  remember (Nat.min (y sz) (y (_size a))) as jMin eqn:EjMin.
  remember (Nat.min (z sz) (z (_size a))) as kMin eqn:EkMin.
  set (g0 := mkArray sz (replicate (x sz * y sz * z sz) initVal)).
  (* [copied k0 j0 i0 i j k]: (i, j, k) was visited before the loops
     reached (i0, j0, k0). *)
  pose (copied := fun k0 j0 i0 i j k =>
    i < iMin /\ j < jMin /\
    (k < k0 \/ (k = k0 /\ k0 < kMin /\ (j < j0 \/ (j = j0 /\ i < i0))))).
  pose (Inv := fun k0 j0 i0 (g : Array T) =>
    _size g = sz /\ wellFormed g /\
    forall i j k, i < x sz -> j < y sz -> k < z sz ->
      (copied k0 j0 i0 i j k -> at_ g i j k = at_ a i j k) /\
      (~ copied k0 j0 i0 i j k -> at_ g i j k = Some initVal)).
  assert (Hg0 : Inv 0 0 0 g0).
  { unfold Inv, g0. split; [reflexivity|]. split.
    - unfold wellFormed. simpl. by rewrite length_replicate.
    - intros i j k Hi Hj Hk. split.
      + unfold copied. intros. lia.
      + intros _. unfold at_. simpl.
        replace (inBounds sz i j k) with true
          by (symmetry; apply inBounds_true; auto).
        apply lookup_replicate_2. by apply linearIndex_lt. }
  assert (Hext : forall k0 j0 i0 k1 j1 i1 g,
    (forall i j k, copied k0 j0 i0 i j k <-> copied k1 j1 i1 i j k) ->
    Inv k0 j0 i0 g -> Inv k1 j1 i1 g).
  { intros k0 j0 i0 k1 j1 i1 g Heq (Hs & Hw & Hv).
    split; [assumption|]. split; [assumption|].
    intros i j k Hi Hj Hk. destruct (Hv i j k Hi Hj Hk) as [Hc Hn].
    split; intros Hx; [apply Hc | apply Hn]; rewrite Heq; assumption. }
  destruct (forUpTo_inv (fun k0 g => Inv k0 0 0 g)
    (fun k => forUpTo jMin (fun j => forUpTo iMin (fun i grid =>
       match at_ a i j k with
       | Some v => assign grid i j k v
       | None => None
       end))) kMin g0 Hg0) as (g & Hrun & Hfin).
  { intros k0 g1 Hk0 Hinv1.
    destruct (forUpTo_inv (fun j0 g => Inv k0 j0 0 g)
      (fun j => forUpTo iMin (fun i grid =>
         match at_ a i j k0 with
         | Some v => assign grid i j k0 v
         | None => None
         end)) jMin g1 Hinv1) as (g2 & Hrun2 & Hfin2).
    { intros j0 g3 Hj0 Hinv3.
      destruct (forUpTo_inv (fun i0 g => Inv k0 j0 i0 g)
        (fun i grid =>
           match at_ a i j0 k0 with
           | Some v => assign grid i j0 k0 v
           | None => None
           end) iMin g3 Hinv3) as (g4 & Hrun4 & Hfin4).
      { intros i0 g5 Hi0 (Hs5 & Hw5 & Hv5).
        destruct (at_is_Some a i0 j0 k0 Hwf) as [v Hv]; [lia..|].
        rewrite Hv.
        destruct (assign_spec g5 i0 j0 k0 v Hw5)
          as (g6 & Has & Hs6 & Hw6 & Hget & Hother);
          [rewrite Hs5; lia..|].
        exists g6. split; [assumption|].
        split; [congruence|]. split; [assumption|].
        intros i j k Hi Hj Hk.
        destruct (decide ((i, j, k) = (i0, j0, k0))) as [E | NE].
        - injection E as -> -> ->. split.
          + intros _. congruence.
          + intros Hn. exfalso. apply Hn. unfold copied. lia.
        - rewrite (Hother i j k NE).
          destruct (Hv5 i j k Hi Hj Hk) as [Hc Hn]. split.
          + intros Hcop. apply Hc. unfold copied in *.
            assert (~ (i = i0 /\ j = j0 /\ k = k0)) by (intros (-> & -> & ->); auto).
            lia.
          + intros Hcop. apply Hn. unfold copied in *. lia. }
      exists g4. split; [assumption|].
      eapply Hext; [|exact Hfin4].
      intros i j k. unfold copied. lia. }
    exists g2. split; [assumption|].
    eapply Hext; [|exact Hfin2].
    intros i j k. unfold copied. lia. }
  exists g. split; [assumption|].
  destruct Hfin as (Hs & Hw & Hv). split; [assumption|]. split; [assumption|].
  intros i j k Hi Hj Hk. destruct (Hv i j k Hi Hj Hk) as [Hc Hn].
  destruct ((i <? x (_size a)) && (j <? y (_size a)) && (k <? z (_size a)))
    eqn:Hin.
  - apply Hc. apply inBounds_true in Hin. unfold copied. lia.
  - apply Hn. unfold copied. intros Hcop.
    assert (inBounds (_size a) i j k = true) by (apply inBounds_true; lia).
    unfold inBounds in *. congruence.
Qed.


End Array3Facts.



(** Outside the overlap the second resize shows its fill value: the
    round trip is not the identity on the whole array. *)
Example resize_there_and_back_sample :
  (Array3.resize Array3.sample (Array3.mkSize3 3 1 2) 0
     ≫= fun b => Array3.resize b (Array3.mkSize3 2 2 1) 7)
  = Some (Array3.mkArray (Array3.mkSize3 2 2 1) [10; 11; 7; 7]).
Proof. reflexivity. Qed.


(** ** Addressing, construction and assignment of the array *)

Section Array3Properties.
Import Array3.
Context {T : Type}.
Implicit Types (a g : Array T) (sz : Size3).

(** Every linear index below the element count is the address of an
    index triple inside the extent. *)
Lemma linearIndex_surj sz n :
  n < x sz * y sz * z sz ->
  exists i j k, i < x sz /\ j < y sz /\ k < z sz /\ linearIndex sz i j k = n.
Proof.
  intros Hn.
  assert (Hx : x sz <> 0) by (intros E; rewrite E in Hn; simpl in Hn; lia).
  assert (Hy : y sz <> 0) by (intros E; rewrite E in Hn; lia).
  exists (n mod x sz), ((n / x sz) mod y sz), (n / x sz / y sz).
  split; [by apply Nat.mod_upper_bound|].
  split; [by apply Nat.mod_upper_bound|].
  split.
  - apply Nat.Div0.div_lt_upper_bound.
    apply Nat.Div0.div_lt_upper_bound. lia.
  - unfold linearIndex.
    rewrite (Nat.add_comm (n / x sz mod y sz)), <- Nat.div_mod_eq.
    rewrite Nat.add_comm, <- Nat.div_mod_eq. reflexivity.
Qed.

(** Two arrays of the same extent that read the same at every index
    inside it have the same storage. *)
Lemma array_ext a g :
  wellFormed a -> wellFormed g -> _size a = _size g ->
  (forall i j k, i < x (_size a) -> j < y (_size a) -> k < z (_size a) ->
                 at_ a i j k = at_ g i j k) ->
  a = g.
Proof.
  destruct a as [sa da], g as [sg dg]. unfold wellFormed, at_. simpl.
  intros [Hwa _] [Hwg _] <- Hat. f_equal. apply list_eq. intros n.
  destruct (decide (n < x sa * y sa * z sa)) as [Hn | Hn].
  - destruct (linearIndex_surj sa n Hn) as (i & j & k & Hi & Hj & Hk & <-).
    specialize (Hat i j k Hi Hj Hk).
    replace (inBounds sa i j k) with true in Hat
      by (symmetry; apply inBounds_true; auto).
    exact Hat.
  - rewrite !lookup_ge_None_2 by lia. reflexivity.
Qed.


(** X11. Resizing an array with one element per index to the extent it
    already has gives back the same array, whatever the fill value. *)
Theorem resize_to_same_extent_is_identity a (initVal : T) :
  wellFormed a -> resize a (_size a) initVal = Some a.
Proof.
  intros Hwf.
  destruct (resize_spec a (_size a) initVal Hwf (proj2 Hwf))
    as (g & -> & Hs & Hw & Hv).
  f_equal. symmetry. apply array_ext; [assumption | assumption | by rewrite Hs |].
  intros i j k Hi Hj Hk. rewrite (Hv i j k Hi Hj Hk).
  replace ((i <? x (_size a)) && (j <? y (_size a)) && (k <? z (_size a)))
    with true
    by (symmetry; rewrite !andb_true_iff, !Nat.ltb_lt; lia).
  reflexivity.
Qed.


(** X13. [set(lst)] of a non-empty nested list whose pages all have the
    height of the first page and whose rows all have the width of its
    first row, and whose number of elements fits [size_t], succeeds; the
    array gets the extent (width, height, depth)
    of the list and reads element [i] of row [j] of page [k] at
    (i, j, k). *)
Theorem setList_round_trip a (initVal : T) (lst : list (list (list T)))
    (width height : nat) :
  wellFormed a ->
  lst <> [] ->
  height = match lst with [] => 0 | page0 :: _ => length page0 end ->
  width = match lst with
          | (row0 :: _) :: _ => length row0
          | _ => 0
          end ->
  Forall (fun page =>
            length page = height /\
            Forall (fun row => length row = width) page) lst ->
  fitsSizeT (mkSize3 width height (length lst)) ->
  exists g, setList a initVal lst = Some g /\
    _size g = mkSize3 width height (length lst) /\
    wellFormed g /\
    forall k page j row i v,
      lst !! k = Some page -> page !! j = Some row -> row !! i = Some v ->
      at_ g i j k = Some v.
Proof.
  intros Hwf Hne Hheight Hwidth Hrect Hfit.
  destruct lst as [|page0 rest]; [congruence|].
  unfold setList. cbv beta iota zeta.
  cbv beta iota in Hheight, Hwidth.
  assert (Hwidth' : width = match page0 with
                            | [] => 0
                            | row0 :: _ => length row0
                            end) by (destruct page0; exact Hwidth).
  rewrite <- Hheight, <- Hwidth'.
  remember (page0 :: rest) as lst eqn:Hlst.
  clear Hlst Hheight Hwidth Hwidth' Hne page0 rest.
  set (sz := mkSize3 width height (length lst)) in *.
  destruct (resize_spec a sz initVal Hwf Hfit) as (a0 & Ha0 & Hs0 & Hw0 & _).
  fold sz. rewrite Ha0.
  pose (written := fun k0 j0 i0 i j k =>
    i < width /\ j < height /\
    (k < k0 \/ (k = k0 /\ (j < j0 \/ (j = j0 /\ i < i0))))).
  pose (Inv := fun k0 j0 i0 (g : Array T) =>
    _size g = sz /\ wellFormed g /\
    forall k page j row i v,
      lst !! k = Some page -> page !! j = Some row -> row !! i = Some v ->
      written k0 j0 i0 i j k -> at_ g i j k = Some v).
  assert (Hext : forall k0 j0 i0 k1 j1 i1 g,
    (forall i j k, written k1 j1 i1 i j k -> written k0 j0 i0 i j k) ->
    Inv k0 j0 i0 g -> Inv k1 j1 i1 g).
  { intros k0 j0 i0 k1 j1 i1 g Himp (Hs & Hw & Hv).
    split; [assumption|]. split; [assumption|].
    intros k page j row i v Hp Hr Hi Hwr.
    apply (Hv k page j row i v Hp Hr Hi). by apply Himp. }
  assert (Hpage : forall k page, lst !! k = Some page ->
            length page = height /\
            forall j row, page !! j = Some row -> length row = width).
  { intros k page Hp. rewrite Forall_forall in Hrect.
    destruct (Hrect page) as [Hh Hrows];
      [by apply list_elem_of_In, list_elem_of_lookup_2 with k|].
    split; [exact Hh|]. intros j row Hr.
    rewrite Forall_forall in Hrows. apply Hrows.
    by apply list_elem_of_In, list_elem_of_lookup_2 with j. }
  destruct (forUpTo_inv (fun k0 g => Inv k0 0 0 g)
    (fun k a1 =>
       match lst !! k with
       | None => None
       | Some page =>
           if negb (height =? length page) then None
           else forUpTo height (fun j a2 =>
                  match page !! j with
                  | None => None
                  | Some row =>
                      if negb (width =? length row) then None
                      else forUpTo width (fun i a3 =>
                             match row !! i with
                             | None => None
                             | Some v => assign a3 i j k v
                             end) a2
                  end) a1
       end) (length lst) a0) as (g & Hrun & Hfin).
  { split; [assumption|]. split; [assumption|].
    intros k page j row i v _ _ _ Hwr. unfold written in Hwr. lia. }
  { intros k0 g1 Hk0 Hinv1.
    destruct (lookup_lt_is_Some_2 lst k0 Hk0) as [page Hp]. rewrite Hp.
    destruct (Hpage k0 page Hp) as [Hh Hrows].
    rewrite Hh, Nat.eqb_refl. cbn [negb].
    destruct (forUpTo_inv (fun j0 g => Inv k0 j0 0 g)
      (fun j a2 =>
         match page !! j with
         | None => None
         | Some row =>
             if negb (width =? length row) then None
             else forUpTo width (fun i a3 =>
                    match row !! i with
                    | None => None
                    | Some v => assign a3 i j k0 v
                    end) a2
         end) height g1 Hinv1) as (g2 & Hrun2 & Hfin2).
    { intros j0 g3 Hj0 Hinv3.
      destruct (lookup_lt_is_Some_2 page j0) as [row Hr]; [lia|].
      rewrite Hr. rewrite (Hrows j0 row Hr), Nat.eqb_refl. cbn [negb].
      destruct (forUpTo_inv (fun i0 g => Inv k0 j0 i0 g)
        (fun i a3 =>
           match row !! i with
           | None => None
           | Some v => assign a3 i j0 k0 v
           end) width g3 Hinv3) as (g4 & Hrun4 & Hfin4).
      { intros i0 g5 Hi0 (Hs5 & Hw5 & Hv5).
        destruct (lookup_lt_is_Some_2 row i0) as [v0 Hv0];
          [rewrite (Hrows j0 row Hr); lia|].
        rewrite Hv0.
        destruct (assign_spec g5 i0 j0 k0 v0 Hw5)
          as (g6 & Has & Hs6 & Hw6 & Hget & Hother);
          [rewrite Hs5; simpl; lia..|].
        exists g6. split; [assumption|].
        split; [congruence|]. split; [assumption|].
        intros k page' j row' i v Hp' Hr' Hi' Hwr.
        destruct (decide ((i, j, k) = (i0, j0, k0))) as [E | NE].
        - injection E as -> -> ->.
          rewrite Hp in Hp'. injection Hp' as <-.
          rewrite Hr in Hr'. injection Hr' as <-.
          rewrite Hv0 in Hi'. injection Hi' as <-. exact Hget.
        - rewrite (Hother i j k NE).
          apply (Hv5 k page' j row' i v Hp' Hr' Hi').
          unfold written in *.
          assert (~ (i = i0 /\ j = j0 /\ k = k0))
            by (intros (-> & -> & ->); auto).
          lia. }
      exists g4. split; [assumption|].
      eapply Hext; [|exact Hfin4].
      intros i j k. unfold written. lia. }
    exists g2. split; [assumption|].
    eapply Hext; [|exact Hfin2].
    intros i j k. unfold written. lia. }
  exists g. split; [exact Hrun|].
  destruct Hfin as (Hs & Hw & Hv). split; [exact Hs|]. split; [exact Hw|].
  intros k page j row i v Hp Hr Hi.
  apply (Hv k page j row i v Hp Hr Hi).
  destruct (Hpage k page Hp) as [Hh Hrows].
  apply lookup_lt_Some in Hp. apply lookup_lt_Some in Hr as Hr'.
  apply lookup_lt_Some in Hi. rewrite (Hrows j row Hr) in Hi.
  unfold written. lia.
Qed.
End Array3Properties.


Lemma resize_to_same_extent_is_identity_witness :
  Array3.wellFormed Array3.sample /\
  Array3.resize Array3.sample (Array3._size Array3.sample) 7 =
    Some Array3.sample.
Proof.
  split; [split; reflexivity|].
  apply (resize_to_same_extent_is_identity Array3.sample 7). split; reflexivity.
Defined.

Lemma setList_round_trip_witness :
  exists g,
    Array3.setList Array3.sample 0 [[[1; 2; 3]; [4; 5; 6]]] = Some g /\
    Array3._size g = Array3.mkSize3 3 2 1 /\
    Array3.at_ g 2 1 0 = Some 6.
Proof.
  destruct (setList_round_trip Array3.sample 0 [[[1; 2; 3]; [4; 5; 6]]] 3 2)
    as (g & Hg & Hs & _ & Hv).
  - split; reflexivity.
  - discriminate.
  - reflexivity.
  - reflexivity.
  - repeat constructor.
  - reflexivity.
  - exists g. split; [exact Hg|]. split; [exact Hs|].
    exact (Hv 0 [[1; 2; 3]; [4; 5; 6]] 1 [4; 5; 6] 2 6
              eq_refl eq_refl eq_refl).
Defined.

(** * The CSR matrix *)

Section MatrixCsrFacts.
Import MatrixCsr.
Context {T : Type} `{Scalar T}.
Implicit Types (m : Matrix T).

(** [lower_bound] stays inside the slice and, unless it returns the end
    of the slice, stops at an element that is not less than the value.
    This needs no order on the slice. *)
Lemma lowerBoundLoop_spec (columnIndices : list N) (value last : N) :
  forall fuel first count,
    (N.to_nat count <= fuel)%nat ->
    (first + count <= last)%N ->
    (N.to_nat last <= length columnIndices)%nat ->
    ((first + count)%N = last \/
     exists c, columnIndices !! N.to_nat (first + count) = Some c /\
               (value <= c)%N) ->
    exists p, lowerBoundLoop fuel columnIndices value first count = Some p /\
      (first <= p <= last)%N /\
      (p = last \/
       exists c, columnIndices !! N.to_nat p = Some c /\ (value <= c)%N).
Proof.
  induction fuel as [|fuel IH]; intros first count Hfuel Hle Hlen Hhi; simpl.
  - assert (count = 0%N) by lia. subst count.
    rewrite N.add_0_r in Hhi. exists first. split; [reflexivity|].
    split; [lia | exact Hhi].
  - destruct (N.eqb_spec count 0) as [-> | Hnz].
    + rewrite N.add_0_r in Hhi. exists first. split; [reflexivity|].
      split; [lia | exact Hhi].
    + assert (Hstep : (count / 2 < count)%N)
        by (apply N.div_lt; lia).
      set (step := (count / 2)%N) in *. clearbody step.
      destruct (lookup_lt_is_Some_2 columnIndices
                  (N.to_nat (first + step))) as [c Hc]; [lia|].
      rewrite Hc.
      destruct (N.ltb_spec c value) as [Hlt | Hge].
      * destruct (IH (first + step + 1)%N
                     (count - (step + 1))%N) as (p & Hp & Hr & Hq);
          [lia | lia | assumption | | ].
        -- replace (first + step + 1 + (count - (step + 1)))%N
             with (first + count)%N by lia.
           exact Hhi.
        -- exists p. split; [assumption|]. split; [lia | assumption].
      * destruct (IH first step) as (p & Hp & Hr & Hq);
          [lia | lia | assumption | | ].
        -- right. exists c. split; [assumption | lia].
        -- exists p. split; [assumption|]. split; [lia | assumption].
Qed.

Lemma lower_bound_spec (columnIndices : list N) (first last value : N) :
  (first <= last)%N ->
  (N.to_nat last <= length columnIndices)%nat ->
  exists p, lower_bound columnIndices first last value = Some p /\
    (first <= p <= last)%N /\
    (p = last \/
     exists c, columnIndices !! N.to_nat p = Some c /\ (value <= c)%N).
Proof.
  intros Hle Hlen. unfold lower_bound.
  apply lowerBoundLoop_spec; [lia | lia | assumption |].
  left. lia.
Qed.

(** [binaryFind] never reads outside the slice, and a position other
    than the end of the slice holds the value looked for. *)
Lemma binaryFind_spec (columnIndices : list N) (first last value : N) :
  (first <= last)%N ->
  (N.to_nat last <= length columnIndices)%nat ->
  exists p, binaryFind columnIndices first last value = Some p /\
    (p = last \/
     ((first <= p < last)%N /\ columnIndices !! N.to_nat p = Some value)).
Proof.
  intros Hle Hlen. unfold binaryFind.
  destruct (lower_bound_spec columnIndices first last value Hle Hlen)
    as (p & -> & Hr & Hq).
  destruct (N.eqb_spec p last) as [-> | Hne].
  - exists last. split; [reflexivity | left; reflexivity].
  - destruct Hq as [-> | (c & Hc & Hvc)]; [congruence|].
    rewrite Hc. destruct (N.ltb_spec value c) as [Hlt | Hge].
    + exists last. split; [reflexivity | left; reflexivity].
    + exists p. split; [reflexivity|]. right.
      split; [lia|]. assert (c = value) by lia. congruence.
Qed.

(** [hasElement] on a well-formed matrix: the sentinel, or the position
    of a stored element of row [i] and column [j]. *)
Lemma hasElement_spec m (i j : N) :
  wellFormed m ->
  exists r, hasElement m i j = Some r /\
    (r = kMaxSize \/
     ((N.to_nat r < length (_nonZeros m))%nat /\ stored m i j)).
Proof.
  intros (Hlen & Hrows). unfold hasElement.
  destruct (N.leb_spec (x (_size m)) i) as [Hi | Hi]; simpl.
  { exists kMaxSize. auto. }
  destruct (N.leb_spec (y (_size m)) j) as [Hj | Hj]; simpl.
  { exists kMaxSize. auto. }
  destruct (Hrows i Hi) as (rowBegin & rowEnd & Hb & He & Hbe & Hend).
  rewrite Hb, He.
  destruct (binaryFind_spec (_columnIndices m) rowBegin rowEnd j Hbe Hend)
    as (p & -> & Hp).
  destruct (N.eqb_spec p rowEnd) as [-> | Hne]; simpl.
  { exists kMaxSize. auto. }
  destruct Hp as [-> | (Hr & Hcol)]; [congruence|].
  exists p. split; [reflexivity|]. right. split; [lia|].
  split; [assumption|]. split; [assumption|].
  exists rowBegin, rowEnd, p. auto.
Qed.

(** A cleared matrix, and so a default-constructed one, satisfies the
    invariant: it has no row. *)
Lemma clear_wellFormed m : wellFormed (clear m).
Proof.
  split; [reflexivity|]. intros i Hi. cbn in Hi. lia.
Qed.

(** X25. On every CSR matrix that satisfies the representation
    invariant, and for every index pair (i, j), in range or not, the
    element read returns a value without reading any vector out of
    bounds; for a row or column index out of range [hasElement] returns
    the sentinel [kMaxSize], and whenever no non-zero is stored at
    (i, j) [hasElement] returns the sentinel and the read returns 0. *)
Theorem element_read_is_total m (i j : N) :
  wellFormed m ->
  exists v, get m i j = Some v /\
    ((x (_size m) <= i)%N \/ (y (_size m) <= j)%N ->
       hasElement m i j = Some kMaxSize) /\
    (~ stored m i j -> hasElement m i j = Some kMaxSize /\ v = zero).
Proof.
  intros Hwf. unfold get.
  destruct (hasElement_spec m i j Hwf) as (r & Hr & Hcase).
  rewrite Hr.
  assert (Hout : (x (_size m) <= i)%N \/ (y (_size m) <= j)%N ->
                 Some r = Some kMaxSize).
  { intros Ho. rewrite <- Hr. unfold hasElement.
    destruct Ho as [Ho | Ho].
    - apply N.leb_le in Ho. rewrite Ho. reflexivity.
    - apply N.leb_le in Ho. rewrite Ho. rewrite orb_true_r. reflexivity. }
  destruct (N.eqb_spec r kMaxSize) as [-> | Hne].
  - exists zero. split; [reflexivity|]. split; [assumption|]. auto.
  - destruct Hcase as [-> | (Hlt & Hst)]; [congruence|].
    destruct (lookup_lt_is_Some_2 (_nonZeros m) (N.to_nat r) Hlt) as [v Hv].
    exists v. split; [assumption|]. split; [assumption|].
    intros Hns. contradiction.
Qed.
End MatrixCsrFacts.
Section CompressFacts.
Import MatrixCsr.
Context {T : Type} `{Scalar T}.
Variables (other : MatrixExpression T) (epsilon : T).

Lemma rowEntries_S i n :
  rowEntries other epsilon i (S n) =
  rowEntries other epsilon i n ++
    (if keeps other epsilon i n then [(i, n)] else []).
Proof.
  unfold rowEntries. rewrite seq_S, List.filter_app, map_app. simpl.
  destruct (keeps other epsilon i n); reflexivity.
Qed.

Lemma allEntries_S n :
  allEntries other epsilon (S n) =
  allEntries other epsilon n ++
    rowEntries other epsilon n (N.to_nat (cols other)).
Proof.
  unfold allEntries. rewrite seq_S, flat_map_app. simpl.
  by rewrite app_nil_r.
Qed.

(** The inner loop of [compress] appends the kept entries of the row. *)
Lemma compress_columns_spec i n (m : Matrix T) :
  forUpToT n (compressColumn other epsilon i) m =
  mkMatrix (_size m)
    (_nonZeros m ++ map (entryValue other) (rowEntries other epsilon i n))
    (_rowPointers m)
    (_columnIndices m ++ map entryColumn (rowEntries other epsilon i n)).
Proof.
  apply (forUpToT_inv (fun k m' =>
    m' = mkMatrix (_size m)
      (_nonZeros m ++ map (entryValue other) (rowEntries other epsilon i k))
      (_rowPointers m)
      (_columnIndices m ++ map entryColumn (rowEntries other epsilon i k)))).
  - unfold rowEntries. simpl. rewrite !app_nil_r. by destruct m.
  - intros k m' _ ->. unfold compressColumn. rewrite rowEntries_S.
    fold (keeps other epsilon i k).
    destruct (keeps other epsilon i k); simpl.
    + unfold pushNonZero. simpl. rewrite !map_app, !app_assoc. reflexivity.
    + rewrite !app_nil_r. reflexivity.
Qed.

(** What [compress] leaves in the four members. *)
Lemma compress_spec (m : Matrix T) :
  compress m other epsilon =
  mkMatrix (mkSize2 (rows other) (cols other))
    (map (entryValue other) (allEntries other epsilon (N.to_nat (rows other))))
    (_rowPointers m ++
       map (rowOffset other epsilon) (seq 0 (S (N.to_nat (rows other)))))
    (map entryColumn (allEntries other epsilon (N.to_nat (rows other)))).
Proof.
  unfold compress.
  set (sz := mkSize2 (rows other) (cols other)).
  assert (Hloop : forUpToT (N.to_nat (rows other)) (fun i m0 =>
      forUpToT (N.to_nat (cols other)) (compressColumn other epsilon i)
               (pushRowPointer m0))
      (mkMatrix sz [] (_rowPointers m) []) =
    mkMatrix sz
      (map (entryValue other) (allEntries other epsilon (N.to_nat (rows other))))
      (_rowPointers m ++
         map (rowOffset other epsilon) (seq 0 (N.to_nat (rows other))))
      (map entryColumn (allEntries other epsilon (N.to_nat (rows other))))).
  { apply (forUpToT_inv (fun k m' =>
      m' = mkMatrix sz
        (map (entryValue other) (allEntries other epsilon k))
        (_rowPointers m ++ map (rowOffset other epsilon) (seq 0 k))
        (map entryColumn (allEntries other epsilon k)))).
    - simpl. by rewrite app_nil_r.
    - intros k m' _ ->. rewrite compress_columns_spec.
      unfold pushRowPointer.
      cbn [_size _nonZeros _rowPointers _columnIndices].
      rewrite allEntries_S, !map_app, seq_S, map_app.
      cbn [map Nat.add]. unfold rowOffset at 2.
      rewrite length_map, <- app_assoc. reflexivity. }
  rewrite Hloop. unfold pushRowPointer.
  cbn [_size _nonZeros _rowPointers _columnIndices].
  rewrite length_map, (seq_S (N.to_nat (rows other)) 0), map_app.
  cbn [map Nat.add]. rewrite <- app_assoc. reflexivity.
Qed.

Lemma allEntries_length_mono i n :
  i <= n -> length (allEntries other epsilon i) <= length (allEntries other epsilon n).
Proof.
  induction 1 as [|n Hle IH]; [lia|].
  rewrite allEntries_S, length_app. lia.
Qed.

Lemma rowOffset_S i :
  rowOffset other epsilon (S i) =
  (rowOffset other epsilon i +
   N.of_nat (length (rowEntries other epsilon i (N.to_nat (cols other)))))%N.
Proof. unfold rowOffset. rewrite allEntries_S, length_app. lia. Qed.

(** The slice of row [i] in the list of all entries. *)
Lemma allEntries_lookup n i q :
  i < n ->
  q < length (rowEntries other epsilon i (N.to_nat (cols other))) ->
  allEntries other epsilon n !! (length (allEntries other epsilon i) + q) =
  rowEntries other epsilon i (N.to_nat (cols other)) !! q.
Proof.
  intros Hi Hq. induction n as [|n IH]; [lia|].
  rewrite allEntries_S.
  destruct (decide (i = n)) as [-> | Hne].
  - rewrite lookup_app_r by lia. f_equal. lia.
  - rewrite lookup_app_l; [apply IH; lia|].
    pose proof (allEntries_length_mono (S i) n ltac:(lia)) as Hm.
    rewrite allEntries_S, length_app in Hm. lia.
Qed.

Lemma rowEntries_lookup_inv i n q r j :
  rowEntries other epsilon i n !! q = Some (r, j) ->
  r = i /\ j < n /\ keeps other epsilon i j = true.
Proof.
  unfold rowEntries. rewrite list_lookup_fmap. intros Hq.
  destruct (List.filter _ _ !! q) as [j'|] eqn:E; [|discriminate].
  simpl in Hq. injection Hq as <- <-.
  apply list_elem_of_lookup_2, list_elem_of_In, filter_In in E as [Hin Hk].
  apply in_seq in Hin. split; [reflexivity|]. split; [lia | assumption].
Qed.

Lemma rowEntries_complete i n j :
  j < n -> keeps other epsilon i j = true ->
  exists q, rowEntries other epsilon i n !! q = Some (i, j).
Proof.
  intros Hj Hk.
  assert (Hin : In j (List.filter (keeps other epsilon i) (seq 0 n))).
  { apply filter_In. split; [apply in_seq; lia | assumption]. }
  apply list_elem_of_In, list_elem_of_lookup_1 in Hin as [q Hq].
  exists q. unfold rowEntries. rewrite list_lookup_fmap, Hq. reflexivity.
Qed.

(** The columns of a row are stored in strictly increasing order. *)
Lemma rowEntries_increasing i n :
  forall q1 q2 e1 e2, q1 < q2 ->
    rowEntries other epsilon i n !! q1 = Some e1 ->
    rowEntries other epsilon i n !! q2 = Some e2 ->
    snd e1 < snd e2.
Proof.
  induction n as [|n IH]; intros q1 q2 e1 e2 Hlt H1 H2.
  - unfold rowEntries in H1. simpl in H1. discriminate.
  - rewrite rowEntries_S in H1, H2.
    destruct (decide (q2 < length (rowEntries other epsilon i n))) as [Hin | Hout].
    + rewrite lookup_app_l in H1 by lia. rewrite lookup_app_l in H2 by lia.
      exact (IH q1 q2 e1 e2 Hlt H1 H2).
    + rewrite (lookup_app_r _ _ q2) in H2 by lia.
      destruct (keeps other epsilon i n); [|by rewrite lookup_nil in H2].
      destruct (q2 - length (rowEntries other epsilon i n)) as [|d] eqn:Ed;
        [|by rewrite lookup_cons in H2].
      simpl in H2. injection H2 as <-.
      rewrite lookup_app_l in H1 by lia.
      destruct e1 as [r j]. apply rowEntries_lookup_inv in H1. simpl. lia.
Qed.

Lemma rowEntries_length i n : length (rowEntries other epsilon i n) <= n.
Proof.
  unfold rowEntries. rewrite length_map.
  etransitivity; [apply List.filter_length_le|]. by rewrite length_seq.
Qed.

Lemma allEntries_length n :
  length (allEntries other epsilon n) <= n * N.to_nat (cols other).
Proof.
  induction n as [|n IH]; [simpl; lia|].
  rewrite allEntries_S, length_app.
  pose proof (rowEntries_length n (N.to_nat (cols other))). lia.
Qed.
End CompressFacts.

Section BinarySearchFacts.
Import MatrixCsr.

(** On a sorted slice everything before the position returned by
    [lower_bound] is less than the value. *)
Lemma lowerBoundLoop_sorted (columnIndices : list N) (value first0 last : N) :
  sortedSlice columnIndices first0 last ->
  forall fuel first count p,
    (first0 <= first)%N ->
    (first + count <= last)%N ->
    (forall q c, (first0 <= q < first)%N ->
                 columnIndices !! N.to_nat q = Some c -> (c < value)%N) ->
    lowerBoundLoop fuel columnIndices value first count = Some p ->
    forall q c, (first0 <= q < p)%N ->
                columnIndices !! N.to_nat q = Some c -> (c < value)%N.
Proof.
  intros Hsorted.
  induction fuel as [|fuel IH]; intros first count p Hf0 Hle Hlow Hrun; simpl in Hrun.
  - injection Hrun as <-. exact Hlow.
  - destruct (N.eqb_spec count 0) as [-> | Hnz].
    + injection Hrun as <-. exact Hlow.
    + assert (Hstep : (count / 2 < count)%N) by (apply N.div_lt; lia).
      set (step := (count / 2)%N) in *. clearbody step.
      destruct (columnIndices !! N.to_nat (first + step)) as [c|] eqn:Hc;
        [|discriminate].
      destruct (N.ltb_spec c value) as [Hlt | Hge].
      * apply (IH (first + step + 1)%N (count - (step + 1))%N p);
          [lia | lia | | exact Hrun].
        intros q c' Hq Hc'.
        assert ((c' <= c)%N); [|lia].
        apply (Hsorted q (first + step)%N c' c); (lia || assumption).
      * apply (IH first step p); [exact Hf0 | lia | exact Hlow | exact Hrun].
Qed.

(** On a sorted slice [binaryFind] finds every value that occurs. *)
Lemma binaryFind_complete (columnIndices : list N) (first last value q : N) :
  sortedSlice columnIndices first last ->
  (N.to_nat last <= length columnIndices)%nat ->
  (first <= q < last)%N ->
  columnIndices !! N.to_nat q = Some value ->
  exists p, binaryFind columnIndices first last value = Some p /\
    (first <= p < last)%N /\ columnIndices !! N.to_nat p = Some value.
Proof.
  intros Hsorted Hlen Hq Hval. unfold binaryFind.
  destruct (lower_bound_spec columnIndices first last value ltac:(lia) Hlen)
    as (p & Hp & Hr & Hhi).
  rewrite Hp.
  assert (Hlow : forall q' c, (first <= q' < p)%N ->
            columnIndices !! N.to_nat q' = Some c -> (c < value)%N).
  { unfold lower_bound in Hp.
    apply (lowerBoundLoop_sorted columnIndices value first last Hsorted
             (N.to_nat (last - first)) first (last - first)%N p);
      [lia | lia | | exact Hp].
    intros q' c Hq'. lia. }
  assert (Hpq : (p <= q)%N).
  { destruct (N.le_gt_cases p q) as [|Hgt]; [assumption|].
    specialize (Hlow q value ltac:(lia) Hval). lia. }
  destruct (N.eqb_spec p last) as [-> | Hne]; [lia|].
  destruct Hhi as [-> | (c & Hc & Hvc)]; [lia|].
  rewrite Hc.
  assert ((c <= value)%N)
    by (apply (Hsorted p q c value); (lia || assumption)).
  destruct (N.ltb_spec value c) as [Hlt | Hge]; [lia|].
  exists p. split; [reflexivity|]. split; [lia|].
  assert (c = value) by lia. congruence.
Qed.
End BinarySearchFacts.

Section FreshCompress.
Import MatrixCsr.
Context {T : Type} `{Scalar T}.
Variables (other : MatrixExpression T) (epsilon : T) (m : Matrix T).
Hypothesis rowPointers_empty : _rowPointers m = [].

Lemma compress_rowPointer i :
  i <= N.to_nat (rows other) ->
  _rowPointers (compress m other epsilon) !! i =
  Some (rowOffset other epsilon i).
Proof.
  intros Hi. rewrite compress_spec, rowPointers_empty.
  cbn [_rowPointers app]. rewrite list_lookup_fmap, lookup_seq_lt by lia.
  reflexivity.
Qed.

(** Position [rowOffset i + q] of the stored columns and values. *)
Lemma compress_slice i q e :
  i < N.to_nat (rows other) ->
  rowEntries other epsilon i (N.to_nat (cols other)) !! q = Some e ->
  _columnIndices (compress m other epsilon)
    !! N.to_nat (rowOffset other epsilon i + N.of_nat q) =
    Some (entryColumn e) /\
  _nonZeros (compress m other epsilon)
    !! N.to_nat (rowOffset other epsilon i + N.of_nat q) =
    Some (entryValue other e).
Proof.
  intros Hi He. rewrite compress_spec.
  cbn [_columnIndices _nonZeros]. rewrite !list_lookup_fmap.
  replace (N.to_nat (rowOffset other epsilon i + N.of_nat q))
    with (length (allEntries other epsilon i) + q)
    by (unfold rowOffset; lia).
  rewrite allEntries_lookup, He; [auto | lia |].
  by apply lookup_lt_Some in He.
Qed.

Lemma compress_slice_inv i (p : N) :
  i < N.to_nat (rows other) ->
  (rowOffset other epsilon i <= p < rowOffset other epsilon (S i))%N ->
  exists q e,
    p = (rowOffset other epsilon i + N.of_nat q)%N /\
    rowEntries other epsilon i (N.to_nat (cols other)) !! q = Some e.
Proof.
  intros Hi Hp. rewrite rowOffset_S in Hp.
  exists (N.to_nat (p - rowOffset other epsilon i)).
  destruct (lookup_lt_is_Some_2
    (rowEntries other epsilon i (N.to_nat (cols other)))
    (N.to_nat (p - rowOffset other epsilon i))) as [e He]; [lia|].
  exists e. split; [lia | assumption].
Qed.

Lemma compress_sortedSlice i :
  i < N.to_nat (rows other) ->
  sortedSlice (_columnIndices (compress m other epsilon))
    (rowOffset other epsilon i) (rowOffset other epsilon (S i)).
Proof.
  intros Hi q1 q2 c1 c2 H1 H12 H2 Hc1 Hc2.
  destruct (compress_slice_inv i q1 Hi ltac:(lia)) as (a1 & e1 & -> & He1).
  destruct (compress_slice_inv i q2 Hi ltac:(lia)) as (a2 & e2 & -> & He2).
  destruct (compress_slice i a1 e1 Hi He1) as [Hx1 _].
  destruct (compress_slice i a2 e2 Hi He2) as [Hx2 _].
  rewrite Hx1 in Hc1. rewrite Hx2 in Hc2.
  injection Hc1 as <-. injection Hc2 as <-. unfold entryColumn.
  destruct (decide (a1 = a2)) as [-> | Hne]; [rewrite He1 in He2; injection He2 as ->; lia|].
  pose proof (rowEntries_increasing other epsilon i _ a1 a2 e1 e2
                ltac:(lia) He1 He2).
  lia.
Qed.

Lemma compress_total_length :
  length (_columnIndices (compress m other epsilon)) =
  N.to_nat (rowOffset other epsilon (N.to_nat (rows other))).
Proof.
  rewrite compress_spec. cbn [_columnIndices]. rewrite length_map.
  unfold rowOffset. lia.
Qed.

Lemma rowOffset_mono i n :
  i <= n -> (rowOffset other epsilon i <= rowOffset other epsilon n)%N.
Proof.
  intros Hle. unfold rowOffset.
  pose proof (allEntries_length_mono other epsilon i n Hle). lia.
Qed.

(** Compressing into a matrix without row pointers, as the converting
    constructor does, establishes the representation invariant. *)
Lemma fresh_compress_wellFormed : wellFormed (compress m other epsilon).
Proof.
  split.
  - rewrite compress_spec. cbn [_nonZeros _columnIndices].
    by rewrite !length_map.
  - intros i Hi.
    assert (Hsz : x (_size (compress m other epsilon)) = rows other)
      by (rewrite compress_spec; reflexivity).
    rewrite Hsz in Hi.
    exists (rowOffset other epsilon (N.to_nat i)),
           (rowOffset other epsilon (S (N.to_nat i))).
    split; [apply compress_rowPointer; lia|].
    split.
    { replace (N.to_nat (i + 1)) with (S (N.to_nat i)) by lia.
      apply compress_rowPointer. lia. }
    split; [apply rowOffset_mono; lia|].
    rewrite compress_total_length.
    pose proof (rowOffset_mono (S (N.to_nat i)) (N.to_nat (rows other))
                  ltac:(lia)).
    lia.
Qed.

(** The round trip for a matrix compressed from a state without row
    pointers: every entry above the cutoff is read back, every other
    entry reads as zero. *)
Lemma fresh_compress_roundtrip (i j : N) :
  (rows other * cols other < kMaxSize)%N ->
  (i < rows other)%N -> (j < cols other)%N ->
  get (compress m other epsilon) i j =
  Some (if gt (fabs (expression other i j)) epsilon
        then expression other i j else zero).
Proof.
  intros Hfit Hi Hj.
  assert (Hin : N.to_nat i < N.to_nat (rows other)) by lia.
  assert (Hsz : _size (compress m other epsilon) =
                mkSize2 (rows other) (cols other))
    by (rewrite compress_spec; reflexivity).
  assert (Hkeeps : keeps other epsilon (N.to_nat i) (N.to_nat j) =
                   gt (fabs (expression other i j)) epsilon)
    by (unfold keeps; by rewrite !N2Nat.id).
  assert (Hlen := compress_total_length).
  assert (Hend : (rowOffset other epsilon (S (N.to_nat i)) <=
                  rowOffset other epsilon (N.to_nat (rows other)))%N)
    by (apply rowOffset_mono; lia).
  assert (Hbe : (rowOffset other epsilon (N.to_nat i) <=
                 rowOffset other epsilon (S (N.to_nat i)))%N)
    by (apply rowOffset_mono; lia).
  assert (Htot : (rowOffset other epsilon (N.to_nat (rows other))
                  < kMaxSize)%N).
  { pose proof (allEntries_length other epsilon (N.to_nat (rows other))).
    unfold rowOffset. lia. }
  unfold get, hasElement. rewrite Hsz. cbn [x y].
  destruct (N.leb_spec (rows other) i) as [|_]; [lia|].
  destruct (N.leb_spec (cols other) j) as [|_]; [lia|].
  cbn [orb].
  rewrite (compress_rowPointer (N.to_nat i)) by lia.
  replace (N.to_nat (i + 1)) with (S (N.to_nat i)) by lia.
  rewrite (compress_rowPointer (S (N.to_nat i))) by lia.
  rewrite <- Hkeeps.
  destruct (keeps other epsilon (N.to_nat i) (N.to_nat j)) eqn:Hk.
  - destruct (rowEntries_complete other epsilon (N.to_nat i)
                (N.to_nat (cols other)) (N.to_nat j) ltac:(lia) Hk)
      as [q0 Hq0].
    destruct (compress_slice _ _ _ Hin Hq0) as [Hcol0 _].
    assert (Hq0lt := lookup_lt_Some _ _ _ Hq0).
    destruct (binaryFind_complete
                (_columnIndices (compress m other epsilon))
                (rowOffset other epsilon (N.to_nat i))
                (rowOffset other epsilon (S (N.to_nat i)))
                j
                (rowOffset other epsilon (N.to_nat i) + N.of_nat q0)%N)
      as (p & Hp & Hr & Hcol).
    + by apply compress_sortedSlice.
    + lia.
    + rewrite rowOffset_S. lia.
    + rewrite Hcol0. unfold entryColumn. simpl. f_equal. lia.
    + rewrite Hp.
      destruct (N.eqb_spec p (rowOffset other epsilon (S (N.to_nat i))))
        as [-> | _]; [lia|].
      cbn [negb].
      destruct (N.eqb_spec p kMaxSize) as [-> | _]; [lia|].
      destruct (compress_slice_inv _ p Hin Hr) as (q & [r j'] & -> & He).
      destruct (compress_slice _ _ _ Hin He) as [Hc Hv].
      rewrite Hv. rewrite Hc in Hcol. injection Hcol as Hj'.
      apply rowEntries_lookup_inv in He as (-> & _ & _).
      unfold entryColumn in Hj'. simpl in Hj'.
      unfold entryValue. simpl. rewrite Hj', N2Nat.id. reflexivity.
  - destruct (binaryFind_spec
                (_columnIndices (compress m other epsilon))
                (rowOffset other epsilon (N.to_nat i))
                (rowOffset other epsilon (S (N.to_nat i))) j Hbe)
      as (p & Hp & Hcase); [lia|].
    rewrite Hp.
    destruct Hcase as [-> | (Hr & Hcol)].
    + rewrite N.eqb_refl. reflexivity.
    + exfalso.
      destruct (compress_slice_inv _ p Hin Hr) as (q & [r j'] & -> & He).
      destruct (compress_slice _ _ _ Hin He) as [Hc _].
      rewrite Hc in Hcol. injection Hcol as Hj'.
      apply rowEntries_lookup_inv in He as (_ & _ & Hk').
      unfold entryColumn in Hj'. simpl in Hj'.
      assert (j' = N.to_nat j) by lia. subst j'. congruence.
Qed.
End FreshCompress.

(** ** The statements at concrete matrices *)

Lemma constructed_dense2_wellFormed :
  MatrixCsr.wellFormed (MatrixCsr.constructFrom MatrixCsr.dense2 0%Q).
Proof. apply fresh_compress_wellFormed. reflexivity. Qed.

(** The statement of X25 at the matrix built from [[2, 0], [0, 2]], read
    at the absent entry (0, 1). *)
Lemma element_read_is_total_witness :
  exists v,
    MatrixCsr.get (MatrixCsr.constructFrom MatrixCsr.dense2 0%Q) 0 1 = Some v /\
    ((MatrixCsr.x (MatrixCsr._size
        (MatrixCsr.constructFrom MatrixCsr.dense2 0%Q)) <= 0)%N \/
     (MatrixCsr.y (MatrixCsr._size
        (MatrixCsr.constructFrom MatrixCsr.dense2 0%Q)) <= 1)%N ->
     MatrixCsr.hasElement (MatrixCsr.constructFrom MatrixCsr.dense2 0%Q) 0 1
       = Some MatrixCsr.kMaxSize) /\
    (~ MatrixCsr.stored (MatrixCsr.constructFrom MatrixCsr.dense2 0%Q) 0 1 ->
     MatrixCsr.hasElement (MatrixCsr.constructFrom MatrixCsr.dense2 0%Q) 0 1
       = Some MatrixCsr.kMaxSize /\ v = MatrixCsr.zero).
Proof.
  apply (element_read_is_total
           (MatrixCsr.constructFrom MatrixCsr.dense2 0%Q) 0%N 1%N).
  exact constructed_dense2_wellFormed.
Defined.

Example element_read_samples :
  let m := MatrixCsr.constructFrom MatrixCsr.dense2 0%Q in
  MatrixCsr.get m 1 1 = Some 2%Q /\
  MatrixCsr.get m 0 1 = Some 0%Q /\
  MatrixCsr.get m 5 1 = Some 0%Q /\
  MatrixCsr.get m 1 7 = Some 0%Q.
Proof. repeat split; reflexivity. Qed.

(** C6, at the failing input.  [MatrixCsr()] leaves the row pointers
    [0]; [compress] of a dense expression does not clear them (the
    initializer-list overload does), so the rows of the result are shifted
    by one.  For the 1 x 1 matrix [[1]] and cutoff 0 the entry (0, 0) has
    magnitude above the cutoff and reads back as 0.  The same expression
    compressed by the converting constructor, or as an initializer list
    into the same default-constructed matrix, reads back as 1. *)
Theorem compress_on_default_constructed_shifts_rows :
  let D := MatrixCsr.dense1 in
  let m := MatrixCsr.compress MatrixCsr.defaultConstructed D 0%Q in
  MatrixCsr.gt (MatrixCsr.fabs (MatrixCsr.expression D 0 0)) 0%Q = true /\
  MatrixCsr.expression D 0 0 = 1%Q /\
  MatrixCsr._rowPointers m = [0%N; 0%N; 1%N] /\
  MatrixCsr.get m 0 0 = Some 0%Q /\
  MatrixCsr.get (MatrixCsr.constructFrom D 0%Q) 0 0 = Some 1%Q /\
  (MatrixCsr.compressList MatrixCsr.defaultConstructed [[1%Q]] 0%Q
     ≫= fun m' => MatrixCsr.get m' 0 0) = Some 1%Q.
Proof. repeat split; reflexivity. Qed.

(** C10, at the failing input.  The converting constructor on the 2 x 2
    matrix of ones leaves the row pointers [0; 2; 4].  A [compress] of
    the 1 x 1 matrix [[1]] into the same object does not clear them (the
    defect of C6) and appends its own: the matrix then has one row, one
    column, one stored value and the row pointers [0; 2; 4; 0; 1].  It
    does not satisfy the representation invariant, and the read of
    (0, 0), which is in range, searches the columns of the slice [0, 2)
    and leaves the vector of column indices, which has one element.  The
    claim says that the read never accesses storage out of bounds.  The
    same expression compressed by the converting constructor reads back
    as 1. *)
Theorem element_read_after_second_compress_leaves_storage :
  let m := MatrixCsr.compress (MatrixCsr.constructFrom MatrixCsr.full2 0%Q)
             MatrixCsr.dense1 0%Q in
  MatrixCsr._size m = MatrixCsr.mkSize2 1 1 /\
  MatrixCsr._rowPointers m = [0; 2; 4; 0; 1]%N /\
  MatrixCsr._columnIndices m = [0%N] /\
  MatrixCsr._nonZeros m = [1%Q] /\
  MatrixCsr.hasElement m 0 0 = None /\
  MatrixCsr.get m 0 0 = None /\
  ~ MatrixCsr.wellFormed m /\
  MatrixCsr.get (MatrixCsr.constructFrom MatrixCsr.dense1 0%Q) 0 0
    = Some 1%Q.
Proof.
  intros m. repeat (split; [reflexivity|]). split; [|reflexivity].
  intros [_ Hrows].
  destruct (Hrows 0%N) as (rowBegin & rowEnd & _ & Hend & _ & Hfit);
    [reflexivity|].
  vm_compute in Hend. injection Hend as <-. vm_compute in Hfit. lia.
Qed.

(** ** The rows a matrix stores *)


Section RowsFacts.
Import MatrixCsr.
Context {T : Type} `{Scalar T}.
Implicit Types (m : Matrix T) (rs : list (list (N * T))) (r : list (N * T)).

Lemma offsets_lookup rs k :
  k <= length rs ->
  offsets rs !! k = Some (N.of_nat (length (concat (take k rs)))).
Proof.
  intros Hk. unfold offsets.
  rewrite list_lookup_fmap, lookup_seq_lt by lia. reflexivity.
Qed.

Lemma offsets_length rs : length (offsets rs) = S (length rs).
Proof. unfold offsets. by rewrite length_map, length_seq. Qed.

Lemma concat_take_S rs k r :
  rs !! k = Some r ->
  concat (take (S k) rs) = concat (take k rs) ++ r.
Proof.
  intros Hr. rewrite (take_S_r _ _ _ Hr), concat_app. simpl.
  by rewrite app_nil_r.
Qed.

Lemma concat_split rs k r :
  rs !! k = Some r ->
  concat rs = concat (take k rs) ++ r ++ concat (drop (S k) rs).
Proof.
  intros Hr. rewrite <- (take_drop_middle _ _ _ Hr) at 1.
  rewrite concat_app. reflexivity.
Qed.

Lemma concat_lookup_row rs k r q :
  rs !! k = Some r -> q < length r ->
  concat rs !! (length (concat (take k rs)) + q) = r !! q.
Proof.
  intros Hr Hq. rewrite (concat_split _ _ _ Hr).
  rewrite lookup_app_r by lia.
  replace (length (concat (take k rs)) + q - length (concat (take k rs)))
    with q by lia.
  by rewrite lookup_app_l.
Qed.

Lemma concat_take_length_le rs k :
  length (concat (take k rs)) <= length (concat rs).
Proof.
  rewrite <- (take_drop k rs) at 2. rewrite concat_app, length_app. lia.
Qed.

Lemma concat_take_S_length_le rs k r :
  rs !! k = Some r ->
  length (concat (take k rs)) + length r <= length (concat rs).
Proof.
  intros Hr. rewrite (concat_split _ _ _ Hr), !length_app. lia.
Qed.

Lemma rowLookup_None j r :
  (forall q e, r !! q = Some e -> fst e <> j) -> rowLookup j r = None.
Proof.
  induction r as [|[c v] r IH]; intros Hall; simpl; [reflexivity|].
  destruct (N.eqb_spec c j) as [-> | Hne].
  - exfalso. exact (Hall 0 (j, v) eq_refl eq_refl).
  - apply IH. intros q e Hq. exact (Hall (S q) e Hq).
Qed.

Lemma rowLookup_Some j r v :
  rowLookup j r = Some v -> exists q, r !! q = Some (j, v).
Proof.
  induction r as [|[c w] r IH]; simpl; [discriminate|].
  destruct (N.eqb_spec c j) as [-> | Hne].
  - intros [= ->]. by exists 0.
  - intros Hv. destruct (IH Hv) as [q Hq]. by exists (S q).
Qed.

Lemma increasing_unique r p q c v w :
  increasing r -> r !! p = Some (c, v) -> r !! q = Some (c, w) -> p = q.
Proof.
  intros Hinc Hp Hq.
  destruct (Nat.lt_trichotomy p q) as [Hlt | [Heq | Hgt]]; [|assumption|].
  - pose proof (Hinc p q _ _ Hlt Hp Hq) as Hc. simpl in Hc. lia.
  - pose proof (Hinc q p _ _ Hgt Hq Hp) as Hc. simpl in Hc. lia.
Qed.

Lemma increasing_tail e r : increasing (e :: r) -> increasing r.
Proof.
  intros Hinc p q e1 e2 Hpq Hp Hq.
  apply (Hinc (S p) (S q) e1 e2); [lia | assumption | assumption].
Qed.

(** In a row with increasing columns the lookup of a column finds the
    value stored with it. *)
Lemma rowLookup_at j r q v :
  increasing r -> r !! q = Some (j, v) -> rowLookup j r = Some v.
Proof.
  intros Hinc Hq.
  destruct (rowLookup j r) as [w|] eqn:E.
  - destruct (rowLookup_Some _ _ _ E) as [p Hp].
    assert (q = p) by (eapply increasing_unique; eauto). subst p.
    congruence.
  - exfalso. revert q Hq E. clear Hinc.
    induction r as [|[c w] r IH]; intros q Hq E; [by destruct q|].
    simpl in E. destruct (N.eqb_spec c j) as [-> | Hne]; [discriminate|].
    destruct q as [|q]; simpl in Hq; [congruence|]. eauto.
Qed.

Section Stored.
Variables (m : Matrix T) (rs : list (list (N * T))).
Hypothesis Hrep : storesRows m rs.

Lemma stored_rowPointer k :
  k <= length rs ->
  _rowPointers m !! k = Some (N.of_nat (length (concat (take k rs)))).
Proof.
  destruct Hrep as (_ & _ & _ & -> & _). apply offsets_lookup.
Qed.

Lemma stored_slice k r q e :
  rs !! k = Some r -> r !! q = Some e ->
  _columnIndices m !! (length (concat (take k rs)) + q) = Some (fst e) /\
  _nonZeros m !! (length (concat (take k rs)) + q) = Some (snd e).
Proof.
  intros Hr He. destruct Hrep as (_ & -> & -> & _).
  assert (Hq := lookup_lt_Some _ _ _ He).
  rewrite !list_lookup_fmap, (concat_lookup_row _ _ _ _ Hr Hq), He.
  auto.
Qed.

Lemma stored_slice_inv k r (p : N) :
  rs !! k = Some r ->
  (N.of_nat (length (concat (take k rs))) <= p
   < N.of_nat (length (concat (take (S k) rs))))%N ->
  exists q e, N.to_nat p = length (concat (take k rs)) + q /\
              r !! q = Some e.
Proof.
  intros Hr Hp. rewrite (concat_take_S _ _ _ Hr), length_app in Hp.
  exists (N.to_nat p - length (concat (take k rs))).
  destruct (lookup_lt_is_Some_2 r
              (N.to_nat p - length (concat (take k rs)))) as [e He]; [lia|].
  exists e. split; [lia | assumption].
Qed.

Lemma stored_sortedSlice k r :
  rs !! k = Some r ->
  sortedSlice (_columnIndices m)
    (N.of_nat (length (concat (take k rs))))
    (N.of_nat (length (concat (take (S k) rs)))).
Proof.
  intros Hr q1 q2 c1 c2 H1 H12 H2 Hc1 Hc2.
  assert (Hinc : increasing r).
  { destruct Hrep as (_ & _ & _ & _ & _ & Hall & _).
    rewrite Forall_forall in Hall. apply Hall.
    by apply list_elem_of_In, list_elem_of_lookup_2 with k. }
  destruct (stored_slice_inv k r q1 Hr ltac:(lia)) as (a1 & e1 & Hq1 & He1).
  destruct (stored_slice_inv k r q2 Hr ltac:(lia)) as (a2 & e2 & Hq2 & He2).
  destruct (stored_slice k r a1 e1 Hr He1) as [Hx1 _].
  destruct (stored_slice k r a2 e2 Hr He2) as [Hx2 _].
  rewrite <- Hq1 in Hx1. rewrite <- Hq2 in Hx2.
  rewrite Hx1 in Hc1. rewrite Hx2 in Hc2.
  injection Hc1 as <-. injection Hc2 as <-.
  destruct (decide (a1 = a2)) as [-> | Hne].
  - rewrite He1 in He2. injection He2 as ->. lia.
  - pose proof (Hinc a1 a2 e1 e2 ltac:(lia) He1 He2). lia.
Qed.

(** The position that [hasElement] reports on a matrix that stores
    [rs]: the sentinel when the entry is absent, the position of the
    pair otherwise. *)
Lemma stored_hasElement (i j : N) :
  exists p, hasElement m i j = Some p /\
    match rs !! N.to_nat i ≫= rowLookup j with
    | None => p = kMaxSize
    | Some v =>
        p <> kMaxSize /\ (i < x (_size m))%N /\ (j < y (_size m))%N /\
        _nonZeros m !! N.to_nat p = Some v /\
        _columnIndices m !! N.to_nat p = Some j /\
        exists r q, rs !! N.to_nat i = Some r /\ r !! q = Some (j, v) /\
          N.to_nat p = length (concat (take (N.to_nat i) rs)) + q
    end.
Proof.
  pose proof Hrep as (Hx & Hnz & Hci & Hrp & Hfit & Hinc & Hrange).
  unfold hasElement.
  destruct (N.leb_spec (x (_size m)) i) as [Hi | Hi]; cbn [orb].
  { exists kMaxSize. split; [reflexivity|].
    rewrite (lookup_ge_None_2 rs (N.to_nat i)) by lia. reflexivity. }
  destruct (lookup_lt_is_Some_2 rs (N.to_nat i)) as [r Hr]; [lia|].
  assert (Hrinc : increasing r).
  { rewrite Forall_forall in Hinc. apply Hinc.
    by apply list_elem_of_In, list_elem_of_lookup_2 with (N.to_nat i). }
  assert (Hrrange : forall q e, r !! q = Some e -> (fst e < y (_size m))%N).
  { intros q e He. rewrite Forall_forall in Hrange.
    assert (Hin : In r rs)
      by (by apply list_elem_of_In, list_elem_of_lookup_2 with (N.to_nat i)).
    specialize (Hrange r Hin). rewrite Forall_forall in Hrange.
    apply Hrange. by apply list_elem_of_In, list_elem_of_lookup_2 with q. }
  rewrite Hr. cbn [mbind option_bind].
  destruct (N.leb_spec (y (_size m)) j) as [Hj | Hj]; cbn [orb].
  { exists kMaxSize. split; [reflexivity|].
    rewrite rowLookup_None; [reflexivity|].
    intros q e He. specialize (Hrrange q e He). lia. }
  rewrite (stored_rowPointer (N.to_nat i)) by lia.
  replace (N.to_nat (i + 1)) with (S (N.to_nat i)) by lia.
  rewrite (stored_rowPointer (S (N.to_nat i))) by lia.
  set (b := N.of_nat (length (concat (take (N.to_nat i) rs)))).
  set (e := N.of_nat (length (concat (take (S (N.to_nat i)) rs)))).
  assert (Hbe : (b <= e)%N).
  { subst b e. rewrite (concat_take_S _ _ _ Hr), length_app. lia. }
  assert (Hend : (N.to_nat e <= length (_columnIndices m))%nat).
  { subst e. rewrite Hci, length_map, (concat_take_S _ _ _ Hr), length_app.
    pose proof (concat_take_S_length_le _ _ _ Hr). lia. }
  assert (Htot : length (_columnIndices m) = length (concat rs))
    by (by rewrite Hci, length_map).
  destruct (rowLookup j r) as [v|] eqn:Hlook.
  - destruct (rowLookup_Some _ _ _ Hlook) as [q0 Hq0].
    destruct (stored_slice _ _ _ _ Hr Hq0) as [Hc0 _].
    assert (Hq0lt := lookup_lt_Some _ _ _ Hq0).
    destruct (binaryFind_complete (_columnIndices m) b e j
                (b + N.of_nat q0)%N) as (p & Hp & Hpr & Hcol).
    + subst b e. by apply (stored_sortedSlice (N.to_nat i) r).
    + exact Hend.
    + subst b e. rewrite (concat_take_S _ _ _ Hr), length_app. lia.
    + replace (N.to_nat (b + N.of_nat q0))
        with (length (concat (take (N.to_nat i) rs)) + q0)
        by (subst b; lia).
      exact Hc0.
    + rewrite Hp. exists p.
      destruct (N.eqb_spec p e) as [-> | _]; [lia|]. cbn [negb].
      split; [reflexivity|].
      destruct (stored_slice_inv _ r p Hr ltac:(subst b e; lia))
        as (q & [c w] & Hpq & He).
      destruct (stored_slice _ _ _ _ Hr He) as [Hc Hv].
      rewrite <- Hpq in Hc, Hv. rewrite Hc in Hcol.
      injection Hcol as Hcj. simpl in Hcj. subst c.
      assert (q = q0) by (eapply increasing_unique; eauto). subst q.
      rewrite Hq0 in He. injection He as <-.
      split; [lia|]. split; [assumption|]. split; [assumption|].
      split; [exact Hv|]. split; [exact Hc|].
      exists r, q0. auto.
  - destruct (binaryFind_spec (_columnIndices m) b e j Hbe Hend)
      as (p & Hp & Hcase).
    rewrite Hp. destruct Hcase as [-> | (Hpr & Hcol)].
    + rewrite N.eqb_refl. exists kMaxSize. auto.
    + exfalso.
      destruct (stored_slice_inv _ r p Hr ltac:(subst b e; lia))
        as (q & [c w] & Hpq & He).
      destruct (stored_slice _ _ _ _ Hr He) as [Hc _].
      rewrite <- Hpq in Hc. rewrite Hc in Hcol. injection Hcol as Hcj.
      simpl in Hcj. subst c.
      rewrite (rowLookup_at _ _ _ _ Hrinc He) in Hlook. discriminate.
Qed.

(** Reading a matrix that stores [rs] gives the entry of [rs]. *)
Lemma stored_get (i j : N) : get m i j = Some (entryAt rs i j).
Proof.
  unfold get, entryAt.
  destruct (stored_hasElement i j) as (p & -> & Hp).
  destruct (rs !! N.to_nat i ≫= rowLookup j) as [v|].
  - destruct Hp as (Hne & _ & _ & Hv & _).
    destruct (N.eqb_spec p kMaxSize); [contradiction|]. exact Hv.
  - subst p. reflexivity.
Qed.
End Stored.
End RowsFacts.

Lemma concat_map_map {A B C : Type} (g : B -> C) (f : A -> list B)
    (l : list A) :
  concat (map (fun a => map g (f a)) l) = map g (flat_map f l).
Proof.
  induction l as [|a l IH]; simpl; [reflexivity|].
  by rewrite IH, map_app.
Qed.

Section ConstructorFacts.
Import MatrixCsr.
Context {T : Type} `{Scalar T}.
Variables (other : MatrixExpression T) (epsilon : T).

Lemma keptRows_length :
  length (keptRows other epsilon) = N.to_nat (rows other).
Proof. unfold keptRows. by rewrite length_map, length_seq. Qed.

Lemma keptRows_take k :
  k <= N.to_nat (rows other) ->
  concat (take k (keptRows other epsilon)) =
  map (fun e => (entryColumn e, entryValue other e))
      (allEntries other epsilon k).
Proof.
  intros Hk. unfold keptRows.
  rewrite <- fmap_take, take_seq.
  rewrite Nat.min_l by lia. apply concat_map_map.
Qed.

Lemma keptRows_lookup i r :
  keptRows other epsilon !! i = Some r ->
  i < N.to_nat (rows other) /\
  r = map (fun e => (entryColumn e, entryValue other e))
          (rowEntries other epsilon i (N.to_nat (cols other))).
Proof.
  unfold keptRows. rewrite list_lookup_fmap. intros Hr.
  destruct (seq 0 (N.to_nat (rows other)) !! i) as [i'|] eqn:E;
    [|discriminate].
  apply lookup_seq in E as [-> Hi]. simpl in Hr. injection Hr as <-.
  auto.
Qed.

(** The converting constructor leaves the four members holding exactly
    the kept rows. *)
Lemma constructFrom_storesRows :
  (rows other * cols other < kMaxSize)%N ->
  storesRows (constructFrom other epsilon) (keptRows other epsilon).
Proof.
  intros Hfit. unfold constructFrom. rewrite compress_spec.
  unfold storesRows. cbn [_size _nonZeros _rowPointers _columnIndices x y].
  rewrite keptRows_length.
  assert (Hall : concat (keptRows other epsilon) =
    map (fun e => (entryColumn e, entryValue other e))
        (allEntries other epsilon (N.to_nat (rows other)))).
  { rewrite <- (keptRows_take (N.to_nat (rows other))) by lia.
    rewrite take_ge; [reflexivity | rewrite keptRows_length; lia]. }
  split; [lia|].
  split; [rewrite Hall, map_map; reflexivity|].
  split; [rewrite Hall, map_map; reflexivity|].
  split.
  { unfold offsets. rewrite keptRows_length. cbn [uninitialised _rowPointers app].
    apply map_ext_in. intros k Hk. apply in_seq in Hk.
    rewrite keptRows_take by lia. rewrite length_map. reflexivity. }
  split.
  { rewrite Hall, length_map.
    pose proof (allEntries_length other epsilon (N.to_nat (rows other))).
    lia. }
  split.
  - rewrite Forall_forall. intros r Hin.
    apply list_elem_of_In, list_elem_of_lookup_1 in Hin as [i Hi].
    apply keptRows_lookup in Hi as [Hi ->].
    intros p q e1 e2 Hpq Hp Hq.
    rewrite list_lookup_fmap in Hp, Hq.
    destruct (rowEntries _ _ _ _ !! p) as [a1|] eqn:E1; [|discriminate].
    destruct (rowEntries _ _ _ _ !! q) as [a2|] eqn:E2; [|discriminate].
    simpl in Hp, Hq. injection Hp as <-. injection Hq as <-.
    pose proof (rowEntries_increasing other epsilon i _ p q a1 a2 Hpq E1 E2).
    unfold entryColumn. simpl. lia.
  - rewrite Forall_forall. intros r Hin.
    apply list_elem_of_In, list_elem_of_lookup_1 in Hin as [i Hi].
    apply keptRows_lookup in Hi as [Hi ->].
    rewrite Forall_forall. intros e He.
    apply list_elem_of_In, list_elem_of_lookup_1 in He as [q Hq].
    rewrite list_lookup_fmap in Hq.
    destruct (rowEntries _ _ _ _ !! q) as [[a b]|] eqn:E; [|discriminate].
    simpl in Hq. injection Hq as <-.
    apply rowEntries_lookup_inv in E as (_ & Hb & _).
    unfold entryColumn. simpl. lia.
Qed.
End ConstructorFacts.

Lemma concat_singletons {A B : Type} (g : A -> B) (l : list A) :
  concat (map (fun a => [g a]) l) = map g l.
Proof. induction l as [|a l IH]; simpl; [reflexivity|]. by rewrite IH. Qed.

Lemma wrap_small (n : N) : (n < 2 ^ 64)%N -> MatrixCsr.wrap n = n.
Proof. intros Hn. unfold MatrixCsr.wrap. by apply N.mod_small. Qed.

Lemma resizeVector_length {A : Type} n (a : A) l :
  length (MatrixCsr.resizeVector n a l) = n.
Proof.
  unfold MatrixCsr.resizeVector.
  rewrite length_app, length_take, length_replicate. lia.
Qed.

Lemma map_const_replicate {A B : Type} (b : B) (l : list A) :
  map (fun _ => b) l = replicate (length l) b.
Proof. induction l as [|a l IH]; simpl; [reflexivity|]. by rewrite IH. Qed.

(** [parallelFor] with a body that alters the element at its own index
    is a map over the vector. *)
Lemma parallelFor_alter {A : Type} (f : A -> A) (l : list A) :
  MatrixCsr.parallelFor 0 (length l) (fun i nz => alter f i nz) l = map f l.
Proof.
  unfold MatrixCsr.parallelFor. rewrite Nat.sub_0_r.
  assert (Hinv : forLoopT (fun i nz => alter f i nz) 0 (length l) l =
                 map f (take (0 + length l) l) ++ drop (0 + length l) l).
  { apply (forLoopT_inv
      (fun k t => t = map f (take k l) ++ drop k l)).
    - by rewrite take_0, drop_0.
    - intros k t Hk ->.
      destruct (lookup_lt_is_Some_2 l k) as [a Ha]; [lia|].
      rewrite (take_S_r _ _ _ Ha), (drop_S _ _ _ Ha), map_app.
      cbn [map].
      replace k with (length (map f (take k l)) + 0) at 1
        by (rewrite length_map, length_take; lia).
      rewrite alter_app_r. cbn. by rewrite <- app_assoc. }
  rewrite Hinv. cbn [Nat.add]. by rewrite firstn_all, drop_all, app_nil_r.
Qed.

Section IdentityFacts.
Import MatrixCsr.
Context {T : Type} `{Scalar T}.
Variables (one : T) (n : N).
Hypothesis n_fits : (n < kMaxSize)%N.

Lemma identityRows_take k :
  concat (take k (identityRows one n)) =
  map (fun a => (N.of_nat a, one)) (seq 0 (Nat.min k (N.to_nat n))).
Proof.
  unfold identityRows. rewrite <- fmap_take, take_seq.
  apply (concat_singletons (fun a => (N.of_nat a, one))).
Qed.

Lemma makeIdentity_storesRows :
  storesRows (makeIdentity one n) (identityRows one n).
Proof.
  assert (Hlen : length (identityRows one n) = N.to_nat n)
    by (unfold identityRows; by rewrite length_map, length_seq).
  assert (Hall : concat (identityRows one n) =
                 map (fun a => (N.of_nat a, one)) (seq 0 (N.to_nat n))).
  { rewrite <- (take_ge (identityRows one n) (N.to_nat n)) by lia.
    rewrite identityRows_take. by rewrite Nat.min_id. }
  unfold storesRows, makeIdentity.
  cbn [_size _nonZeros _rowPointers _columnIndices x y
       defaultConstructed clear].
  rewrite Hlen, Hall.
  split; [lia|].
  split.
  { unfold resizeVector. rewrite take_nil. cbn [length app].
    rewrite Nat.sub_0_r, map_map. cbn [snd].
    rewrite (map_const_replicate one), length_seq. reflexivity. }
  split.
  { unfold iota. rewrite resizeVector_length, map_map. reflexivity. }
  split.
  { unfold iota, offsets. rewrite resizeVector_length, Hlen.
    rewrite wrap_small by (unfold kMaxSize in n_fits; lia).
    replace (N.to_nat (n + 1)) with (S (N.to_nat n)) by lia.
    apply map_ext_in. intros k Hk. apply in_seq in Hk.
    rewrite identityRows_take, length_map, length_seq. lia. }
  split; [rewrite length_map, length_seq; lia|].
  split.
  - rewrite Forall_forall. intros r Hin. unfold identityRows in Hin.
    apply in_map_iff in Hin as (k & <- & _).
    intros p q e1 e2 Hpq Hp Hq.
    destruct q as [|q]; [lia|]. discriminate.
  - rewrite Forall_forall. intros r Hin. unfold identityRows in Hin.
    apply in_map_iff in Hin as (k & <- & Hk). apply in_seq in Hk.
    constructor; [simpl; lia | constructor].
Qed.

Lemma identityRows_entry (i j : N) :
  entryAt (identityRows one n) i j =
  if (i =? j)%N && (i <? n)%N then one else zero.
Proof.
  unfold entryAt, identityRows. rewrite list_lookup_fmap.
  destruct (N.ltb_spec i n) as [Hi | Hi].
  - rewrite lookup_seq_lt by lia. cbn. rewrite N2Nat.id.
    rewrite andb_true_r. by destruct (i =? j)%N.
  - rewrite lookup_seq_ge by lia. cbn. by rewrite andb_false_r.
Qed.
End IdentityFacts.

Section RowEditFacts.
Import MatrixCsr.
Context {T : Type} `{Scalar T}.
Implicit Types (r : list (N * T)) (rs : list (list (N * T))).

Lemma increasing_cons e r :
  increasing (e :: r) <->
  Forall (fun e' => (fst e < fst e')%N) r /\ increasing r.
Proof.
  split.
  - intros Hinc. split; [|by apply increasing_tail in Hinc].
    apply Forall_lookup. intros q e' Hq.
    apply (Hinc 0 (S q) e e'); [lia | reflexivity | exact Hq].
  - intros [Hall Hinc] p q e1 e2 Hpq Hp Hq.
    destruct q as [|q]; [lia|]. simpl in Hq.
    destruct p as [|p]; simpl in Hp.
    + injection Hp as <-.
      rewrite Forall_lookup in Hall. exact (Hall q e2 Hq).
    + apply (Hinc p q e1 e2); [lia | assumption | assumption].
Qed.

Lemma increasing_nil : increasing (@nil (N * T)).
Proof. intros p q e1 e2 _ Hp. discriminate. Qed.

Lemma rowSet_elements j v r :
  Forall (fun e => e = (j, v) \/ In e r) (rowSet j v r).
Proof.
  induction r as [|[c w] r IH]; simpl.
  - constructor; [by left | constructor].
  - destruct (N.ltb_spec c j) as [Hlt | Hge].
    + constructor; [right; by left|].
      eapply Forall_impl; [|exact IH]. intros e [-> | Hin]; auto.
    + destruct (N.eqb_spec c j) as [-> | Hne].
      * constructor; [by left|].
        apply Forall_forall. intros e He. right. by right.
      * constructor; [by left|].
        apply Forall_forall. intros e He. right. exact He.
Qed.

Lemma rowSet_increasing j v r :
  increasing r -> increasing (rowSet j v r).
Proof.
  induction r as [|[c w] r IH]; intros Hinc; simpl.
  - apply increasing_cons. split; [constructor | apply increasing_nil].
  - apply increasing_cons in Hinc as [Hall Hinc].
    destruct (N.ltb_spec c j) as [Hlt | Hge].
    + apply increasing_cons. split; [|auto].
      eapply Forall_impl; [|apply rowSet_elements].
      intros e [-> | Hin]; [exact Hlt|].
      rewrite Forall_forall in Hall. by apply Hall.
    + destruct (N.eqb_spec c j) as [-> | Hne].
      * apply increasing_cons. split; assumption.
      * apply increasing_cons. split.
        -- constructor; [simpl; lia|].
           eapply Forall_impl; [|exact Hall]. simpl. intros e He. lia.
        -- apply increasing_cons. split; assumption.
Qed.

Lemma rowSet_lookup_same j v r : rowLookup j (rowSet j v r) = Some v.
Proof.
  induction r as [|[c w] r IH]; simpl.
  - by rewrite N.eqb_refl.
  - destruct (N.ltb_spec c j) as [Hlt | Hge].
    + simpl. destruct (N.eqb_spec c j); [lia | exact IH].
    + destruct (N.eqb_spec c j) as [-> | Hne]; simpl;
        by rewrite N.eqb_refl.
Qed.

Lemma rowSet_lookup_other j j' v r :
  j' <> j -> rowLookup j' (rowSet j v r) = rowLookup j' r.
Proof.
  intros Hne. induction r as [|[c w] r IH]; simpl.
  - destruct (N.eqb_spec j j'); [congruence | reflexivity].
  - destruct (N.ltb_spec c j) as [Hlt | Hge].
    + simpl. by rewrite IH.
    + destruct (N.eqb_spec c j) as [-> | Hcj]; simpl.
      * destruct (N.eqb_spec j j'); [congruence | reflexivity].
      * destruct (N.eqb_spec j j'); [congruence | reflexivity].
Qed.

(** Where the column is absent, [rowSet] inserts at the position that
    [lower_bound] reports. *)
Lemma rowSet_insert j v r q :
  (forall k e, k < q -> r !! k = Some e -> (fst e < j)%N) ->
  (q = length r \/ exists e, r !! q = Some e /\ (j < fst e)%N) ->
  rowSet j v r = take q r ++ (j, v) :: drop q r.
Proof.
  revert q. induction r as [|[c w] r IH]; intros q Hlow Hhigh.
  - destruct Hhigh as [-> | (e & He & _)]; [reflexivity | by destruct q].
  - destruct q as [|q].
    + destruct Hhigh as [Hq | (e & He & Hje)]; [discriminate|].
      injection He as <-. simpl in Hje. simpl.
      destruct (N.ltb_spec c j); [lia|].
      destruct (N.eqb_spec c j); [lia | reflexivity].
    + pose proof (Hlow 0 (c, w) ltac:(lia) eq_refl) as Hc. simpl in Hc.
      simpl. destruct (N.ltb_spec c j); [|lia].
      f_equal. apply IH.
      * intros k e Hk He. apply (Hlow (S k) e); [lia | exact He].
      * destruct Hhigh as [Hq | Hq]; [left; simpl in Hq; lia | right; exact Hq].
Qed.

(** Where the column is present, [rowSet] overwrites its value. *)
Lemma rowSet_replace j v w r q :
  increasing r -> r !! q = Some (j, w) ->
  rowSet j v r = <[q := (j, v)]> r.
Proof.
  revert q. induction r as [|[c w0] r IH]; intros q Hinc Hq;
    [by destruct q|].
  destruct q as [|q]; simpl in Hq.
  - injection Hq as -> ->. simpl.
    destruct (N.ltb_spec j j); [lia|]. by rewrite N.eqb_refl.
  - pose proof (Hinc 0 (S q) (c, w0) (j, w) ltac:(lia) eq_refl Hq) as Hc.
    simpl in Hc. simpl. destruct (N.ltb_spec c j); [|lia].
    f_equal. apply IH; [by apply increasing_tail in Hinc | exact Hq].
Qed.

Lemma alter_middle {A : Type} (f : A -> A) (l : list A) i a :
  l !! i = Some a ->
  alter f i l = take i l ++ f a :: drop (S i) l.
Proof.
  intros Ha. rewrite <- (take_drop_middle _ _ _ Ha) at 1.
  assert (Hlen : length (take i l) = i).
  { apply lookup_lt_Some in Ha. rewrite length_take. lia. }
  replace i with (length (take i l) + 0) at 1 by lia.
  by rewrite alter_app_r.
Qed.

(** The pairs of the rows after one row has been replaced. *)
Lemma concat_alter rs i r (f : list (N * T) -> list (N * T)) :
  rs !! i = Some r ->
  concat (alter f i rs) =
  concat (take i rs) ++ f r ++ concat (drop (S i) rs).
Proof.
  intros Hr. rewrite (alter_middle _ _ _ _ Hr), concat_app. reflexivity.
Qed.

Lemma offsets_app_single rs r :
  offsets (rs ++ [r]) =
  offsets rs ++ [N.of_nat (length (concat rs) + length r)].
Proof.
  unfold offsets. rewrite length_app. cbn [length].
  replace (S (length rs + 1)) with (S (S (length rs))) by lia.
  rewrite (seq_S (S (length rs))), map_app. cbn [map Nat.add].
  f_equal.
  - apply map_ext_in. intros k Hk. apply in_seq in Hk.
    by rewrite take_app_le by lia.
  - rewrite take_ge by (rewrite length_app; simpl; lia).
    rewrite concat_app, length_app. simpl. by rewrite app_nil_r.
Qed.

(** The row pointers depend on the lengths of the rows only. *)
Lemma offsets_lengths rs rs' :
  map length rs = map length rs' -> offsets rs = offsets rs'.
Proof.
  intros Hlen. unfold offsets.
  assert (Hl : length rs = length rs').
  { apply (f_equal length) in Hlen. by rewrite !length_map in Hlen. }
  rewrite Hl. apply map_ext. intros k.
  rewrite !length_concat. do 2 f_equal.
  rewrite <- !firstn_map. by rewrite Hlen.
Qed.
End RowEditFacts.

Section AddRowFacts.
Import MatrixCsr.
Context {T : Type} `{Scalar T}.
Implicit Types (m : Matrix T) (rs : list (list (N * T))).

Lemma insertByColumn_elements (e : T * N) l :
  Forall (fun a => a = e \/ In a l) (insertByColumn e l).
Proof.
  induction l as [|e' l IH]; simpl.
  - constructor; [by left | constructor].
  - destruct (snd e <? snd e')%N.
    + constructor; [by left|].
      apply Forall_forall. intros a Ha. by right.
    + constructor; [right; by left|].
      eapply Forall_impl; [|exact IH]. intros a [-> | Hin]; auto.
Qed.

Lemma insertByColumn_In (e : T * N) l a :
  In a (e :: l) -> In a (insertByColumn e l).
Proof.
  induction l as [|e' l IH]; simpl; [auto|].
  destruct (snd e <? snd e')%N; simpl; [auto|].
  intros [-> | [-> | Hin]]; [right; apply IH; by left | by left |].
  right. apply IH. by right.
Qed.

Lemma insertByColumn_length (e : T * N) l :
  length (insertByColumn e l) = S (length l).
Proof.
  induction l as [|e' l IH]; simpl; [reflexivity|].
  destruct (snd e <? snd e')%N; simpl; [reflexivity | by rewrite IH].
Qed.

Lemma insertByColumn_increasing (e : T * N) l :
  increasing (map (fun a => (snd a, fst a)) l) ->
  Forall (fun a => snd a <> snd e) l ->
  increasing (map (fun a => (snd a, fst a)) (insertByColumn e l)).
Proof.
  induction l as [|e' l IH]; intros Hinc Hne; simpl.
  - apply increasing_cons. split; [constructor | apply increasing_nil].
  - cbn [map] in Hinc. apply increasing_cons in Hinc as [Hall Hinc].
    apply Forall_cons_1 in Hne as [Hne' Hne].
    destruct (N.ltb_spec (snd e) (snd e')) as [Hlt | Hge]; cbn [map].
    + apply increasing_cons. split.
      * constructor; [exact Hlt|].
        eapply Forall_impl; [|exact Hall]. cbn. intros a Ha. lia.
      * apply increasing_cons. split; assumption.
    + apply increasing_cons. split; [|auto].
      apply Forall_forall. intros a Ha.
      apply in_map_iff in Ha as (a0 & <- & Ha0). cbn.
      pose proof (insertByColumn_elements e l) as Hel.
      rewrite Forall_forall in Hel.
      destruct (Hel a0 Ha0) as [-> | Hin]; [lia|].
      rewrite Forall_forall in Hall.
      apply (Hall (snd a0, fst a0)). apply in_map_iff. by exists a0.
Qed.

Lemma sortByColumn_In (l : list (T * N)) a :
  In a (sortByColumn l) <-> In a l.
Proof.
  induction l as [|e l IH]; simpl; [reflexivity|].
  split.
  - intros Ha. pose proof (insertByColumn_elements e (sortByColumn l)) as Hel.
    rewrite Forall_forall in Hel.
    destruct (Hel a Ha) as [-> | Hin]; [by left | right; by apply IH].
  - intros [-> | Hin]; apply insertByColumn_In; [by left | right; by apply IH].
Qed.

Lemma sortByColumn_length (l : list (T * N)) :
  length (sortByColumn l) = length l.
Proof.
  induction l as [|e l IH]; simpl; [reflexivity|].
  by rewrite insertByColumn_length, IH.
Qed.

Lemma sortByColumn_increasing (l : list (T * N)) :
  NoDup (map snd l) ->
  increasing (map (fun a => (snd a, fst a)) (sortByColumn l)).
Proof.
  induction l as [|e l IH]; intros Hnd; simpl; [apply increasing_nil|].
  cbn [map] in Hnd. inversion Hnd as [|? ? Hnotin Hnd']; subst.
  apply insertByColumn_increasing; [auto|].
  apply Forall_forall. intros a Ha Heq.
  apply (proj1 (sortByColumn_In _ _)) in Ha. apply Hnotin.
  rewrite <- Heq. apply list_elem_of_In, in_map. exact Ha.
Qed.

Lemma sizeY_fold (l : list (T * N)) (y0 : N) :
  (y0 <= foldl (fun sy e => N.max sy (wrap (snd e + 1))) y0 l)%N /\
  Forall (fun e =>
    (wrap (snd e + 1) <=
     foldl (fun sy e => N.max sy (wrap (snd e + 1))) y0 l)%N) l.
Proof.
  revert y0. induction l as [|e l IH]; intros y0; simpl.
  - split; [lia | constructor].
  - destruct (IH (N.max y0 (wrap (snd e + 1)))) as [Hge Hall].
    split; [lia|]. constructor; [lia | exact Hall].
Qed.

Lemma storesRows_widen m rs (sy : N) :
  Forall (Forall (fun e => (fst e < y (_size m))%N)) rs ->
  (y (_size m) <= sy)%N ->
  Forall (Forall (fun e => (fst e < sy)%N)) rs.
Proof.
  intros Hall Hle. eapply Forall_impl; [|exact Hall].
  intros r Hr. eapply Forall_impl; [|exact Hr]. cbn. intros e He. lia.
Qed.

(** [addRow] appends the row, sorted by column. *)
Lemma addRow_stores m rs nonZeros columnIndices :
  storesRows m rs ->
  length nonZeros = length columnIndices ->
  NoDup columnIndices ->
  Forall (fun c => (c < kMaxSize)%N) columnIndices ->
  (x (_size m) + 1 < 2 ^ 64)%N ->
  (N.of_nat (length (concat rs) + length nonZeros) < kMaxSize)%N ->
  exists m', addRow nonZeros columnIndices m = Some m' /\
    storesRows m'
      (rs ++ [map (fun a => (snd a, fst a))
                  (sortByColumn (zip nonZeros columnIndices))]) /\
    (y (_size m) <= y (_size m'))%N /\
    (columnIndices = [] -> y (_size m') = y (_size m)).
Proof.
  intros (Hx & Hnz & Hci & Hrp & Hfit & Hinc & Hrange) Hlen Hnd Hcols Hrows Hfit'.
  unfold addRow. rewrite Hlen, Nat.eqb_refl. cbn [negb].
  eexists. split; [reflexivity|].
  set (zipped := zip nonZeros columnIndices).
  assert (Hsnd : map snd zipped = columnIndices)
    by (apply snd_zip; lia).
  assert (Hzlen : length zipped = length nonZeros).
  { subst zipped. rewrite length_zip. lia. }
  destruct (sizeY_fold zipped (y (_size m))) as [Hyge Hyall].
  set (sy := foldl _ _ zipped) in *.
  split; [|split; [exact Hyge|]].
  2:{ intros ->. subst sy zipped. destruct nonZeros; reflexivity. }
  unfold storesRows. cbn [_size _nonZeros _rowPointers _columnIndices x y].
  rewrite concat_app. cbn [concat]. rewrite app_nil_r, !map_app, !map_map.
  cbn [fst snd].
  split.
  { rewrite wrap_small by exact Hrows. rewrite length_app. cbn [length]. lia. }
  split; [by rewrite Hnz|].
  split; [by rewrite Hci|].
  split.
  { rewrite offsets_app_single, Hrp. do 3 f_equal.
    rewrite Hnz, length_app, !length_map. reflexivity. }
  split.
  { rewrite length_app, length_map, sortByColumn_length, Hzlen. exact Hfit'. }
  split.
  - apply Forall_app. split; [exact Hinc|].
    constructor; [|constructor].
    apply sortByColumn_increasing. by rewrite Hsnd.
  - apply Forall_app. split.
    + by apply (storesRows_widen m rs sy).
    + constructor; [|constructor].
      apply Forall_forall. intros e He.
      apply in_map_iff in He as (a & <- & Ha). cbn.
      apply (proj1 (sortByColumn_In _ _)) in Ha.
      rewrite Forall_forall in Hyall. specialize (Hyall a Ha).
      assert (Hc : (snd a < kMaxSize)%N).
      { rewrite Forall_forall in Hcols. apply Hcols.
        rewrite <- Hsnd. apply in_map. exact Ha. }
      rewrite wrap_small in Hyall by (unfold kMaxSize in Hc; lia). lia.
Qed.
End AddRowFacts.

Section SetElementFacts.
Import MatrixCsr.
Context {T : Type} `{Scalar T}.
Implicit Types (m : Matrix T) (rs : list (list (N * T))).

Lemma incrementFrom_lookup first (rp : list N) k :
  incrementFrom first rp !! k =
  if decide (first <= k) then (fun p => wrap (p + 1)) <$> rp !! k
  else rp !! k.
Proof.
  unfold incrementFrom.
  set (g := fun p => wrap (p + 1)).
  pose proof (forLoopT_inv (fun kk t => forall k', t !! k' =
      if decide (first <= k' < kk) then g <$> rp !! k' else rp !! k')
      (fun k0 rp0 => alter g k0 rp0) (length rp - first) first rp) as Hinv.
  cbv beta in Hinv.
  rewrite Hinv; clear Hinv.
  - destruct (decide (first <= k)).
    + destruct (decide (first <= k < first + (length rp - first)));
        [reflexivity|].
      rewrite (lookup_ge_None_2 rp k) by lia. reflexivity.
    + destruct (decide _); [lia | reflexivity].
  - intros k'. destruct (decide _); [lia | reflexivity].
  - intros kk t Hkk Ht k'. rewrite list_lookup_alter.
    destruct (decide (kk = k')) as [<- | Hne].
    + rewrite Ht. destruct (decide (first <= kk < kk)); [lia|].
      destruct (decide (first <= kk < S kk)); [reflexivity | lia].
    + rewrite Ht.
      destruct (decide (first <= k' < kk)),
               (decide (first <= k' < S kk)); try reflexivity; lia.
Qed.

Lemma concat_replicate_nil {A : Type} n :
  concat (replicate n (@nil A)) = [].
Proof. induction n as [|n IH]; simpl; [reflexivity | exact IH]. Qed.

Lemma addRows_empty m rs n :
  storesRows m rs ->
  (x (_size m) + N.of_nat n < 2 ^ 64)%N ->
  exists m1, forUpTo n (fun _ => addRow [] []) m = Some m1 /\
    storesRows m1 (rs ++ replicate n []) /\
    y (_size m1) = y (_size m).
Proof.
  intros Hrep Hfit.
  apply (forUpTo_inv (fun k t =>
    storesRows t (rs ++ replicate k []) /\ y (_size t) = y (_size m))).
  - simpl. rewrite app_nil_r. auto.
  - intros k t Hk [Ht Hy].
    pose proof Hrep as (Hx & _).
    pose proof Ht as (Hxt & _ & _ & _ & Hfitt & _).
    rewrite length_app, length_replicate in Hxt.
    destruct (addRow_stores t _ [] [] Ht eq_refl (NoDup_nil_2 (A:=N))
                (Forall_nil _)) as (t' & Ht' & Hrep' & _ & Hy');
      [lia | cbn [length]; lia |].
    exists t'. split; [exact Ht'|]. split.
    + rewrite replicate_S_end, app_assoc. exact Hrep'.
    + rewrite Hy' by reflexivity. exact Hy.
Qed.

(** [addElement] of an entry that is not stored yet inserts it in its
    row, after appending the rows that are missing. *)
Lemma addElement_stores m rs (i j : N) (v : T) :
  storesRows m rs ->
  (i < 2 ^ 63)%N -> (x (_size m) < 2 ^ 63)%N -> (j < kMaxSize)%N ->
  (N.of_nat (length (concat rs)) + 1 < kMaxSize)%N ->
  rs !! N.to_nat i ≫= rowLookup j = None ->
  exists m', addElement i j v m = Some m' /\
    storesRows m' (rowsSet i j v rs) /\
    y (_size m') = N.max (y (_size m)) (j + 1).
Proof.
  intros Hrep Hi Hx Hj Hfit Habsent.
  pose proof Hrep as (Hxr & _).
  unfold addElement, rowsSet.
  assert (Hn : Z.to_nat (toSsize i - toSsize (x (_size m)) + 1) =
               S (N.to_nat i) - length rs).
  { unfold toSsize.
    destruct (N.ltb_spec i (2 ^ 63)); [|lia].
    destruct (N.ltb_spec (x (_size m)) (2 ^ 63)); [|lia]. lia. }
  rewrite Hn. set (n := S (N.to_nat i) - length rs).
  destruct (addRows_empty m rs n Hrep) as (m1 & -> & Hrep1 & Hy1);
    [subst n; lia|].
  set (rs1 := rs ++ replicate n []) in *.
  pose proof Hrep1 as (Hx1 & Hnz1 & Hci1 & Hrp1 & Hfit1 & Hinc1 & Hrange1).
  assert (Hconcat1 : concat rs1 = concat rs).
  { subst rs1. by rewrite concat_app, concat_replicate_nil, app_nil_r. }
  assert (Hlen1 : N.to_nat i < length rs1).
  { subst rs1 n. rewrite length_app, length_replicate. lia. }
  destruct (lookup_lt_is_Some_2 rs1 (N.to_nat i) Hlen1) as [r Hr].
  assert (Hrinc : increasing r).
  { rewrite Forall_forall in Hinc1. apply Hinc1.
    by apply list_elem_of_In, list_elem_of_lookup_2 with (N.to_nat i). }
  assert (Hrabs : rowLookup j r = None).
  { subst rs1. destruct (decide (N.to_nat i < length rs)) as [Hlt | Hge].
    - rewrite lookup_app_l in Hr by lia. rewrite Hr in Habsent.
      exact Habsent.
    - rewrite lookup_app_r in Hr by lia.
      apply lookup_replicate in Hr as [-> _]. reflexivity. }
  rewrite (wrap_small (i + 1)) by lia.
  rewrite (stored_rowPointer m1 rs1 Hrep1 (N.to_nat i)) by lia.
  replace (N.to_nat (i + 1)) with (S (N.to_nat i)) by lia.
  rewrite (stored_rowPointer m1 rs1 Hrep1 (S (N.to_nat i))) by lia.
  pose proof (concat_take_S_length_le _ _ _ Hr) as Hrow_le.
  remember (length (concat (take (N.to_nat i) rs1))) as lb eqn:Hlb.
  assert (He : length (concat (take (S (N.to_nat i)) rs1)) = lb + length r).
  { rewrite (concat_take_S _ _ _ Hr), length_app. lia. }
  rewrite He.
  assert (Hcilen : length (_columnIndices m1) = length (concat rs1))
    by (by rewrite Hci1, length_map).
  assert (Hnzlen : length (_nonZeros m1) = length (concat rs1))
    by (by rewrite Hnz1, length_map).
  destruct (lower_bound_spec (_columnIndices m1) (N.of_nat lb)
              (N.of_nat (lb + length r)) j ltac:(lia) ltac:(lia))
    as (p & Hp & Hpr & Hhi).
  assert (Hlow : forall q c, (N.of_nat lb <= q < p)%N ->
            _columnIndices m1 !! N.to_nat q = Some c -> (c < j)%N).
  { unfold lower_bound in Hp.
    apply (lowerBoundLoop_sorted (_columnIndices m1) j (N.of_nat lb)
             (N.of_nat (lb + length r))) with
      (fuel := N.to_nat (N.of_nat (lb + length r) - N.of_nat lb))
      (first := N.of_nat lb)
      (count := (N.of_nat (lb + length r) - N.of_nat lb)%N);
      [| lia | lia | intros; lia | exact Hp].
    rewrite <- He, Hlb.
    exact (stored_sortedSlice m1 rs1 Hrep1 (N.to_nat i) r Hr). }
  rewrite Hp. unfold insertAt. rewrite Hcilen, Hnzlen.
  destruct (Nat.leb_spec (N.to_nat p) (length (concat rs1))) as [Hpl|]; [|lia].
  eexists. split; [reflexivity|].
  remember (N.to_nat p - lb) as q eqn:Hq.
  assert (Hpq : N.to_nat p = lb + q) by lia.
  assert (Hqr : q <= length r) by lia.
  assert (Hrow : rowSet j v r = take q r ++ (j, v) :: drop q r).
  { apply rowSet_insert.
    - intros k e0 Hk He0.
      destruct (stored_slice m1 rs1 Hrep1 _ _ _ _ Hr He0) as [Hc _].
      rewrite <- Hlb in Hc.
      apply (Hlow (N.of_nat (lb + k))); [lia|].
      by rewrite Nat2N.id.
    - destruct (decide (q = length r)) as [|Hne]; [by left|]. right.
      destruct (lookup_lt_is_Some_2 r q) as [[c w] He0]; [lia|].
      exists (c, w). split; [exact He0|].
      destruct (stored_slice m1 rs1 Hrep1 _ _ _ _ Hr He0) as [Hc _].
      rewrite <- Hlb, <- Hpq in Hc.
      destruct Hhi as [-> | (c' & Hc' & Hjc)]; [lia|].
      rewrite Hc in Hc'. injection Hc' as <-. cbn in *.
      destruct (N.eq_dec c j) as [-> | Hcj]; [|lia].
      rewrite (rowLookup_at _ _ _ _ Hrinc He0) in Hrabs. discriminate. }
  assert (Hcat : take (N.to_nat p) (concat rs1) ++
                   (j, v) :: drop (N.to_nat p) (concat rs1) =
                 concat (alter (rowSet j v) (N.to_nat i) rs1)).
  { rewrite (concat_alter _ _ _ _ Hr), Hrow, (concat_split _ _ _ Hr).
    rewrite Hpq.
    rewrite (take_app_add' _ _ lb q) by exact Hlb.
    rewrite (drop_app_add' _ _ lb q) by exact Hlb.
    rewrite take_app_le, drop_app_le by lia.
    rewrite <- !app_assoc. reflexivity. }
  assert (Hrowlen : length (rowSet j v r) = S (length r)).
  { rewrite Hrow, length_app. cbn [length].
    rewrite length_take, length_drop. lia. }
  split.
  2:{ cbn [_size y]. rewrite Hy1, wrap_small; [reflexivity|].
      unfold kMaxSize in Hj. lia. }
  unfold storesRows. cbn [_size _nonZeros _rowPointers _columnIndices x y].
  rewrite <- Hcat.
  split; [rewrite length_alter; exact Hx1|].
  split.
  { rewrite Hnz1, <- fmap_take, <- fmap_drop, map_app. reflexivity. }
  split.
  { rewrite Hci1, <- fmap_take, <- fmap_drop, map_app. reflexivity. }
  split.
  { rewrite Hrp1. apply list_eq. intros k.
    rewrite incrementFrom_lookup.
    destruct (decide (k <= length rs1)) as [Hk | Hk].
    2:{ rewrite (lookup_ge_None_2 (offsets rs1))
          by (rewrite offsets_length; lia).
        rewrite (lookup_ge_None_2 (offsets _))
          by (rewrite offsets_length, length_alter; lia).
        by destruct (decide _). }
    rewrite (offsets_lookup rs1 k Hk).
    rewrite offsets_lookup by (rewrite length_alter; lia).
    destruct (decide (S (N.to_nat i) <= k)) as [Hik | Hik].
    - cbn [fmap option_fmap option_map]. f_equal.
      rewrite take_alter_lt by lia.
      assert (Hrk : take k rs1 !! N.to_nat i = Some r).
      { rewrite lookup_take. destruct (decide (N.to_nat i < k)); [exact Hr | lia]. }
      rewrite (concat_alter _ _ _ _ Hrk), (concat_split _ _ _ Hrk).
      pose proof (concat_take_length_le rs1 k) as Hle.
      rewrite (concat_split _ _ _ Hrk) in Hle.
      rewrite !length_app in *. rewrite Hrowlen.
      rewrite wrap_small; [lia|]. unfold kMaxSize in *. lia.
    - by rewrite take_alter_ge by lia. }
  split.
  { rewrite length_app. cbn [length]. rewrite length_take, length_drop.
    rewrite Hconcat1 in *. unfold kMaxSize in *. lia. }
  assert (Hsy : (y (_size m1) <= N.max (y (_size m1)) (wrap (j + 1)))%N)
    by lia.
  split.
  - apply Forall_alter; [exact Hinc1|].
    intros r' _ Hr'. by apply rowSet_increasing.
  - apply Forall_alter.
    + by apply (storesRows_widen m1 rs1).
    + intros r' _ Hr'.
      eapply Forall_impl; [|apply rowSet_elements].
      intros e0 [-> | Hin]; cbn.
      * rewrite wrap_small by (unfold kMaxSize in Hj; lia). lia.
      * rewrite Forall_forall in Hr'. apply (Hr' e0). exact Hin.
Qed.

Lemma map_length_alter rs i (f : list (N * T) -> list (N * T)) :
  (forall r, rs !! i = Some r -> length (f r) = length r) ->
  map length (alter f i rs) = map length rs.
Proof.
  intros Hf. apply list_eq. intros k.
  rewrite !list_lookup_fmap, list_lookup_alter.
  destruct (decide (i = k)) as [<- | Hne]; [|reflexivity].
  destruct (rs !! i) as [r|] eqn:Hr; [|reflexivity].
  cbn. by rewrite (Hf r).
Qed.

(** [setElement] sets the entry (i, j) of the rows: in place when the
    entry is stored, by [addElement] otherwise. *)
Lemma setElement_stores m rs (i j : N) (v : T) :
  storesRows m rs ->
  (i < 2 ^ 63)%N -> (x (_size m) < 2 ^ 63)%N -> (j < kMaxSize)%N ->
  (N.of_nat (length (concat rs)) + 1 < kMaxSize)%N ->
  exists m', setElement i j v m = Some m' /\
    storesRows m' (rowsSet i j v rs) /\
    y (_size m') = N.max (y (_size m)) (j + 1).
Proof.
  intros Hrep Hi Hx Hj Hfit. unfold setElement.
  destruct (stored_hasElement m rs Hrep i j) as (p & -> & Hp).
  destruct (rs !! N.to_nat i ≫= rowLookup j) as [w|] eqn:Hlook.
  - destruct Hp as (Hne & Hi' & Hj' & Hv & Hc & r & q & Hr & Hq & Hpq).
    destruct (N.eqb_spec p kMaxSize); [contradiction|].
    pose proof (lookup_lt_Some _ _ _ Hv) as Hplt.
    destruct (Nat.ltb_spec (N.to_nat p) (length (_nonZeros m))); [|lia].
    eexists. split; [reflexivity|].
    pose proof Hrep as (Hxr & Hnz & Hci & Hrp & Hfit0 & Hinc & Hrange).
    pose proof (lookup_lt_Some _ _ _ Hr) as Hilt.
    pose proof (lookup_lt_Some _ _ _ Hq) as Hqlt.
    unfold rowsSet.
    replace (S (N.to_nat i) - length rs) with 0 by lia.
    cbn [replicate]. rewrite app_nil_r.
    assert (Hrinc : increasing r).
    { rewrite Forall_forall in Hinc. apply Hinc.
      by apply list_elem_of_In, list_elem_of_lookup_2 with (N.to_nat i). }
    assert (Hrow := rowSet_replace j v w r q Hrinc Hq).
    assert (Hcat : concat (alter (rowSet j v) (N.to_nat i) rs) =
                   <[N.to_nat p := (j, v)]> (concat rs)).
    { rewrite (concat_alter _ _ _ _ Hr), Hrow, (concat_split _ _ _ Hr), Hpq.
      rewrite insert_app_r_alt by lia.
      replace (length (concat (take (N.to_nat i) rs)) + q -
               length (concat (take (N.to_nat i) rs))) with q by lia.
      by rewrite insert_app_l by lia. }
    split; [|cbn [_size y]; lia].
    unfold storesRows. cbn [_size _nonZeros _rowPointers _columnIndices x y].
    rewrite Hcat.
    split; [by rewrite length_alter|].
    split.
    { rewrite Hnz. symmetry. apply (list_fmap_insert snd). }
    split.
    { rewrite Hci. symmetry.
      etransitivity; [apply (list_fmap_insert fst)|].
      apply list_insert_id. cbn [fst]. by rewrite <- Hci. }
    split.
    { rewrite Hrp. apply offsets_lengths. symmetry.
      apply map_length_alter. intros r' Hr'.
      rewrite Hr in Hr'. injection Hr' as <-.
      by rewrite Hrow, length_insert. }
    split; [by rewrite length_insert|].
    split.
    + apply Forall_alter; [exact Hinc|].
      intros r' _ Hr'. by apply rowSet_increasing.
    + apply Forall_alter; [exact Hrange|].
      intros r' _ Hr'.
      eapply Forall_impl; [|apply rowSet_elements].
      intros e0 [-> | Hin]; [exact Hj'|].
      rewrite Forall_forall in Hr'. by apply (Hr' e0).
  - subst p. rewrite N.eqb_refl.
    destruct (addElement_stores m rs i j v Hrep Hi Hx Hj Hfit Hlook)
      as (m' & Hm' & Hrep' & Hy').
    exists m'. auto.
Qed.

Lemma rowsSet_entry_same rs (i j : N) (v : T) :
  entryAt (rowsSet i j v rs) i j = v.
Proof.
  unfold entryAt, rowsSet. rewrite list_lookup_alter.
  destruct (decide (N.to_nat i = N.to_nat i)); [|congruence].
  destruct (lookup_lt_is_Some_2
              (rs ++ replicate (S (N.to_nat i) - length rs) [])
              (N.to_nat i)) as [r Hr].
  { rewrite length_app, length_replicate. lia. }
  rewrite Hr. cbn. by rewrite rowSet_lookup_same.
Qed.

Lemma rowsSet_entry_other rs (i j i' j' : N) (v : T) :
  (i', j') <> (i, j) ->
  entryAt (rowsSet i j v rs) i' j' = entryAt rs i' j'.
Proof.
  intros Hne. unfold entryAt, rowsSet. rewrite list_lookup_alter.
  set (rs1 := rs ++ replicate (S (N.to_nat i) - length rs) []).
  assert (Hpad : forall k, rs1 !! k ≫= rowLookup j' = rs !! k ≫= rowLookup j').
  { intros k. subst rs1.
    destruct (decide (k < length rs)) as [Hlt | Hge].
    - by rewrite lookup_app_l by lia.
    - rewrite lookup_app_r by lia. rewrite (lookup_ge_None_2 rs k) by lia.
      destruct (replicate _ _ !! _) as [r|] eqn:E; [|reflexivity].
      apply lookup_replicate in E as [-> _]. reflexivity. }
  destruct (decide (N.to_nat i = N.to_nat i')) as [Hii | Hii].
  - assert (i' = i) by lia. subst i'.
    assert (Hjj : j' <> j) by congruence.
    rewrite <- (Hpad (N.to_nat i)).
    destruct (rs1 !! N.to_nat i) as [r|]; [|reflexivity].
    cbn. by rewrite rowSet_lookup_other.
  - by rewrite Hpad.
Qed.
End SetElementFacts.


Section LayoutFacts.
Import MatrixCsr.
Context {T : Type} `{Scalar T}.

(** The layout of the four members of a matrix that stores rows. *)
Lemma storesRows_layout (m : Matrix T) rs :
  storesRows m rs -> csrLayout m.
Proof.
  intros Hrep. unfold csrLayout.
  pose proof Hrep as (Hx & Hnz & Hci & Hrp & Hfit & Hinc & Hrange).
  split; [by rewrite Hnz, Hci, !length_map|].
  split; [rewrite Hrp, offsets_length, Hx; lia|].
  split; [rewrite (stored_rowPointer m rs Hrep 0) by lia; reflexivity|].
  split.
  { rewrite (stored_rowPointer m rs Hrep) by lia.
    rewrite take_ge by lia. by rewrite Hnz, length_map. }
  split.
  - intros i b e Hb He.
    assert (Hi : i < length rs).
    { apply lookup_lt_Some in He. rewrite Hrp, offsets_length in He. lia. }
    rewrite (stored_rowPointer m rs Hrep i) in Hb by lia.
    rewrite (stored_rowPointer m rs Hrep (S i)) in He by lia.
    injection Hb as <-. injection He as <-.
    destruct (lookup_lt_is_Some_2 rs i Hi) as [r Hr].
    split; [rewrite (concat_take_S _ _ _ Hr), length_app; lia|].
    intros p q c d Hp Hpq Hq Hc Hd.
    pose proof (stored_sortedSlice m rs Hrep i r Hr) as Hsorted.
    destruct (stored_slice_inv rs i r (N.of_nat p) Hr ltac:(lia))
      as (a1 & e1 & Hp1 & He1).
    destruct (stored_slice_inv rs i r (N.of_nat q) Hr ltac:(lia))
      as (a2 & e2 & Hq2 & He2).
    destruct (stored_slice m rs Hrep i r a1 e1 Hr He1) as [Hx1 _].
    destruct (stored_slice m rs Hrep i r a2 e2 Hr He2) as [Hx2 _].
    rewrite <- Hp1, Nat2N.id in Hx1. rewrite <- Hq2, Nat2N.id in Hx2.
    rewrite Hx1 in Hc. rewrite Hx2 in Hd.
    injection Hc as <-. injection Hd as <-.
    assert (Hrinc : increasing r).
    { rewrite Forall_forall in Hinc. apply Hinc.
      by apply list_elem_of_In, list_elem_of_lookup_2 with i. }
    apply (Hrinc a1 a2 e1 e2); [lia | assumption | assumption].
  - intros p c Hc. rewrite Hci, list_lookup_fmap in Hc.
    destruct (concat rs !! p) as [e|] eqn:E; [|discriminate].
    injection Hc as <-.
    apply list_elem_of_lookup_2, list_elem_of_In, in_concat in E
      as (r & Hr & He).
    rewrite Forall_forall in Hrange. specialize (Hrange r Hr).
    rewrite Forall_forall in Hrange. by apply Hrange.
Qed.
End LayoutFacts.

Section LoopAgreement.
Context {St : Type}.

(** A fallible loop whose body succeeds at every index is the total
    loop. *)
Lemma forLoop_total (body : nat -> St -> option St) (body' : nat -> St -> St) :
  forall count lo s,
    (forall k t, lo <= k < lo + count -> body k t = Some (body' k t)) ->
    forLoop body lo count s = Some (forLoopT body' lo count s).
Proof.
  induction count as [|c IH]; intros lo s Hb; simpl; [reflexivity|].
  rewrite Hb by lia. apply IH. intros k t Hk. apply Hb. lia.
Qed.

(** A loop fails when its body fails at one index whatever the state. *)
Lemma forLoop_fails (body : nat -> St -> option St) k :
  (forall t, body k t = None) ->
  forall count lo s, lo <= k < lo + count -> forLoop body lo count s = None.
Proof.
  intros Hk. induction count as [|c IH]; intros lo s Hr; simpl; [lia|].
  destruct (decide (lo = k)) as [-> | Hne]; [by rewrite Hk|].
  destruct (body lo s); [apply IH; lia | reflexivity].
Qed.
End LoopAgreement.

Section InitializerListFacts.
Import MatrixCsr.
Context {T : Type} `{Scalar T}.

Lemma compressList_rectangular (m : Matrix T) (lst : list (list T))
    (epsilon : T) :
  Forall (fun row =>
    length row = match lst with [] => O | row0 :: _ => length row0 end) lst ->
  compressList m lst epsilon = Some (constructFrom (denseOfList lst) epsilon).
Proof.
  intros Hrect. unfold compressList, constructFrom, compress.
  set (numCols := match lst with [] => O | row0 :: _ => length row0 end) in *.
  cbn [denseOfList rows cols uninitialised _rowPointers].
  fold numCols. rewrite !Nat2N.id.
  unfold forUpTo, forUpToT.
  rewrite (forLoop_total _ (fun i m0 =>
    forLoopT (compressColumn (denseOfList lst) epsilon i) 0 numCols
             (pushRowPointer m0))); [reflexivity|].
  intros k t Hk.
  destruct (lookup_lt_is_Some_2 lst k) as [row Hrow]; [lia|].
  rewrite Hrow.
  assert (Hlen : length row = numCols).
  { rewrite Forall_forall in Hrect. apply Hrect.
    by apply list_elem_of_In, list_elem_of_lookup_2 with k. }
  rewrite Hlen, Nat.eqb_refl.
  apply forLoop_total. intros j t' Hj.
  destruct (lookup_lt_is_Some_2 row j) as [val Hval]; [lia|].
  rewrite Hval. unfold compressColumn. cbn [denseOfList expression].
  rewrite !Nat2N.id, Hrow. cbn. rewrite Hval. reflexivity.
Qed.

Lemma compressList_ragged (m : Matrix T) (lst : list (list T))
    (epsilon : T) k row :
  lst !! k = Some row ->
  length row <> match lst with [] => O | row0 :: _ => length row0 end ->
  compressList m lst epsilon = None.
Proof.
  intros Hrow Hlen. unfold compressList.
  set (numCols := match lst with [] => O | row0 :: _ => length row0 end) in *.
  unfold forUpTo at 1.
  rewrite (forLoop_fails _ k); [reflexivity | | ].
  - intros t. rewrite Hrow.
    destruct (Nat.eqb_spec numCols (length row)); [congruence | reflexivity].
  - apply lookup_lt_Some in Hrow. lia.
Qed.
End InitializerListFacts.

Section ScalarFacts.
Import MatrixCsr.
Context {T : Type} `{Scalar T}.

Lemma forEachNonZero_members (f : T -> T) (m : Matrix T) :
  forEachNonZero f m =
  mkMatrix (_size m) (map f (_nonZeros m)) (_rowPointers m)
           (_columnIndices m).
Proof. unfold forEachNonZero. by rewrite parallelFor_alter. Qed.

Lemma forEachNonZero_hasElement (f : T -> T) (m : Matrix T) i j :
  hasElement (forEachNonZero f m) i j = hasElement m i j.
Proof. rewrite forEachNonZero_members. reflexivity. Qed.

Lemma forEachNonZero_get (f : T -> T) (m : Matrix T) i j p :
  hasElement m i j = Some p ->
  (p = kMaxSize -> get (forEachNonZero f m) i j = Some zero) /\
  (forall a, p <> kMaxSize -> get m i j = Some a ->
     get (forEachNonZero f m) i j = Some (f a)).
Proof.
  intros Hp. unfold get. rewrite forEachNonZero_hasElement, Hp.
  rewrite forEachNonZero_members. cbn [_nonZeros].
  destruct (N.eqb_spec p kMaxSize) as [-> | Hne].
  - split; [reflexivity | congruence].
  - split; [congruence|]. intros a _ Ha.
    rewrite list_lookup_fmap, Ha. reflexivity.
Qed.
End ScalarFacts.

Section VectorMulFacts.
Import MatrixCsr.
Local Open Scope Q_scope.

Lemma sumUpTo_ext (f g : nat -> Q) n :
  (forall k, (k < n)%nat -> f k == g k) -> sumUpTo f n == sumUpTo g n.
Proof.
  induction n as [|n IH]; intros Hfg; simpl; [reflexivity|].
  rewrite IH by (intros k Hk; apply Hfg; lia).
  rewrite (Hfg n) by lia. reflexivity.
Qed.

Lemma sumUpTo_point (f g : nat -> Q) (c : nat) (d : Q) n :
  (c < n)%nat -> (forall k, k <> c -> f k == g k) -> f c == g c + d ->
  sumUpTo f n == sumUpTo g n + d.
Proof.
  intros Hc Hfg Hfc. induction n as [|n IH]; [lia|]. simpl.
  destruct (decide (c = n)) as [-> | Hne].
  - rewrite (sumUpTo_ext f g n) by (intros k Hk; apply Hfg; lia).
    rewrite Hfc. ring.
  - rewrite IH by lia. rewrite (Hfg n) by lia. ring.
Qed.

Lemma sumUpTo_zero (f : nat -> Q) n :
  (forall k, (k < n)%nat -> f k == 0) -> sumUpTo f n == 0.
Proof.
  induction n as [|n IH]; intros Hf; simpl; [reflexivity|].
  rewrite IH by (intros k Hk; apply Hf; lia).
  rewrite (Hf n) by lia. ring.
Qed.

Lemma foldl_row_sum (v : list Q) (r : list (N * Q)) (s0 : Q) :
  foldl (fun s e => s + snd e * default 0 (v !! N.to_nat (fst e))) s0 r ==
  s0 + foldr (fun e acc => snd e * default 0 (v !! N.to_nat (fst e)) + acc)
             0 r.
Proof.
  revert s0. induction r as [|e r IH]; intros s0; simpl; [ring|].
  rewrite IH. ring.
Qed.

Lemma row_sum_dense (v : list Q) (r : list (N * Q)) n :
  increasing r ->
  Forall (fun e => (fst e < N.of_nat n)%N) r ->
  foldr (fun e acc => snd e * default 0 (v !! N.to_nat (fst e)) + acc) 0 r ==
  sumUpTo (fun k => default 0 (rowLookup (N.of_nat k) r) * default 0 (v !! k))
          n.
Proof.
  induction r as [|[c w] r IH]; intros Hinc Hrange.
  - simpl. symmetry. apply sumUpTo_zero. intros k _. ring.
  - apply increasing_cons in Hinc as [Hall Hinc].
    apply Forall_cons_1 in Hrange as [Hc Hrange]. cbn [fst] in Hc.
    cbn [foldr fst snd]. rewrite (IH Hinc Hrange).
    symmetry.
    rewrite (sumUpTo_point _
      (fun k => default 0 (rowLookup (N.of_nat k) r) * default 0 (v !! k))
      (N.to_nat c) (w * default 0 (v !! N.to_nat c))); [ring | lia | |].
    + intros k Hk. cbn [rowLookup].
      destruct (N.eqb_spec c (N.of_nat k)); [lia | reflexivity].
    + cbn [rowLookup]. rewrite N2Nat.id, N.eqb_refl.
      rewrite (rowLookup_None c r).
      * cbn. ring.
      * intros q e He Hfst. rewrite Forall_lookup in Hall.
        specialize (Hall q e He). cbn in Hall. lia.
Qed.

Lemma vectorMul_loop (m : Matrix Q) rs (v : list Q) k r :
  storesRows m rs -> rs !! k = Some r ->
  Forall (fun e => (N.to_nat (fst e) < length v)%nat) r ->
  forall r2 r1 s0, r = r1 ++ r2 ->
    forLoop (fun jj sum =>
               match _columnIndices m !! jj, _nonZeros m !! jj with
               | Some j, Some a =>
                   match v !! N.to_nat j with
                   | Some b => Some (sum + a * b)
                   | None => None
                   end
               | _, _ => None
               end)
            (length (concat (take k rs)) + length r1) (length r2) s0 =
    Some (foldl (fun s e => s + snd e * default 0 (v !! N.to_nat (fst e)))
                s0 r2).
Proof.
  intros Hrep Hr Hrange.
  induction r2 as [|e r2 IH]; intros r1 s0 Hsplit; [reflexivity|].
  cbn [length forLoop foldl].
  assert (He : r !! length r1 = Some e).
  { rewrite Hsplit, lookup_app_r by lia.
    by rewrite Nat.sub_diag. }
  destruct (stored_slice m rs Hrep k r _ e Hr He) as [-> ->].
  assert (Hv : (N.to_nat (fst e) < length v)%nat).
  { rewrite Forall_forall in Hrange. apply Hrange.
    by apply list_elem_of_In, list_elem_of_lookup_2 with (length r1). }
  destruct (lookup_lt_is_Some_2 v _ Hv) as [b Hb]. rewrite Hb.
  replace (S (length (concat (take k rs)) + length r1))
    with (length (concat (take k rs)) + length (r1 ++ [e]))%nat
    by (rewrite length_app; simpl; lia).
  rewrite (IH (r1 ++ [e])) by (by rewrite <- app_assoc).
  reflexivity.
Qed.
End VectorMulFacts.

(** ** Construction, editing and arithmetic of the CSR matrix *)

Section MatrixCsrProperties.
Import MatrixCsr.
Context {T : Type} `{Scalar T}.

(** X1. A matrix built by the converting constructor reads back, at
    every index pair, the dense value where it is in range and its
    magnitude is above the cutoff, and zero everywhere else. *)
Theorem converting_constructor_round_trip (other : MatrixExpression T)
    (epsilon : T) (i j : N) :
  (rows other * cols other < kMaxSize)%N ->
  get (constructFrom other epsilon) i j =
  Some (if (i <? rows other)%N && (j <? cols other)%N &&
           gt (fabs (expression other i j)) epsilon
        then expression other i j else zero).
Proof.
  intros Hfit.
  destruct (N.ltb_spec i (rows other)) as [Hi | Hi];
    [destruct (N.ltb_spec j (cols other)) as [Hj | Hj]|]; cbn [andb].
  - unfold constructFrom.
    by rewrite (fresh_compress_roundtrip other epsilon uninitialised).
  - unfold get, hasElement, constructFrom. rewrite compress_spec.
    cbn [_size x y].
    destruct (N.leb_spec (cols other) j); [|lia].
    by rewrite orb_true_r.
  - unfold get, hasElement, constructFrom. rewrite compress_spec.
    cbn [_size x y].
    destruct (N.leb_spec (rows other) i); [|lia]. reflexivity.
Qed.

(** X2. The members of a matrix built by the converting constructor
    have the CSR layout: one row pointer per row and one more, from 0 to
    the number of stored values, and within every row strictly
    increasing columns that are in range. *)
Theorem converting_constructor_layout (other : MatrixExpression T)
    (epsilon : T) :
  (rows other * cols other < kMaxSize)%N ->
  _size (constructFrom other epsilon) = mkSize2 (rows other) (cols other) /\
  csrLayout (constructFrom other epsilon).
Proof.
  intros Hfit. split.
  - unfold constructFrom. by rewrite compress_spec.
  - apply (storesRows_layout _ (keptRows other epsilon)).
    by apply constructFrom_storesRows.
Qed.

(** X3. [setElement(i, j, v)] on a matrix that stores rows with
    increasing columns succeeds, grows the extent to contain (i, j),
    keeps the layout, makes (i, j) read [v] and leaves the value read
    at every other index pair as it was. *)
Theorem setElement_read_back (m : Matrix T) rs (i j : N) (v : T) :
  storesRows m rs ->
  (i < 2 ^ 63)%N -> (x (_size m) < 2 ^ 63)%N -> (j < kMaxSize)%N ->
  (N.of_nat (length (_nonZeros m)) + 1 < kMaxSize)%N ->
  exists m', setElement i j v m = Some m' /\
    _size m' = mkSize2 (N.max (x (_size m)) (i + 1))
                       (N.max (y (_size m)) (j + 1)) /\
    (exists rs', storesRows m' rs') /\
    csrLayout m' /\
    get m' i j = Some v /\
    forall i' j', (i', j') <> (i, j) -> get m' i' j' = get m i' j'.
Proof.
  intros Hrep Hi Hx Hj Hfit.
  pose proof Hrep as (Hxr & Hnz & _).
  rewrite Hnz, length_map in Hfit.
  destruct (setElement_stores m rs i j v Hrep Hi Hx Hj Hfit)
    as (m' & Hm' & Hrep' & Hy').
  exists m'. split; [exact Hm'|].
  split.
  { pose proof Hrep' as (Hx' & _).
    destruct (_size m') as [xx yy]. cbn [x y] in *. f_equal; [|exact Hy'].
    rewrite Hx', Hxr. unfold rowsSet.
    rewrite length_alter, length_app, length_replicate. lia. }
  split; [by exists (rowsSet i j v rs)|].
  split; [by apply (storesRows_layout _ (rowsSet i j v rs))|].
  split.
  - rewrite (stored_get m' _ Hrep'). by rewrite rowsSet_entry_same.
  - intros i' j' Hne.
    rewrite (stored_get m' _ Hrep'), (stored_get m rs Hrep).
    by rewrite rowsSet_entry_other.
Qed.

(** X4. [addRow] with as many values as columns, the columns distinct,
    appends one row: the rows before it read as they did, the new row
    reads each given value at its column, whatever the order in which
    the pairs were given, and zero at every other column. *)
Theorem addRow_read_back (m : Matrix T) rs (nonZeros : list T)
    (columnIndices : list N) :
  storesRows m rs ->
  length nonZeros = length columnIndices ->
  NoDup columnIndices ->
  Forall (fun c => (c < kMaxSize)%N) columnIndices ->
  (x (_size m) + 1 < 2 ^ 64)%N ->
  (N.of_nat (length (_nonZeros m) + length nonZeros) < kMaxSize)%N ->
  exists m', addRow nonZeros columnIndices m = Some m' /\
    x (_size m') = (x (_size m) + 1)%N /\
    (exists rs', storesRows m' rs') /\
    (forall i j, (i < x (_size m))%N -> get m' i j = get m i j) /\
    (forall k c v, columnIndices !! k = Some c -> nonZeros !! k = Some v ->
       get m' (x (_size m)) c = Some v) /\
    (forall j, ~ In j columnIndices -> get m' (x (_size m)) j = Some zero).
Proof.
  intros Hrep Hlen Hnd Hcols Hrows Hfit.
  pose proof Hrep as (Hxr & Hnz & _).
  rewrite Hnz, length_map in Hfit.
  destruct (addRow_stores m rs nonZeros columnIndices Hrep Hlen Hnd Hcols
              Hrows Hfit) as (m' & Hm' & Hrep' & _).
  set (row := map (fun a : T * N => (snd a, fst a))
                  (sortByColumn (zip nonZeros columnIndices))) in *.
  assert (Hrowinc : increasing row).
  { apply sortByColumn_increasing. by rewrite snd_zip by lia. }
  assert (Hnew : (rs ++ [row]) !! N.to_nat (x (_size m)) = Some row).
  { rewrite Hxr, Nat2N.id, lookup_app_r by lia.
    by rewrite Nat.sub_diag. }
  exists m'. split; [exact Hm'|].
  split.
  { pose proof Hrep' as (Hx' & _). rewrite Hx', Hxr, length_app. simpl. lia. }
  split; [by exists (rs ++ [row])|].
  split; [|split].
  - intros i j Hi.
    rewrite (stored_get m' _ Hrep'), (stored_get m rs Hrep).
    unfold entryAt. by rewrite lookup_app_l by lia.
  - intros k c v Hc Hv.
    rewrite (stored_get m' _ Hrep'). unfold entryAt. rewrite Hnew. cbn.
    assert (Hin : In (c, v) row).
    { subst row. apply in_map_iff. exists (v, c). split; [reflexivity|].
      apply sortByColumn_In.
      apply list_elem_of_In, list_elem_of_lookup_2 with k.
      apply lookup_zip_with_Some. exists v, c. auto. }
    apply list_elem_of_In, list_elem_of_lookup_1 in Hin as [q Hq].
    by rewrite (rowLookup_at c row q v Hrowinc Hq).
  - intros j Hj.
    rewrite (stored_get m' _ Hrep'). unfold entryAt. rewrite Hnew. cbn.
    rewrite rowLookup_None; [reflexivity|].
    intros q e He Hfst. apply Hj.
    apply list_elem_of_lookup_2, list_elem_of_In in He.
    subst row. apply in_map_iff in He as (a & <- & Ha).
    apply (proj1 (sortByColumn_In _ _)) in Ha. cbn in Hfst. subst j.
    rewrite <- (snd_zip nonZeros columnIndices) by lia.
    by apply in_map.
Qed.

(** X5. [makeIdentity(n)] reads 1 on the diagonal of its n rows and zero
    at every other index pair, in range or not. *)
Theorem makeIdentity_reads_as_identity (one : T) (n i j : N) :
  (n < kMaxSize)%N ->
  get (makeIdentity one n) i j =
  Some (if (i =? j)%N && (i <? n)%N then one else zero).
Proof.
  intros Hn.
  rewrite (stored_get _ _ (makeIdentity_storesRows one n Hn)).
  by rewrite identityRows_entry.
Qed.

(** X7. Compressing an initializer list whose rows all have the length
    of the first row gives, whatever the receiver held before, the
    matrix that the converting constructor builds from the same dense
    values; every listed value above the cutoff reads back and every
    other listed value reads as zero. *)
Theorem initializer_list_compress_round_trip (m : Matrix T)
    (lst : list (list T)) (epsilon : T) :
  Forall (fun row =>
    length row = match lst with [] => O | row0 :: _ => length row0 end) lst ->
  (rows (denseOfList lst) * cols (denseOfList lst) < kMaxSize)%N ->
  exists m', compressList m lst epsilon = Some m' /\
    m' = constructFrom (denseOfList lst) epsilon /\
    forall i j row val, lst !! i = Some row -> row !! j = Some val ->
      get m' (N.of_nat i) (N.of_nat j) =
      Some (if gt (fabs val) epsilon then val else zero).
Proof.
  intros Hrect Hfit. eexists.
  split; [by apply compressList_rectangular|].
  split; [reflexivity|].
  intros i j row val Hrow Hval.
  assert (Hlen : length row =
                 match lst with [] => O | row0 :: _ => length row0 end).
  { rewrite Forall_forall in Hrect. apply Hrect.
    by apply list_elem_of_In, list_elem_of_lookup_2 with i. }
  unfold constructFrom.
  rewrite (fresh_compress_roundtrip _ epsilon uninitialised eq_refl _ _ Hfit).
  - cbn [denseOfList expression]. rewrite !Nat2N.id, Hrow. cbn.
    rewrite Hval. reflexivity.
  - cbn [denseOfList rows]. apply lookup_lt_Some in Hrow. lia.
  - cbn [denseOfList cols]. apply lookup_lt_Some in Hval. lia.
Qed.

(** X8. Compressing an initializer list with a row whose length differs
    from the length of the first row fails the assertion, whatever the
    other rows are. *)
Theorem initializer_list_compress_rejects_ragged_rows (m : Matrix T)
    (lst : list (list T)) (epsilon : T) k row :
  lst !! k = Some row ->
  length row <> match lst with [] => O | row0 :: _ => length row0 end ->
  compressList m lst epsilon = None.
Proof. apply compressList_ragged. Qed.
End MatrixCsrProperties.

(** X6. The scalar operations [add], [sub], [mul] and [rsub] keep the
    sparsity pattern: [hasElement] answers as before, an entry that is
    not stored still reads zero (also after adding a scalar), and a
    stored entry reads the operation applied to its old value. *)
Theorem scalar_arithmetic_keeps_sparsity (m : MatrixCsr.Matrix Q) (s : Q)
    (i j p : N) :
  MatrixCsr.hasElement m i j = Some p ->
  (MatrixCsr.hasElement (MatrixCsr.add m s) i j = Some p /\
   MatrixCsr.hasElement (MatrixCsr.sub m s) i j = Some p /\
   MatrixCsr.hasElement (MatrixCsr.mul m s) i j = Some p /\
   MatrixCsr.hasElement (MatrixCsr.rsub m s) i j = Some p) /\
  (p = MatrixCsr.kMaxSize ->
   MatrixCsr.get (MatrixCsr.add m s) i j = Some 0%Q /\
   MatrixCsr.get (MatrixCsr.sub m s) i j = Some 0%Q /\
   MatrixCsr.get (MatrixCsr.mul m s) i j = Some 0%Q /\
   MatrixCsr.get (MatrixCsr.rsub m s) i j = Some 0%Q) /\
  (forall a, p <> MatrixCsr.kMaxSize -> MatrixCsr.get m i j = Some a ->
   MatrixCsr.get (MatrixCsr.add m s) i j = Some (a + s)%Q /\
   MatrixCsr.get (MatrixCsr.sub m s) i j = Some (a - s)%Q /\
   MatrixCsr.get (MatrixCsr.mul m s) i j = Some (a * s)%Q /\
   MatrixCsr.get (MatrixCsr.rsub m s) i j = Some (s - a)%Q).
Proof.
  intros Hp. unfold MatrixCsr.add, MatrixCsr.sub, MatrixCsr.mul, MatrixCsr.rsub.
  split; [|split].
  - rewrite !forEachNonZero_hasElement. auto.
  - intros ->.
    repeat split;
      exact (proj1 (forEachNonZero_get _ m i j _ Hp) eq_refl).
  - intros a Hne Ha.
    repeat split;
      exact (proj2 (forEachNonZero_get _ m i j _ Hp) a Hne Ha).
Qed.

(** X9. The product of a matrix that stores rows with increasing columns
    and a vector with one element per column: element [i] of the
    product is computed without leaving a vector, and equals the sum
    over all columns [k] of the entry read at (i, k) times element [k]
    of the vector. *)
Theorem matrix_vector_product_is_dense_product (m : MatrixCsr.Matrix Q) rs
    (v : list Q) (i : N) :
  MatrixCsr.storesRows m rs ->
  MatrixCsr.y (MatrixCsr._size m) = N.of_nat (length v) ->
  (i < MatrixCsr.x (MatrixCsr._size m))%N ->
  (MatrixCsr.x (MatrixCsr._size m) <= MatrixCsr.kMaxSize)%N ->
  exists product s,
    MatrixCsr.mulVector m v = Some product /\
    product i = Some s /\
    (s == MatrixCsr.sumUpTo
            (fun k => default 0 (MatrixCsr.get m i (N.of_nat k)) *
                      default 0 (v !! k))
            (length v))%Q.
Proof.
  intros Hrep Hcols Hi Hrows.
  pose proof Hrep as (Hx & Hnz & Hci & Hrp & Hfit & Hinc & Hrange).
  unfold MatrixCsr.mulVector. rewrite Hcols, N.eqb_refl.
  exists (MatrixCsr.vectorMulAt m v).
  cut (exists s, MatrixCsr.vectorMulAt m v i = Some s /\
         (s == MatrixCsr.sumUpTo
            (fun k => default 0 (MatrixCsr.get m i (N.of_nat k)) *
                      default 0 (v !! k))
            (length v))%Q).
  { intros (s & Hs & Hsum). exists s. auto. }
  unfold MatrixCsr.vectorMulAt.
  rewrite wrap_small by (unfold MatrixCsr.kMaxSize in Hrows; lia).
  rewrite (stored_rowPointer m rs Hrep (N.to_nat i)) by lia.
  replace (N.to_nat (i + 1)) with (S (N.to_nat i)) by lia.
  rewrite (stored_rowPointer m rs Hrep (S (N.to_nat i))) by lia.
  destruct (lookup_lt_is_Some_2 rs (N.to_nat i)) as [r Hr]; [lia|].
  assert (Hrinc : MatrixCsr.increasing r).
  { rewrite Forall_forall in Hinc. apply Hinc.
    by apply list_elem_of_In, list_elem_of_lookup_2 with (N.to_nat i). }
  assert (Hrrange : Forall (fun e => (fst e < N.of_nat (length v))%N) r).
  { rewrite Forall_forall in Hrange. rewrite <- Hcols. apply Hrange.
    by apply list_elem_of_In, list_elem_of_lookup_2 with (N.to_nat i). }
  rewrite (concat_take_S _ _ _ Hr), length_app, !Nat2N.id.
  replace (length (concat (take (N.to_nat i) rs)) + length r -
           length (concat (take (N.to_nat i) rs)))%nat
    with (length r) by lia.
  pose proof (vectorMul_loop m rs v (N.to_nat i) r Hrep Hr) as Hloop.
  specialize (Hloop ltac:(eapply Forall_impl; [|exact Hrrange]; cbn; lia)
                    r [] 0%Q eq_refl).
  cbn [length] in Hloop. rewrite Nat.add_0_r in Hloop.
  eexists. split; [exact Hloop|].
  rewrite foldl_row_sum, (row_sum_dense v r (length v) Hrinc Hrrange).
  rewrite Qplus_0_l. apply sumUpTo_ext. intros k Hk.
  rewrite (stored_get m rs Hrep). unfold MatrixCsr.entryAt. rewrite Hr.
  reflexivity.
Qed.

(** ** The statements at concrete matrices *)

Lemma converting_constructor_round_trip_witness :
  (MatrixCsr.rows MatrixCsr.dense2 * MatrixCsr.cols MatrixCsr.dense2
   < MatrixCsr.kMaxSize)%N /\
  MatrixCsr.get (MatrixCsr.constructFrom MatrixCsr.dense2 0%Q) 1 1 =
  Some (if (1 <? MatrixCsr.rows MatrixCsr.dense2)%N &&
           (1 <? MatrixCsr.cols MatrixCsr.dense2)%N &&
           MatrixCsr.gt (MatrixCsr.fabs
             (MatrixCsr.expression MatrixCsr.dense2 1 1)) 0%Q
        then MatrixCsr.expression MatrixCsr.dense2 1 1
        else MatrixCsr.zero).
Proof.
  split; [reflexivity|].
  apply (converting_constructor_round_trip MatrixCsr.dense2 0%Q 1%N 1%N).
  reflexivity.
Defined.

Lemma converting_constructor_layout_witness :
  (MatrixCsr.rows MatrixCsr.dense2 * MatrixCsr.cols MatrixCsr.dense2
   < MatrixCsr.kMaxSize)%N /\
  MatrixCsr._size (MatrixCsr.constructFrom MatrixCsr.dense2 0%Q) =
    MatrixCsr.mkSize2 (MatrixCsr.rows MatrixCsr.dense2)
                      (MatrixCsr.cols MatrixCsr.dense2) /\
  MatrixCsr.csrLayout (MatrixCsr.constructFrom MatrixCsr.dense2 0%Q).
Proof.
  split; [reflexivity|].
  apply (converting_constructor_layout MatrixCsr.dense2 0%Q).
  reflexivity.
Defined.

Lemma constructed_dense2_storesRows :
  MatrixCsr.storesRows (MatrixCsr.constructFrom MatrixCsr.dense2 0%Q)
                       (MatrixCsr.keptRows MatrixCsr.dense2 0%Q).
Proof. apply constructFrom_storesRows. reflexivity. Qed.

Lemma setElement_read_back_witness :
  MatrixCsr.storesRows (MatrixCsr.constructFrom MatrixCsr.dense2 0%Q)
                       (MatrixCsr.keptRows MatrixCsr.dense2 0%Q) /\
  exists m',
    MatrixCsr.setElement 0 1 5%Q
      (MatrixCsr.constructFrom MatrixCsr.dense2 0%Q) = Some m' /\
    MatrixCsr.get m' 0 1 = Some 5%Q /\
    MatrixCsr.get m' 1 1 =
      MatrixCsr.get (MatrixCsr.constructFrom MatrixCsr.dense2 0%Q) 1 1.
Proof.
  split; [exact constructed_dense2_storesRows|].
  destruct (setElement_read_back
              (MatrixCsr.constructFrom MatrixCsr.dense2 0%Q)
              (MatrixCsr.keptRows MatrixCsr.dense2 0%Q) 0%N 1%N 5%Q
              constructed_dense2_storesRows)
    as (m' & Hm' & _ & _ & _ & Hsame & Hother);
    [reflexivity | reflexivity | reflexivity | reflexivity |].
  exists m'. split; [exact Hm'|]. split; [exact Hsame|].
  apply Hother. discriminate.
Defined.

Lemma addRow_read_back_witness :
  exists m',
    MatrixCsr.addRow [3%Q; 4%Q] [1%N; 0%N]
      (MatrixCsr.constructFrom MatrixCsr.dense2 0%Q) = Some m' /\
    MatrixCsr.get m' 2 0 = Some 4%Q /\
    MatrixCsr.get m' 1 1 =
      MatrixCsr.get (MatrixCsr.constructFrom MatrixCsr.dense2 0%Q) 1 1.
Proof.
  destruct (addRow_read_back
              (MatrixCsr.constructFrom MatrixCsr.dense2 0%Q)
              (MatrixCsr.keptRows MatrixCsr.dense2 0%Q)
              [3%Q; 4%Q] [1%N; 0%N] constructed_dense2_storesRows)
    as (m' & Hm' & _ & _ & Hold & Hnew & _).
  - reflexivity.
  - apply NoDup_ListNoDup. repeat constructor; simpl; intuition discriminate.
  - repeat constructor.
  - reflexivity.
  - reflexivity.
  - exists m'. split; [exact Hm'|]. split.
    + exact (Hnew 1%nat 0%N 4%Q eq_refl eq_refl).
    + apply Hold. reflexivity.
Defined.

Lemma makeIdentity_reads_as_identity_witness :
  (3 < MatrixCsr.kMaxSize)%N /\
  MatrixCsr.get (MatrixCsr.makeIdentity 1%Q 3) 1 1 =
  Some (if (1 =? 1)%N && (1 <? 3)%N then 1%Q else MatrixCsr.zero).
Proof.
  split; [reflexivity|].
  apply (makeIdentity_reads_as_identity 1%Q 3%N 1%N 1%N). reflexivity.
Defined.

Lemma scalar_arithmetic_keeps_sparsity_witness :
  MatrixCsr.hasElement (MatrixCsr.constructFrom MatrixCsr.dense2 0%Q) 0 0
    = Some 0%N /\
  MatrixCsr.get
    (MatrixCsr.add (MatrixCsr.constructFrom MatrixCsr.dense2 0%Q) 1%Q) 0 0
    = Some (2 + 1)%Q.
Proof.
  assert (Hp : MatrixCsr.hasElement
                 (MatrixCsr.constructFrom MatrixCsr.dense2 0%Q) 0 0
               = Some 0%N) by reflexivity.
  assert (Ha : MatrixCsr.get
                 (MatrixCsr.constructFrom MatrixCsr.dense2 0%Q) 0 0
               = Some 2%Q) by reflexivity.
  split; [exact Hp|].
  destruct (scalar_arithmetic_keeps_sparsity
              (MatrixCsr.constructFrom MatrixCsr.dense2 0%Q) 1%Q 0%N 0%N 0%N
              Hp) as (_ & _ & Hstored).
  destruct (Hstored 2%Q ltac:(discriminate) Ha) as [Hadd _].
  exact Hadd.
Defined.

Lemma initializer_list_compress_round_trip_witness :
  exists m',
    MatrixCsr.compressList MatrixCsr.defaultConstructed
      [[1%Q; 0%Q]; [0%Q; 2%Q]] 0%Q = Some m' /\
    MatrixCsr.get m' 1 1 = Some 2%Q.
Proof.
  destruct (initializer_list_compress_round_trip
              MatrixCsr.defaultConstructed [[1%Q; 0%Q]; [0%Q; 2%Q]] 0%Q)
    as (m' & Hm' & _ & Hget).
  - repeat constructor.
  - reflexivity.
  - exists m'. split; [exact Hm'|].
    exact (Hget 1%nat 1%nat [0%Q; 2%Q] 2%Q eq_refl eq_refl).
Defined.

Lemma initializer_list_compress_rejects_ragged_rows_witness :
  MatrixCsr.compressList MatrixCsr.defaultConstructed
    [[1%Q; 0%Q]; [2%Q]] 0%Q = None.
Proof.
  apply (initializer_list_compress_rejects_ragged_rows
           MatrixCsr.defaultConstructed [[1%Q; 0%Q]; [2%Q]] 0%Q
           1%nat [2%Q]).
  - reflexivity.
  - simpl. lia.
Defined.

Lemma matrix_vector_product_is_dense_product_witness :
  exists product s,
    MatrixCsr.mulVector (MatrixCsr.constructFrom MatrixCsr.dense2 0%Q)
                        [1%Q; 3%Q] = Some product /\
    product 1%N = Some s /\
    (s == MatrixCsr.sumUpTo
            (fun k => default 0
               (MatrixCsr.get (MatrixCsr.constructFrom MatrixCsr.dense2 0%Q)
                              1 (N.of_nat k)) *
               default 0 ([1%Q; 3%Q] !! k))
            (length [1%Q; 3%Q]))%Q.
Proof.
  apply (matrix_vector_product_is_dense_product
           (MatrixCsr.constructFrom MatrixCsr.dense2 0%Q)
           (MatrixCsr.keptRows MatrixCsr.dense2 0%Q) [1%Q; 3%Q] 1%N).
  - exact constructed_dense2_storesRows.
  - reflexivity.
  - reflexivity.
  - discriminate.
Defined.

Example editing_samples :
  (MatrixCsr.setElement 0 1 5%Q (MatrixCsr.constructFrom MatrixCsr.dense2 0%Q)
     ≫= fun m' => MatrixCsr.get m' 0 1) = Some 5%Q /\
  (MatrixCsr.setElement 3 4 7%Q (MatrixCsr.constructFrom MatrixCsr.dense2 0%Q)
     ≫= fun m' => MatrixCsr.get m' 3 4) = Some 7%Q /\
  (MatrixCsr.setElement 3 4 7%Q (MatrixCsr.constructFrom MatrixCsr.dense2 0%Q)
     ≫= fun m' => Some (MatrixCsr._rowPointers m')) =
    Some [0%N; 1%N; 2%N; 2%N; 3%N] /\
  MatrixCsr.vectorMulAt (MatrixCsr.constructFrom MatrixCsr.dense2 0%Q)
                        [1%Q; 3%Q] 1 = Some (0 + 2 * 3)%Q.
Proof. repeat split; reflexivity. Qed.

(** * The blocked boundary-condition solver *)

Section Array2Facts.
Import Boundary2.
Context {T : Type}.
Implicit Types (a : Array2 T).

Lemma at2_is_Some a i j :
  wellFormed2 a -> i < x (size2 a) -> j < y (size2 a) ->
  is_Some (at2 a i j).
Proof.
  intros [Hwf Hz] Hi Hj. unfold at2.
  apply at_is_Some; [assumption | assumption | assumption | lia].
Qed.

Lemma assign2_spec a i j (val : T) :
  wellFormed2 a -> i < x (size2 a) -> j < y (size2 a) ->
  exists a', assign2 a i j val = Some a' /\ size2 a' = size2 a /\
    wellFormed2 a' /\ at2 a' i j = Some val /\
    forall i' j', (i', j') <> (i, j) -> at2 a' i' j' = at2 a i' j'.
Proof.
  intros [Hwf Hz] Hi Hj. unfold assign2.
  destruct (assign_spec a i j 0 val Hwf) as (a' & Ha & Hs & Hw & Hg & Ho);
    [assumption | assumption | lia |].
  exists a'. split; [assumption|]. split; [unfold size2; by rewrite Hs|].
  split; [split; [assumption | by rewrite Hs]|].
  split; [assumption|].
  intros i' j' Hne. apply Ho. intros E. apply Hne. by injection E as -> ->.
Qed.

Lemma filled2_wellFormed (size : Size2) (val : T) :
  fitsSizeT2 size ->
  wellFormed2 (filled2 size val) /\ size2 (filled2 size val) = size.
Proof.
  intros Hfit. split; [split|].
  - unfold Array3.wellFormed, filled2. cbn [Array3._data Array3._size].
    split; [|exact Hfit].
    rewrite length_replicate. by apply elementCount_fits.
  - reflexivity.
  - by destruct size.
Qed.

(** Smaller sizes fit as well. *)
Lemma fitsSizeT2_mono (size size' : Size2) :
  x size' <= x size -> y size' <= y size ->
  fitsSizeT2 size -> fitsSizeT2 size'.
Proof.
  unfold fitsSizeT2, Array3.fitsSizeT. simpl. intros Hx Hy Hfit.
  eapply N.le_lt_trans; [|exact Hfit].
  apply N.mul_le_mono_r. apply N.mul_le_mono; lia.
Qed.

(** The size of an array holding one element per index fits. *)
Lemma wellFormed2_fits a : wellFormed2 a -> fitsSizeT2 (size2 a).
Proof.
  intros [[_ Hfit] Hz]. unfold fitsSizeT2, size2. simpl.
  rewrite <- Hz. by destruct a as [[? ? ?] ?].
Qed.

Lemma at2_filled2 (size : Size2) (val : T) i j :
  fitsSizeT2 size ->
  i < x size -> j < y size -> at2 (filled2 size val) i j = Some val.
Proof.
  intros Hfit Hi Hj. unfold at2, Array3.at_, filled2.
  cbn [Array3._data Array3._size].
  replace (Array3.inBounds _ i j 0) with true
    by (symmetry; apply inBounds_true; simpl; lia).
  apply lookup_replicate_2. rewrite (elementCount_fits _ Hfit).
  apply (linearIndex_lt (Array3.mkSize3 (x size) (y size) 1)); simpl; lia.
Qed.

Lemma resize2_spec a (size : Size2) (val : T) :
  wellFormed2 a -> fitsSizeT2 size ->
  exists a', resize2 a size val = Some a' /\ size2 a' = size /\
             wellFormed2 a'.
Proof.
  intros [Hwf Hz] Hfit. unfold resize2.
  destruct (resize_spec a (Array3.mkSize3 (x size) (y size) 1) val Hwf Hfit)
    as (a' & Ha & Hs & Hw & _).
  exists a'. split; [assumption|].
  split; [unfold size2; rewrite Hs; by destruct size|].
  split; [assumption | by rewrite Hs].
Qed.

(** Invariant rule of [forEachIndex]: the invariant is indexed by the
    position (j0, i0) the loops have reached. *)
Lemma forEachIndex2_inv {St : Type} (P : nat -> nat -> St -> Prop)
    (size : Size2) (func : nat -> nat -> St -> option St) (s : St) :
  P 0 0 s ->
  (forall i j t, i < x size -> j < y size -> P j i t ->
                 exists t', func i j t = Some t' /\ P j (S i) t') ->
  (forall j t, j < y size -> P j (x size) t -> P (S j) 0 t) ->
  exists s', forEachIndex2 size func s = Some s' /\ P (y size) 0 s'.
Proof.
  intros H0 Hstep Hrow. unfold forEachIndex2.
  apply (forUpTo_inv (fun j t => P j 0 t)); [assumption|].
  intros j t Hj HP.
  destruct (forUpTo_inv (fun i t => P j i t) (fun i => func i j)
              (x size) t HP) as (t' & Ht' & HP').
  - intros i t0 Hi HPi. by apply Hstep.
  - exists t'. split; [assumption | by apply Hrow].
Qed.
End Array2Facts.
Section FaceGridFacts.
Import Boundary2.
Implicit Types (g vel : FaceCenteredGrid2).

Lemma sameShape_refl g : gridWellFormed g -> sameShape g g.
Proof. intros Hwf. repeat split; apply Hwf. Qed.

Lemma sameShape_trans g1 g2 g3 :
  sameShape g1 g2 -> sameShape g2 g3 -> sameShape g1 g3.
Proof.
  intros (_ & Hr & Hu & Hv) (Hwf & Hr' & Hu' & Hv').
  split; [assumption|]. split; [congruence|]. split; congruence.
Qed.

Lemma setU_spec g i j (val : Q) :
  gridWellFormed g -> i <= x (resolution g) -> j < y (resolution g) ->
  exists g', setU g i j val = Some g' /\ sameShape g g' /\
    u g' i j = Some val /\
    (forall a b, (a, b) <> (i, j) -> u g' a b = u g a b) /\
    (forall a b, v g' a b = v g a b).
Proof.
  intros (HwU & HwV & HsU & HsV) Hi Hj. unfold setU.
  destruct (assign2_spec (_dataU g) i j val HwU)
    as (a' & -> & Hs & Hw & Hget & Hother);
    [rewrite HsU; simpl; lia | rewrite HsU; simpl; lia |].
  eexists. split; [reflexivity|]. split.
  { split; [|auto]. split; [assumption|]. split; [assumption|].
    simpl. split; [congruence | assumption]. }
  auto.
Qed.

Lemma setV_spec g i j (val : Q) :
  gridWellFormed g -> i < x (resolution g) -> j <= y (resolution g) ->
  exists g', setV g i j val = Some g' /\ sameShape g g' /\
    v g' i j = Some val /\
    (forall a b, (a, b) <> (i, j) -> v g' a b = v g a b) /\
    (forall a b, u g' a b = u g a b).
Proof.
  intros (HwU & HwV & HsU & HsV) Hi Hj. unfold setV.
  destruct (assign2_spec (_dataV g) i j val HwV)
    as (a' & -> & Hs & Hw & Hget & Hother);
    [rewrite HsV; simpl; lia | rewrite HsV; simpl; lia |].
  eexists. split; [reflexivity|]. split.
  { split; [|auto]. split; [assumption|]. split; [assumption|].
    simpl. split; [assumption | congruence]. }
  auto.
Qed.

Lemma filledGrid_wellFormed (size : Size2) value uPos vPos :
  fitsSizeT2 (mkSize2 (S (x size)) (S (y size))) ->
  gridWellFormed (filledGrid size value uPos vPos).
Proof.
  intros Hfit.
  assert (Hu : fitsSizeT2 (mkSize2 (S (x size)) (y size)))
    by (eapply fitsSizeT2_mono; [| |exact Hfit]; simpl; lia).
  assert (Hv : fitsSizeT2 (mkSize2 (x size) (S (y size))))
    by (eapply fitsSizeT2_mono; [| |exact Hfit]; simpl; lia).
  unfold gridWellFormed, filledGrid. simpl.
  split; [by apply filled2_wellFormed|].
  split; [by apply filled2_wellFormed|].
  split; by apply filled2_wellFormed.
Qed.
End FaceGridFacts.

Section NoFluxFacts.
Import Boundary2.
Implicit Types (g vel : FaceCenteredGrid2) (marker : Array2 Z).

Lemma markerIs_markerEq marker i j value :
  is_Some (at2 marker i j) ->
  markerIs marker i j value = Some (markerEq marker i j value).
Proof.
  intros [m Hm]. unfold markerIs, markerEq. by rewrite Hm.
Qed.

Lemma ltSizeMinusOne_lt i size :
  i < size -> ltSizeMinusOne i size = true -> i + 1 < size.
Proof.
  unfold ltSizeMinusOne. intros Hi.
  destruct (Nat.eqb_spec size 0); [lia|].
  rewrite Nat.ltb_lt. lia.
Qed.

(** One guarded write of a u-face. *)
Lemma guardedProjectU marker guard i' j' (c : Collider2) a0 b0 vel :
  gridWellFormed vel ->
  (guard = true -> is_Some (at2 marker i' j')) ->
  (guard = true -> a0 <= x (resolution vel) /\ b0 < y (resolution vel)) ->
  exists vel',
    whenFluidNeighbour marker guard i' j' (projectU (Some c) a0 b0) vel
      = Some vel' /\
    sameShape vel vel' /\
    (forall a b, u vel' a b =
       if (a =? a0) && (b =? b0) && guard && markerEq marker i' j' kFluid
       then Some (vx (velocityAt c (uPosition vel a b)))
       else u vel a b) /\
    (forall a b, v vel' a b = v vel a b).
Proof.
  intros Hwf Hread Hrange. unfold whenFluidNeighbour.
  destruct guard.
  - rewrite (markerIs_markerEq marker i' j' kFluid (Hread eq_refl)).
    destruct (markerEq marker i' j' kFluid).
    + destruct (Hrange eq_refl) as [Ha Hb]. unfold projectU.
      destruct (setU_spec vel a0 b0
                  (vx (velocityAt c (uPosition vel a0 b0))) Hwf Ha Hb)
        as (vel' & -> & Hshape & Hget & Hother & Hv).
      exists vel'. split; [reflexivity|]. split; [assumption|].
      split; [|assumption].
      intros a b.
      destruct (Nat.eqb_spec a a0) as [-> | Hne]; simpl.
      * destruct (Nat.eqb_spec b b0) as [-> | Hne]; simpl; [assumption|].
        apply Hother. congruence.
      * apply Hother. congruence.
    + exists vel. split; [reflexivity|]. split; [by apply sameShape_refl|].
      split; [|reflexivity].
      intros a b. by rewrite !andb_false_r.
  - exists vel. split; [reflexivity|]. split; [by apply sameShape_refl|].
    split; [|reflexivity].
    intros a b. by rewrite andb_false_r.
Qed.

(** One guarded write of a v-face. *)
Lemma guardedProjectV marker guard i' j' (c : Collider2) a0 b0 vel :
  gridWellFormed vel ->
  (guard = true -> is_Some (at2 marker i' j')) ->
  (guard = true -> a0 < x (resolution vel) /\ b0 <= y (resolution vel)) ->
  exists vel',
    whenFluidNeighbour marker guard i' j' (projectV (Some c) a0 b0) vel
      = Some vel' /\
    sameShape vel vel' /\
    (forall a b, v vel' a b =
       if (a =? a0) && (b =? b0) && guard && markerEq marker i' j' kFluid
       then Some (vy (velocityAt c (vPosition vel a b)))
       else v vel a b) /\
    (forall a b, u vel' a b = u vel a b).
Proof.
  intros Hwf Hread Hrange. unfold whenFluidNeighbour.
  destruct guard.
  - rewrite (markerIs_markerEq marker i' j' kFluid (Hread eq_refl)).
    destruct (markerEq marker i' j' kFluid).
    + destruct (Hrange eq_refl) as [Ha Hb]. unfold projectV.
      destruct (setV_spec vel a0 b0
                  (vy (velocityAt c (vPosition vel a0 b0))) Hwf Ha Hb)
        as (vel' & -> & Hshape & Hget & Hother & Hu).
      exists vel'. split; [reflexivity|]. split; [assumption|].
      split; [|assumption].
      intros a b.
      destruct (Nat.eqb_spec a a0) as [-> | Hne]; simpl.
      * destruct (Nat.eqb_spec b b0) as [-> | Hne]; simpl; [assumption|].
        apply Hother. congruence.
      * apply Hother. congruence.
    + exists vel. split; [reflexivity|]. split; [by apply sameShape_refl|].
      split; [|reflexivity].
      intros a b. by rewrite !andb_false_r.
  - exists vel. split; [reflexivity|]. split; [by apply sameShape_refl|].
    split; [|reflexivity].
    intros a b. by rewrite andb_false_r.
Qed.

(** The loop body at one cell. *)
Lemma noFluxAtCell_spec (s : Solver) (c : Collider2) vel i j :
  _collider s = Some c ->
  wellFormed2 (_marker s) ->
  size2 (_marker s) = resolution vel ->
  gridWellFormed vel ->
  i < x (resolution vel) -> j < y (resolution vel) ->
  exists vel',
    noFluxAtCell s (resolution vel) i j vel = Some vel' /\
    sameShape vel vel' /\
    (forall a b, u vel' a b =
       if writesU (_marker s) (resolution vel) i j a b
       then Some (vx (velocityAt c (uPosition vel a b)))
       else u vel a b) /\
    (forall a b, v vel' a b =
       if writesV (_marker s) (resolution vel) i j a b
       then Some (vy (velocityAt c (vPosition vel a b)))
       else v vel a b).
Proof.
  intros Hc Hwm Hsm Hwf Hi Hj. unfold noFluxAtCell. rewrite Hc.
  assert (Hread : forall i' j', i' < x (resolution vel) ->
            j' < y (resolution vel) -> is_Some (at2 (_marker s) i' j')).
  { intros i' j' Hi' Hj'. apply at2_is_Some; [assumption | | ];
      rewrite Hsm; assumption. }
  rewrite (markerIs_markerEq _ i j kCollider (Hread i j Hi Hj)).
  unfold writesU, writesV.
  destruct (markerEq (_marker s) i j kCollider); simpl.
  2:{ exists vel. split; [reflexivity|].
      split; [by apply sameShape_refl|]. split; reflexivity. }
  destruct (guardedProjectU (_marker s) (0 <? i) (i - 1) j c i j vel Hwf)
    as (vel1 & -> & Hs1 & Hu1 & Hv1).
  { rewrite Nat.ltb_lt. intros. apply Hread; lia. }
  { intros. lia. }
  destruct Hs1 as (Hwf1 & Hr1 & Hup1 & Hvp1).
  destruct (guardedProjectU (_marker s)
              (ltSizeMinusOne i (x (resolution vel))) (i + 1) j c (i + 1) j
              vel1 Hwf1)
    as (vel2 & -> & Hs2 & Hu2 & Hv2).
  { intros Hg. apply ltSizeMinusOne_lt in Hg; [|assumption].
    apply Hread; lia. }
  { intros Hg. apply ltSizeMinusOne_lt in Hg; [|assumption].
    rewrite Hr1. lia. }
  destruct Hs2 as (Hwf2 & Hr2 & Hup2 & Hvp2).
  destruct (guardedProjectV (_marker s) (0 <? j) i (j - 1) c i j vel2 Hwf2)
    as (vel3 & -> & Hs3 & Hv3 & Hu3).
  { rewrite Nat.ltb_lt. intros. apply Hread; lia. }
  { intros. rewrite Hr2, Hr1. lia. }
  destruct Hs3 as (Hwf3 & Hr3 & Hup3 & Hvp3).
  destruct (guardedProjectV (_marker s)
              (ltSizeMinusOne j (y (resolution vel))) i (j + 1) c i (j + 1)
              vel3 Hwf3)
    as (vel4 & -> & Hs4 & Hv4 & Hu4).
  { intros Hg. apply ltSizeMinusOne_lt in Hg; [|assumption].
    apply Hread; lia. }
  { intros Hg. apply ltSizeMinusOne_lt in Hg; [|assumption].
    rewrite Hr3, Hr2, Hr1. lia. }
  destruct Hs4 as (Hwf4 & Hr4 & Hup4 & Hvp4).
  exists vel4. split; [reflexivity|].
  split.
  { split; [assumption|]. split; [congruence|]. split; congruence. }
  split.
  - intros a b. rewrite Hu4, Hu3, Hu2, Hu1, Hup1.
    destruct (a =? i), (a =? i + 1), (b =? j), (0 <? i),
      (ltSizeMinusOne i (x (resolution vel))),
      (markerEq (_marker s) (i - 1) j kFluid),
      (markerEq (_marker s) (i + 1) j kFluid); reflexivity.
  - intros a b. rewrite Hv4, Hv3, Hv2, Hv1, Hvp3, Hvp2, Hvp1.
    destruct (a =? i), (b =? j), (b =? j + 1), (0 <? j),
      (ltSizeMinusOne j (y (resolution vel))),
      (markerEq (_marker s) i (j - 1) kFluid),
      (markerEq (_marker s) i (j + 1) kFluid); reflexivity.
Qed.
End NoFluxFacts.

Section NoFluxLoop.
Import Boundary2.
Context `{FractionalBase}.

Lemma touchedBefore_step w (size : Size2) j0 i0 :
  i0 < x size -> j0 < y size ->
  (touchedBefore w size j0 (S i0) <->
   touchedBefore w size j0 i0 \/ w i0 j0 = true).
Proof.
  intros Hi0 Hj0. unfold touchedBefore. split.
  - intros (i & j & Hi & Hj & Hpos & Hw).
    destruct (decide (i = i0 /\ j = j0)) as [[-> ->] | Hne]; [by right|].
    left. exists i, j. repeat split; try assumption. lia.
  - intros [(i & j & Hi & Hj & Hpos & Hw) | Hw].
    + exists i, j. repeat split; try assumption. lia.
    + exists i0, j0. repeat split; try assumption. lia.
Qed.

Lemma touchedBefore_row w (size : Size2) j0 :
  touchedBefore w size (S j0) 0 <-> touchedBefore w size j0 (x size).
Proof.
  unfold touchedBefore.
  split; intros (i & j & Hi & Hj & Hpos & Hw); exists i, j;
    repeat split; try assumption; lia.
Qed.

Lemma touchedBefore_start w (size : Size2) : ~ touchedBefore w size 0 0.
Proof. intros (i & j & _ & _ & Hpos & _). lia. Qed.

Lemma touchedBefore_end w (size : Size2) :
  touchedBefore w size (y size) 0 <->
  exists i j, i < x size /\ j < y size /\ w i j = true.
Proof.
  unfold touchedBefore.
  split; intros (i & j & Hi & Hj & Hrest); exists i, j.
  - destruct Hrest. auto.
  - repeat split; try assumption. lia.
Qed.

(** The loop over the markers: a face written by some cell holds the
    collider's velocity at the face, every other face is as before. *)
Lemma noFlux_spec (s : Solver) (c : Collider2) (vel1 : FaceCenteredGrid2) :
  _collider s = Some c ->
  wellFormed2 (_marker s) ->
  size2 (_marker s) = resolution vel1 ->
  gridWellFormed vel1 ->
  exists vel2,
    noFlux s vel1 = Some vel2 /\ sameShape vel1 vel2 /\
    forall a b,
      ((exists i j, i < x (resolution vel1) /\ j < y (resolution vel1) /\
                    writesU (_marker s) (resolution vel1) i j a b = true) ->
       u vel2 a b = Some (vx (velocityAt c (uPosition vel1 a b)))) /\
      ((forall i j, i < x (resolution vel1) -> j < y (resolution vel1) ->
                    writesU (_marker s) (resolution vel1) i j a b = false) ->
       u vel2 a b = u vel1 a b) /\
      ((exists i j, i < x (resolution vel1) /\ j < y (resolution vel1) /\
                    writesV (_marker s) (resolution vel1) i j a b = true) ->
       v vel2 a b = Some (vy (velocityAt c (vPosition vel1 a b)))) /\
      ((forall i j, i < x (resolution vel1) -> j < y (resolution vel1) ->
                    writesV (_marker s) (resolution vel1) i j a b = false) ->
       v vel2 a b = v vel1 a b).
Proof.
  intros Hc Hwm Hsm Hwf. unfold noFlux. rewrite Hsm.
  set (size := resolution vel1).
  set (wU := fun a b i j => writesU (_marker s) size i j a b).
  set (wV := fun a b i j => writesV (_marker s) size i j a b).
  pose (Inv := fun j0 i0 (vel : FaceCenteredGrid2) =>
    sameShape vel1 vel /\
    forall a b,
      (touchedBefore (wU a b) size j0 i0 ->
       u vel a b = Some (vx (velocityAt c (uPosition vel1 a b)))) /\
      (~ touchedBefore (wU a b) size j0 i0 -> u vel a b = u vel1 a b) /\
      (touchedBefore (wV a b) size j0 i0 ->
       v vel a b = Some (vy (velocityAt c (vPosition vel1 a b)))) /\
      (~ touchedBefore (wV a b) size j0 i0 -> v vel a b = v vel1 a b)).
  destruct (forEachIndex2_inv Inv size (noFluxAtCell s size) vel1)
    as (vel2 & Hrun & (Hshape & Hfin)).
  - split; [by apply sameShape_refl|].
    intros a b. repeat split; intros Ht; try reflexivity;
      by apply touchedBefore_start in Ht.
  - intros i j t Hi Hj ((Hwt & Hrt & Hupt & Hvpt) & Ht).
    destruct (noFluxAtCell_spec s c t i j Hc Hwm) as (t' & Hrun & Hs' & Hu & Hv);
      [congruence | assumption | rewrite Hrt; exact Hi | rewrite Hrt; exact Hj |].
    rewrite Hrt in Hrun, Hu, Hv. fold size in Hrun, Hu, Hv.
    exists t'. split; [assumption|]. split.
    { apply (sameShape_trans vel1 t t'); [|assumption].
      split; [assumption|]. auto. }
    intros a b. destruct (Ht a b) as (HtU & HnU & HtV & HnV).
    rewrite Hu, Hv, Hupt, Hvpt.
    rewrite !touchedBefore_step by assumption.
    fold (wU a b i j). fold (wV a b i j).
    repeat split.
    + intros Htouch. destruct (wU a b i j) eqn:E; [reflexivity|].
      apply HtU. destruct Htouch; [assumption | congruence].
    + intros Hnt. destruct (wU a b i j) eqn:E; [exfalso; apply Hnt; by right|].
      apply HnU. intros Hx. apply Hnt. by left.
    + intros Htouch. destruct (wV a b i j) eqn:E; [reflexivity|].
      apply HtV. destruct Htouch; [assumption | congruence].
    + intros Hnt. destruct (wV a b i j) eqn:E; [exfalso; apply Hnt; by right|].
      apply HnV. intros Hx. apply Hnt. by left.
  - intros j t Hj (Hs' & Ht). split; [assumption|].
    intros a b. rewrite !touchedBefore_row. apply Ht.
  - exists vel2. split; [assumption|]. split; [assumption|].
    intros a b. destruct (Hfin a b) as (HtU & HnU & HtV & HnV).
    repeat split.
    + intros Hex. apply HtU. by apply touchedBefore_end.
    + intros Hall. apply HnU. rewrite touchedBefore_end.
      intros (i & j & Hi & Hj & Hw). unfold wU in Hw.
      rewrite (Hall i j Hi Hj) in Hw. discriminate.
    + intros Hex. apply HtV. by apply touchedBefore_end.
    + intros Hall. apply HnV. rewrite touchedBefore_end.
      intros (i & j & Hi & Hj & Hw). unfold wV in Hw.
      rewrite (Hall i j Hi Hj) in Hw. discriminate.
Qed.

(** C4. The blocked solver first runs the projection of the fractional
    base class; on its result, for every cell marked collider with an
    axis-adjacent cell marked fluid, the velocity component on the
    shared face is the corresponding component of the collider's
    velocity at the position of that face; every face that is not
    shared by such a pair keeps the value the base class left. *)
Theorem blocked_constrainVelocity_projects_interface_faces
    (s : Solver) (c : Collider2) (velocity : FaceCenteredGrid2)
    (extrapolationDepth : nat) :
  let vel1 := fractionalConstrainVelocity s velocity extrapolationDepth in
  let nx := x (resolution vel1) in
  let ny := y (resolution vel1) in
  _collider s = Some c ->
  wellFormed2 (_marker s) ->
  size2 (_marker s) = resolution vel1 ->
  gridWellFormed vel1 ->
  exists vel2,
    constrainVelocity s velocity extrapolationDepth = Some vel2 /\
    resolution vel2 = resolution vel1 /\
    (forall i j, i < nx -> j < ny ->
       at2 (_marker s) i j = Some kCollider ->
       (0 < i -> at2 (_marker s) (i - 1) j = Some kFluid ->
        u vel2 i j = Some (vx (velocityAt c (uPosition vel1 i j)))) /\
       (i + 1 < nx -> at2 (_marker s) (i + 1) j = Some kFluid ->
        u vel2 (i + 1) j =
          Some (vx (velocityAt c (uPosition vel1 (i + 1) j)))) /\
       (0 < j -> at2 (_marker s) i (j - 1) = Some kFluid ->
        v vel2 i j = Some (vy (velocityAt c (vPosition vel1 i j)))) /\
       (j + 1 < ny -> at2 (_marker s) i (j + 1) = Some kFluid ->
        v vel2 i (j + 1) =
          Some (vy (velocityAt c (vPosition vel1 i (j + 1)))))) /\
    (forall a b,
       (forall i j, i < nx -> j < ny ->
          writesU (_marker s) (resolution vel1) i j a b = false) ->
       u vel2 a b = u vel1 a b) /\
    (forall a b,
       (forall i j, i < nx -> j < ny ->
          writesV (_marker s) (resolution vel1) i j a b = false) ->
       v vel2 a b = v vel1 a b).
Proof.
  intros vel1 nx ny Hc Hwm Hsm Hwf. unfold constrainVelocity. fold vel1.
  destruct (noFlux_spec s c vel1 Hc Hwm Hsm Hwf) as (vel2 & Hrun & Hshape & Hfaces).
  exists vel2. split; [assumption|]. split; [apply Hshape|].
  assert (HmEq : forall i j val, at2 (_marker s) i j = Some val ->
                   markerEq (_marker s) i j val = true).
  { intros i j val Hm. unfold markerEq. rewrite Hm. apply Z.eqb_refl. }
  split; [|split].
  - intros i j Hi Hj Hcell. repeat split.
    + intros Hpos Hn. apply (Hfaces i j). exists i, j.
      split; [assumption|]. split; [assumption|]. unfold writesU.
      rewrite (HmEq _ _ _ Hcell), (HmEq _ _ _ Hn), !Nat.eqb_refl.
      replace (0 <? i) with true by (symmetry; apply Nat.ltb_lt; lia).
      reflexivity.
    + intros Hpos Hn. apply (Hfaces (i + 1) j). exists i, j.
      split; [assumption|]. split; [assumption|]. unfold writesU.
      rewrite (HmEq _ _ _ Hcell), (HmEq _ _ _ Hn), !Nat.eqb_refl.
      replace (ltSizeMinusOne i (x (resolution vel1))) with true.
      { by rewrite orb_true_r. }
      symmetry. unfold ltSizeMinusOne.
      destruct (Nat.eqb_spec (x (resolution vel1)) 0); [reflexivity|].
      apply Nat.ltb_lt. fold nx. lia.
    + intros Hpos Hn. apply (Hfaces i j). exists i, j.
      split; [assumption|]. split; [assumption|]. unfold writesV.
      rewrite (HmEq _ _ _ Hcell), (HmEq _ _ _ Hn), !Nat.eqb_refl.
      replace (0 <? j) with true by (symmetry; apply Nat.ltb_lt; lia).
      reflexivity.
    + intros Hpos Hn. apply (Hfaces i (j + 1)). exists i, j.
      split; [assumption|]. split; [assumption|]. unfold writesV.
      rewrite (HmEq _ _ _ Hcell), (HmEq _ _ _ Hn), !Nat.eqb_refl.
      replace (ltSizeMinusOne j (y (resolution vel1))) with true.
      { by rewrite orb_true_r. }
      symmetry. unfold ltSizeMinusOne.
      destruct (Nat.eqb_spec (y (resolution vel1)) 0); [reflexivity|].
      apply Nat.ltb_lt. fold ny. lia.
  - intros a b Hall. by apply (Hfaces a b).
  - intros a b Hall. by apply (Hfaces a b).
Qed.
End NoFluxLoop.

Section ClosedDomainFacts.
Import Boundary2.
Implicit Types (g vel : FaceCenteredGrid2).

Lemma empty2_wellFormed {T : Type} : wellFormed2 (@empty2 T).
Proof. split; [split|]; reflexivity. Qed.

(** [for (j ...) u(i0, j) = 0]. *)
Lemma zeroColumnU_spec i0 vel :
  gridWellFormed vel -> i0 <= x (resolution vel) ->
  exists vel', zeroColumnU i0 vel = Some vel' /\ sameShape vel vel' /\
    (forall a b, b < y (resolution vel) ->
       u vel' a b = if a =? i0 then Some 0%Q else u vel a b) /\
    (forall a b, v vel' a b = v vel a b).
Proof.
  intros Hwf Hi0. unfold zeroColumnU.
  assert (Hsz : y (size2 (_dataU vel)) = y (resolution vel)).
  { destruct Hwf as (_ & _ & -> & _). reflexivity. }
  rewrite Hsz.
  destruct (forUpTo_inv (fun j0 t =>
      sameShape vel t /\
      (forall a b, u t a b =
         if (a =? i0) && (b <? j0) then Some 0%Q else u vel a b) /\
      (forall a b, v t a b = v vel a b))
    (fun j vel => setU vel i0 j 0%Q) (y (resolution vel)) vel)
    as (vel' & Hrun & Hshape & Hu & Hv).
  - split; [by apply sameShape_refl|]. split; [|reflexivity].
    intros a b. by rewrite andb_false_r.
  - intros j t Hj ((Hwt & Hrt & Hpt) & Hu & Hv).
    destruct (setU_spec t i0 j 0%Q Hwt) as (t' & -> & Hs' & Hget & Hother & Hv');
      [rewrite Hrt; lia | rewrite Hrt; lia |].
    exists t'. split; [reflexivity|]. split.
    { apply (sameShape_trans vel t t'); [|assumption]. split; auto. }
    split.
    + intros a b.
      destruct (decide ((a, b) = (i0, j))) as [E | NE].
      * injection E as -> ->. rewrite Hget, Nat.eqb_refl.
        replace (j <? S j) with true by (symmetry; apply Nat.ltb_lt; lia).
        reflexivity.
      * rewrite (Hother a b NE), Hu.
        destruct (Nat.eqb_spec a i0) as [-> | Hne]; simpl; [|reflexivity].
        assert (b <> j) by congruence.
        destruct (Nat.ltb_spec b j), (Nat.ltb_spec b (S j));
          try reflexivity; lia.
    + intros a b. by rewrite Hv'.
  - exists vel'. split; [assumption|]. split; [assumption|].
    split; [|assumption].
    intros a b Hb. rewrite Hu.
    replace (b <? y (resolution vel)) with true
      by (symmetry; apply Nat.ltb_lt; lia).
    by rewrite andb_true_r.
Qed.

(** [for (i ...) v(i, j0) = 0]. *)
Lemma zeroRowV_spec j0 vel :
  gridWellFormed vel -> j0 <= y (resolution vel) ->
  exists vel', zeroRowV j0 vel = Some vel' /\ sameShape vel vel' /\
    (forall a b, a < x (resolution vel) ->
       v vel' a b = if b =? j0 then Some 0%Q else v vel a b) /\
    (forall a b, u vel' a b = u vel a b).
Proof.
  intros Hwf Hj0. unfold zeroRowV.
  assert (Hsz : x (size2 (_dataV vel)) = x (resolution vel)).
  { destruct Hwf as (_ & _ & _ & ->). reflexivity. }
  rewrite Hsz.
  destruct (forUpTo_inv (fun i0 t =>
      sameShape vel t /\
      (forall a b, v t a b =
         if (b =? j0) && (a <? i0) then Some 0%Q else v vel a b) /\
      (forall a b, u t a b = u vel a b))
    (fun i vel => setV vel i j0 0%Q) (x (resolution vel)) vel)
    as (vel' & Hrun & Hshape & Hv & Hu).
  - split; [by apply sameShape_refl|]. split; [|reflexivity].
    intros a b. by rewrite andb_false_r.
  - intros i t Hi ((Hwt & Hrt & Hpt) & Hv & Hu).
    destruct (setV_spec t i j0 0%Q Hwt) as (t' & -> & Hs' & Hget & Hother & Hu');
      [rewrite Hrt; lia | rewrite Hrt; lia |].
    exists t'. split; [reflexivity|]. split.
    { apply (sameShape_trans vel t t'); [|assumption]. split; auto. }
    split.
    + intros a b.
      destruct (decide ((a, b) = (i, j0))) as [E | NE].
      * injection E as -> ->. rewrite Hget, Nat.eqb_refl.
        replace (i <? S i) with true by (symmetry; apply Nat.ltb_lt; lia).
        reflexivity.
      * rewrite (Hother a b NE), Hv.
        destruct (Nat.eqb_spec b j0) as [-> | Hne]; simpl; [|reflexivity].
        assert (a <> i) by congruence.
        destruct (Nat.ltb_spec a i), (Nat.ltb_spec a (S i));
          try reflexivity; lia.
    + intros a b. by rewrite Hu'.
  - exists vel'. split; [assumption|]. split; [assumption|].
    split; [|assumption].
    intros a b Ha. rewrite Hv.
    replace (a <? x (resolution vel)) with true
      by (symmetry; apply Nat.ltb_lt; lia).
    by rewrite andb_true_r.
Qed.

(** The closure of the domain boundary, face by face. *)
Lemma closeDomainBoundary_spec (flag : Z) vel :
  gridWellFormed vel ->
  0 < x (resolution vel) -> 0 < y (resolution vel) ->
  sameShape vel (closeDomainBoundary flag vel) /\
  (forall a b, b < y (resolution vel) ->
     u (closeDomainBoundary flag vel) a b =
       if ((a =? 0) && isClosed flag kDirectionLeft) ||
          ((a =? x (resolution vel)) && isClosed flag kDirectionRight)
       then Some 0%Q else u vel a b) /\
  (forall a b, a < x (resolution vel) ->
     v (closeDomainBoundary flag vel) a b =
       if ((b =? 0) && isClosed flag kDirectionDown) ||
          ((b =? y (resolution vel)) && isClosed flag kDirectionUp)
       then Some 0%Q else v vel a b).
Proof.
  intros Hwf Hx Hy. unfold closeDomainBoundary.
  destruct (Nat.eqb_spec (x (resolution vel)) 0); [lia|].
  destruct (Nat.eqb_spec (y (resolution vel)) 0); [lia|]. cbn [orb].
  (* left *)
  assert (H1 : exists vel1,
    whenClosed flag kDirectionLeft (zeroColumnU 0) vel = Some vel1 /\
    sameShape vel vel1 /\
    (forall a b, b < y (resolution vel) ->
       u vel1 a b = if (a =? 0) && isClosed flag kDirectionLeft
                    then Some 0%Q else u vel a b) /\
    (forall a b, v vel1 a b = v vel a b)).
  { unfold whenClosed. destruct (isClosed flag kDirectionLeft).
    - destruct (zeroColumnU_spec 0 vel Hwf ltac:(lia))
        as (vel1 & Hr & Hs & Hu & Hv).
      exists vel1. split; [assumption|]. split; [assumption|].
      split; [|assumption]. intros a b Hb. rewrite (Hu a b Hb).
      by rewrite andb_true_r.
    - exists vel. split; [reflexivity|]. split; [by apply sameShape_refl|].
      split; [|reflexivity]. intros a b _. by rewrite andb_false_r. }
  destruct H1 as (vel1 & -> & (Hwf1 & Hr1 & Hp1) & Hu1 & Hv1).
  (* right *)
  assert (Hsz1 : x (size2 (_dataU vel1)) - 1 = x (resolution vel)).
  { destruct Hwf1 as (_ & _ & -> & _). rewrite Hr1. simpl. lia. }
  rewrite Hsz1.
  assert (H2 : exists vel2,
    whenClosed flag kDirectionRight (zeroColumnU (x (resolution vel))) vel1
      = Some vel2 /\
    sameShape vel1 vel2 /\
    (forall a b, b < y (resolution vel) ->
       u vel2 a b =
         if (a =? x (resolution vel)) && isClosed flag kDirectionRight
         then Some 0%Q else u vel1 a b) /\
    (forall a b, v vel2 a b = v vel1 a b)).
  { unfold whenClosed. destruct (isClosed flag kDirectionRight).
    - destruct (zeroColumnU_spec (x (resolution vel)) vel1 Hwf1
                  ltac:(rewrite Hr1; lia))
        as (vel2 & Hr & Hs & Hu & Hv).
      exists vel2. split; [assumption|]. split; [assumption|].
      split; [|assumption]. intros a b Hb.
      rewrite (Hu a b ltac:(rewrite Hr1; exact Hb)).
      by rewrite andb_true_r.
    - exists vel1. split; [reflexivity|]. split; [by apply sameShape_refl|].
      split; [|reflexivity]. intros a b _. by rewrite andb_false_r. }
  destruct H2 as (vel2 & -> & (Hwf2 & Hr2 & Hp2) & Hu2 & Hv2).
  (* down *)
  assert (H3 : exists vel3,
    whenClosed flag kDirectionDown (zeroRowV 0) vel2 = Some vel3 /\
    sameShape vel2 vel3 /\
    (forall a b, a < x (resolution vel) ->
       v vel3 a b = if (b =? 0) && isClosed flag kDirectionDown
                    then Some 0%Q else v vel2 a b) /\
    (forall a b, u vel3 a b = u vel2 a b)).
  { unfold whenClosed. destruct (isClosed flag kDirectionDown).
    - destruct (zeroRowV_spec 0 vel2 Hwf2 ltac:(lia))
        as (vel3 & Hr & Hs & Hv & Hu).
      exists vel3. split; [assumption|]. split; [assumption|].
      split; [|assumption]. intros a b Ha.
      rewrite (Hv a b ltac:(rewrite Hr2, Hr1; exact Ha)).
      by rewrite andb_true_r.
    - exists vel2. split; [reflexivity|]. split; [by apply sameShape_refl|].
      split; [|reflexivity]. intros a b _. by rewrite andb_false_r. }
  destruct H3 as (vel3 & -> & (Hwf3 & Hr3 & Hp3) & Hv3 & Hu3).
  (* up *)
  assert (Hsz3 : y (size2 (_dataV vel3)) - 1 = y (resolution vel)).
  { destruct Hwf3 as (_ & _ & _ & ->). rewrite Hr3, Hr2, Hr1. simpl. lia. }
  rewrite Hsz3.
  assert (H4 : exists vel4,
    whenClosed flag kDirectionUp (zeroRowV (y (resolution vel))) vel3
      = Some vel4 /\
    sameShape vel3 vel4 /\
    (forall a b, a < x (resolution vel) ->
       v vel4 a b =
         if (b =? y (resolution vel)) && isClosed flag kDirectionUp
         then Some 0%Q else v vel3 a b) /\
    (forall a b, u vel4 a b = u vel3 a b)).
  { unfold whenClosed. destruct (isClosed flag kDirectionUp).
    - destruct (zeroRowV_spec (y (resolution vel)) vel3 Hwf3
                  ltac:(rewrite Hr3, Hr2, Hr1; lia))
        as (vel4 & Hr & Hs & Hv & Hu).
      exists vel4. split; [assumption|]. split; [assumption|].
      split; [|assumption]. intros a b Ha.
      rewrite (Hv a b ltac:(rewrite Hr3, Hr2, Hr1; exact Ha)).
      by rewrite andb_true_r.
    - exists vel3. split; [reflexivity|]. split; [by apply sameShape_refl|].
      split; [|reflexivity]. intros a b _. by rewrite andb_false_r. }
  destruct H4 as (vel4 & -> & (Hwf4 & Hr4 & Hp4) & Hv4 & Hu4).
  split.
  { split; [assumption|]. destruct Hp1, Hp2, Hp3, Hp4.
    split; [congruence|]. split; congruence. }
  split.
  - intros a b Hb. rewrite Hu4, Hu3, (Hu2 a b Hb), (Hu1 a b Hb).
    destruct (a =? 0), (a =? x (resolution vel)),
      (isClosed flag kDirectionLeft), (isClosed flag kDirectionRight);
      reflexivity.
  - intros a b Ha. rewrite (Hv4 a b Ha), (Hv3 a b Ha), Hv2, Hv1.
    destruct (b =? 0), (b =? y (resolution vel)),
      (isClosed flag kDirectionDown), (isClosed flag kDirectionUp);
      reflexivity.
Qed.
End ClosedDomainFacts.

Section ColliderUpdateFacts.
Import Boundary2.
Context `{FractionalBase}.

(** The markers built by [onColliderUpdated]: one per cell, collider
    where the cached signed distance is negative and fluid elsewhere. *)
Lemma onColliderUpdated_spec (s : Solver) (gridSize : Size2) :
  let sdf := fractionalColliderSdf s gridSize in
  Array3.wellFormed (_marker s) ->
  wellFormed2 sdf -> size2 sdf = gridSize ->
  exists s', onColliderUpdated s gridSize = Some s' /\
    _collider s' = _collider s /\
    _closedDomainBoundaryFlag s' = _closedDomainBoundaryFlag s /\
    wellFormed2 (_marker s') /\ size2 (_marker s') = gridSize /\
    forall i j, i < x gridSize -> j < y gridSize ->
      exists phi, at2 sdf i j = Some phi /\
        at2 (_marker s') i j =
          Some (if isInsideSdf phi then kCollider else kFluid).
Proof.
  intros sdf Hwm Hwsdf Hssdf. unfold onColliderUpdated. fold sdf.
  assert (Hres : exists marker0, resize2 (_marker s) gridSize 0%Z = Some marker0
            /\ size2 marker0 = gridSize /\ wellFormed2 marker0).
  { unfold resize2.
    assert (Hfit : fitsSizeT2 gridSize)
      by (rewrite <- Hssdf; by apply wellFormed2_fits).
    destruct (resize_spec (_marker s)
                (Array3.mkSize3 (x gridSize) (y gridSize) 1) 0%Z Hwm Hfit)
      as (a' & Ha & Hs & Hw & _).
    exists a'. split; [assumption|].
    split; [unfold size2; rewrite Hs; by destruct gridSize|].
    split; [assumption | by rewrite Hs]. }
  destruct Hres as (marker0 & -> & Hs0 & Hw0). rewrite Hs0.
  destruct (forEachIndex2_inv (fun j0 i0 (m : Array2 Z) =>
      wellFormed2 m /\ size2 m = gridSize /\
      forall i j, i < x gridSize -> j < y gridSize ->
        (j < j0 \/ (j = j0 /\ i < i0)) ->
        exists phi, at2 sdf i j = Some phi /\
          at2 m i j = Some (if isInsideSdf phi then kCollider else kFluid))
    gridSize (classifyCell sdf) marker0)
    as (marker & Hrun & Hwf & Hsz & Hcells).
  - split; [assumption|]. split; [assumption|]. intros i j _ _ Hpos. lia.
  - intros i j m Hi Hj (Hwf & Hsz & Hcells). unfold classifyCell.
    destruct (at2_is_Some sdf i j Hwsdf) as [phi Hphi];
      [rewrite Hssdf; lia | rewrite Hssdf; lia |].
    rewrite Hphi.
    destruct (assign2_spec m i j
                (if isInsideSdf phi then kCollider else kFluid) Hwf)
      as (m' & -> & Hs' & Hw' & Hget & Hother);
      [rewrite Hsz; lia | rewrite Hsz; lia |].
    exists m'. split; [reflexivity|]. split; [assumption|].
    split; [congruence|].
    intros i' j' Hi' Hj' Hpos.
    destruct (decide ((i', j') = (i, j))) as [E | NE].
    + injection E as -> ->. exists phi. auto.
    + rewrite (Hother i' j' NE). apply Hcells; [assumption..|].
      assert (~ (i' = i /\ j' = j)) by (intros [-> ->]; auto). lia.
  - intros j m Hj (Hwf & Hsz & Hcells). split; [assumption|].
    split; [assumption|].
    intros i' j' Hi' Hj' Hpos. apply Hcells; [assumption..|]. lia.
  - rewrite Hrun. eexists. split; [reflexivity|]. simpl.
    split; [reflexivity|]. split; [reflexivity|]. split; [assumption|].
    split; [assumption|].
    intros i j Hi Hj. apply Hcells; [assumption..|]. lia.
Qed.

(** Without a collider cell the loop over the markers changes
    nothing, with or without a collider. *)
Lemma noFlux_all_fluid (s : Solver) (vel : FaceCenteredGrid2) :
  (forall i j, i < x (size2 (_marker s)) -> j < y (size2 (_marker s)) ->
               at2 (_marker s) i j = Some kFluid) ->
  noFlux s vel = Some vel.
Proof.
  intros Hfluid. unfold noFlux.
  destruct (forEachIndex2_inv (fun _ _ t => t = vel) (size2 (_marker s))
              (noFluxAtCell s (resolution vel)) vel)
    as (vel' & Hrun & ->); auto.
  intros i j t Hi Hj ->. exists vel. split; [|reflexivity].
  unfold noFluxAtCell, markerIs. rewrite (Hfluid i j Hi Hj). reflexivity.
Qed.
End ColliderUpdateFacts.

Section ClosedDomain.
Import Boundary2.
Variable againstCollider :
  Collider2 -> Solver -> FaceCenteredGrid2 -> nat -> FaceCenteredGrid2.
Variable sampledSdf : Collider2 -> Size2 -> Array2 Q.

Lemma isInsideSdf_kMaxD : isInsideSdf kMaxD = false.
Proof. reflexivity. Qed.

(** C3. A solver with a null collider constrains a face-centred grid
    filled with one value as follows: a face on a side of the domain
    that is closed holds 0, every other face (the interior ones and the
    ones on open sides) holds the fill value.  With every direction
    closed (the flag of a new solver) these are exactly the faces
    i = 0, i = nx of u and j = 0, j = ny of v.  The grid is one whose
    arrays can be addressed: (nx + 1) * (ny + 1) is a [size_t]. *)
Theorem closed_domain_zeroes_boundary_faces
    (flag : Z) (nx ny : nat) (value : Vector2D)
    (uPos vPos : nat -> nat -> Vector2D) (extrapolationDepth : nat) :
  0 < nx -> 0 < ny ->
  fitsSizeT2 (mkSize2 (S nx) (S ny)) ->
  let base := specFractionalBase againstCollider sampledSdf in
  let velocity := filledGrid (mkSize2 nx ny) value uPos vPos in
  exists s vel',
    @updateCollider base (setClosedDomainBoundaryFlag newSolver flag)
      None (mkSize2 nx ny) = Some s /\
    @constrainVelocity base s velocity extrapolationDepth = Some vel' /\
    (forall i j, i <= nx -> j < ny ->
       u vel' i j =
         Some (if ((i =? 0) && isClosed flag kDirectionLeft) ||
                  ((i =? nx) && isClosed flag kDirectionRight)
               then 0%Q else vx value)) /\
    (forall i j, i < nx -> j <= ny ->
       v vel' i j =
         Some (if ((j =? 0) && isClosed flag kDirectionDown) ||
                  ((j =? ny) && isClosed flag kDirectionUp)
               then 0%Q else vy value)) /\
    (flag = kDirectionAll ->
       (forall i j, i <= nx -> j < ny ->
          u vel' i j =
            Some (if (i =? 0) || (i =? nx) then 0%Q else vx value)) /\
       (forall i j, i < nx -> j <= ny ->
          v vel' i j =
            Some (if (j =? 0) || (j =? ny) then 0%Q else vy value))).
Proof.
  intros Hnx Hny Hfit base velocity.
  assert (Hfit0 : fitsSizeT2 (mkSize2 nx ny))
    by (eapply fitsSizeT2_mono; [| |exact Hfit]; simpl; lia).
  set (s0 := mkSolver (mkSize2 nx ny) None flag
               (@empty2 Q) (@empty2 Z)).
  destruct (@onColliderUpdated_spec base s0 (mkSize2 nx ny))
    as (s & Hs & Hcol & Hflag & Hwm & Hsm & Hcells).
  { split; reflexivity. }
  { by apply filled2_wellFormed. }
  { by apply filled2_wellFormed. }
  assert (Hfluid : forall i j, i < x (size2 (_marker s)) ->
            j < y (size2 (_marker s)) -> at2 (_marker s) i j = Some kFluid).
  { rewrite Hsm. intros i j Hi Hj.
    destruct (Hcells i j Hi Hj) as (phi & Hphi & Hm).
    simpl in Hphi. rewrite at2_filled2 in Hphi by assumption.
    injection Hphi as <-. rewrite Hm, isInsideSdf_kMaxD. reflexivity. }
  assert (Hwf : gridWellFormed velocity)
    by (by apply filledGrid_wellFormed).
  destruct (closeDomainBoundary_spec flag velocity Hwf Hnx Hny)
    as (Hshape & Hu & Hv).
  exists s, (closeDomainBoundary flag velocity).
  split; [exact Hs|].
  split.
  { unfold constrainVelocity. simpl. rewrite Hcol, Hflag. simpl.
    by apply noFlux_all_fluid. }
  assert (HU : forall i j, i <= nx -> j < ny ->
    u (closeDomainBoundary flag velocity) i j =
      Some (if ((i =? 0) && isClosed flag kDirectionLeft) ||
               ((i =? nx) && isClosed flag kDirectionRight)
            then 0%Q else vx value)).
  { intros i j Hi Hj. rewrite (Hu i j Hj). simpl.
    destruct (((i =? 0) && isClosed flag kDirectionLeft) ||
              ((i =? nx) && isClosed flag kDirectionRight));
      [reflexivity|].
    unfold u, velocity, filledGrid. cbn [_dataU].
    apply at2_filled2;
      [eapply fitsSizeT2_mono; [| |exact Hfit]; simpl; lia
      | simpl; lia | simpl; lia]. }
  assert (HV : forall i j, i < nx -> j <= ny ->
    v (closeDomainBoundary flag velocity) i j =
      Some (if ((j =? 0) && isClosed flag kDirectionDown) ||
               ((j =? ny) && isClosed flag kDirectionUp)
            then 0%Q else vy value)).
  { intros i j Hi Hj. rewrite (Hv i j Hi). simpl.
    destruct (((j =? 0) && isClosed flag kDirectionDown) ||
              ((j =? ny) && isClosed flag kDirectionUp));
      [reflexivity|].
    unfold v, velocity, filledGrid. cbn [_dataV].
    apply at2_filled2;
      [eapply fitsSizeT2_mono; [| |exact Hfit]; simpl; lia
      | simpl; lia | simpl; lia]. }
  split; [exact HU|]. split; [exact HV|].
  intros ->. split.
  - intros i j Hi Hj. rewrite (HU i j Hi Hj).
    change (isClosed kDirectionAll kDirectionLeft) with true.
    change (isClosed kDirectionAll kDirectionRight) with true.
    by rewrite !andb_true_r.
  - intros i j Hi Hj. rewrite (HV i j Hi Hj).
    change (isClosed kDirectionAll kDirectionDown) with true.
    change (isClosed kDirectionAll kDirectionUp) with true.
    by rewrite !andb_true_r.
Qed.
End ClosedDomain.

(** ** The statements at concrete grids *)

(** The statement of C4 on a 2 x 1 grid whose left cell is inside a
    collider moving with velocity (3, 5). *)
Lemma blocked_constrainVelocity_projects_interface_faces_witness :
  let s := Boundary2.sampleSolver in
  let c := Boundary2.sampleCollider in
  let vel1 := @Boundary2.fractionalConstrainVelocity Boundary2.sampleBase
                s Boundary2.sampleGrid 5 in
  (Boundary2._collider s = Some c /\
   Boundary2.wellFormed2 (Boundary2._marker s) /\
   Boundary2.size2 (Boundary2._marker s) = Boundary2.resolution vel1 /\
   Boundary2.gridWellFormed vel1) /\
  exists vel2,
    @Boundary2.constrainVelocity Boundary2.sampleBase s Boundary2.sampleGrid 5
      = Some vel2 /\
    Boundary2.u vel2 1 0 = Some 3%Q.
Proof.
  intros s c vel1.
  assert (Hc : Boundary2._collider s = Some c) by reflexivity.
  assert (Hm : Boundary2.wellFormed2 (Boundary2._marker s))
    by (split; [split|]; reflexivity).
  assert (Hs : Boundary2.size2 (Boundary2._marker s) = Boundary2.resolution vel1)
    by reflexivity.
  assert (Hg : Boundary2.gridWellFormed vel1)
    by (repeat split; reflexivity).
  split; [auto|].
  destruct (@blocked_constrainVelocity_projects_interface_faces
              Boundary2.sampleBase s c Boundary2.sampleGrid 5 Hc Hm Hs Hg)
    as (vel2 & Hrun & _ & Hfaces & _).
  exists vel2. split; [exact Hrun|].
  destruct (Hfaces 0 0) as (_ & Hright & _); [simpl; lia | simpl; lia | reflexivity |].
  apply Hright; [simpl; lia | reflexivity].
Defined.

Example blocked_constrainVelocity_sample :
  (@Boundary2.constrainVelocity Boundary2.sampleBase Boundary2.sampleSolver
     Boundary2.sampleGrid 5
     ≫= fun vel => Some (Array3._data (Boundary2._dataU vel),
                         Array3._data (Boundary2._dataV vel)))
  = Some ([1%Q; 3%Q; 1%Q], [1%Q; 1%Q; 1%Q; 1%Q]).
Proof. reflexivity. Qed.

(** The statement of C3 on a 2 x 2 grid with the left and the upper side
    closed. *)
Lemma closed_domain_zeroes_boundary_faces_witness :
  (0 < 2 /\ 0 < 2 /\
   Boundary2.fitsSizeT2 (Boundary2.mkSize2 3 3)) /\
  let base := Boundary2.specFractionalBase (fun _ _ vel _ => vel)
                (fun _ size => Boundary2.filled2 size 0%Q) in
  let velocity := Boundary2.filledGrid (Boundary2.mkSize2 2 2)
                    (Boundary2.mkVector2D 1 1)
                    Boundary2.samplePosition Boundary2.samplePosition in
  exists s vel',
    @Boundary2.updateCollider base
      (Boundary2.setClosedDomainBoundaryFlag Boundary2.newSolver 9)
      None (Boundary2.mkSize2 2 2) = Some s /\
    @Boundary2.constrainVelocity base s velocity 5 = Some vel' /\
    (forall i j, i <= 2 -> j < 2 ->
       Boundary2.u vel' i j =
         Some (if ((i =? 0) && Boundary2.isClosed 9 Boundary2.kDirectionLeft) ||
                  ((i =? 2) && Boundary2.isClosed 9 Boundary2.kDirectionRight)
               then 0%Q else Boundary2.vx (Boundary2.mkVector2D 1 1))) /\
    (forall i j, i < 2 -> j <= 2 ->
       Boundary2.v vel' i j =
         Some (if ((j =? 0) && Boundary2.isClosed 9 Boundary2.kDirectionDown) ||
                  ((j =? 2) && Boundary2.isClosed 9 Boundary2.kDirectionUp)
               then 0%Q else Boundary2.vy (Boundary2.mkVector2D 1 1))) /\
    (9%Z = Boundary2.kDirectionAll ->
       (forall i j, i <= 2 -> j < 2 ->
          Boundary2.u vel' i j =
            Some (if (i =? 0) || (i =? 2) then 0%Q
                  else Boundary2.vx (Boundary2.mkVector2D 1 1))) /\
       (forall i j, i < 2 -> j <= 2 ->
          Boundary2.v vel' i j =
            Some (if (j =? 0) || (j =? 2) then 0%Q
                  else Boundary2.vy (Boundary2.mkVector2D 1 1)))).
Proof.
  split; [split; [lia | split; [lia | reflexivity]]|].
  apply (closed_domain_zeroes_boundary_faces
           (fun _ _ vel _ => vel)
           (fun _ size => Boundary2.filled2 size 0%Q)
           9 2 2 (Boundary2.mkVector2D 1 1)
           Boundary2.samplePosition Boundary2.samplePosition 5);
    (lia || reflexivity).
Defined.

(** The two unit tests of the solver, on a 2 x 2 grid: the storage of u
    and of v after [constrainVelocity], all sides closed and then with
    only the left and the upper side closed. *)
Example closed_and_open_domain_samples :
  let base := Boundary2.specFractionalBase (fun _ _ vel _ => vel)
                (fun _ size => Boundary2.filled2 size 0%Q) in
  let velocity := Boundary2.filledGrid (Boundary2.mkSize2 2 2)
                    (Boundary2.mkVector2D 1 1)
                    Boundary2.samplePosition Boundary2.samplePosition in
  let run := fun flag =>
    @Boundary2.updateCollider base
      (Boundary2.setClosedDomainBoundaryFlag Boundary2.newSolver flag)
      None (Boundary2.mkSize2 2 2)
    ≫= fun s => @Boundary2.constrainVelocity base s velocity 5
    ≫= fun vel => Some (Array3._data (Boundary2._dataU vel),
                        Array3._data (Boundary2._dataV vel)) in
  run Boundary2.kDirectionAll =
    Some ([0%Q; 1%Q; 0%Q; 0%Q; 1%Q; 0%Q], [0%Q; 0%Q; 1%Q; 1%Q; 0%Q; 0%Q]) /\
  run (Z.lor Boundary2.kDirectionLeft Boundary2.kDirectionUp) =
    Some ([0%Q; 1%Q; 1%Q; 0%Q; 1%Q; 1%Q], [1%Q; 1%Q; 1%Q; 1%Q; 0%Q; 0%Q]).
Proof. split; reflexivity. Qed.


(** ** Further properties of the blocked solver *)

Section BlockedSolverProperties.
Import Boundary2.
Context `{FractionalBase}.

Lemma at2_Some_inBounds {T : Type} (a : Array2 T) i j :
  is_Some (at2 a i j) -> i < x (size2 a) /\ j < y (size2 a).
Proof.
  unfold at2, Array3.at_. intros [val Hval].
  destruct (Array3.inBounds (Array3._size a) i j 0) eqn:Hin; [|discriminate].
  apply inBounds_true in Hin. unfold size2. simpl. lia.
Qed.

(** Two arrays of one page with the same extent that read the same at
    every index are equal. *)
Lemma array2_ext {T : Type} (a b : Array2 T) :
  wellFormed2 a -> wellFormed2 b -> size2 a = size2 b ->
  (forall i j, at2 a i j = at2 b i j) -> a = b.
Proof.
  intros [Hwa Hza] [Hwb Hzb] Hsize Hat.
  apply array_ext; [assumption | assumption | |].
  - unfold size2 in Hsize. injection Hsize as Hx Hy.
    destruct (Array3._size a), (Array3._size b). simpl in *. congruence.
  - intros i j k _ _ Hk. assert (k = 0) by lia. subst k. apply Hat.
Qed.

Lemma grid_ext (g g' : FaceCenteredGrid2) :
  sameShape g g' -> gridWellFormed g ->
  (forall a b, u g' a b = u g a b) ->
  (forall a b, v g' a b = v g a b) ->
  g' = g.
Proof.
  intros ((HwU' & HwV' & HsU' & HsV') & Hres & HuP & HvP)
         (HwU & HwV & HsU & HsV) Hu Hv.
  destruct g as [res dU dV uP vP], g' as [res' dU' dV' uP' vP'].
  simpl in *. subst res' uP' vP'.
  f_equal.
  - apply array2_ext; [assumption | assumption | congruence | exact Hu].
  - apply array2_ext; [assumption | assumption | congruence | exact Hv].
Qed.

Lemma markerEq_true marker i j value :
  markerEq marker i j value = true -> at2 marker i j = Some value.
Proof.
  unfold markerEq. destruct (at2 marker i j) as [m|]; [|discriminate].
  intros E. apply Z.eqb_eq in E. by subst.
Qed.

Lemma writesU_inv marker size i j a b :
  writesU marker size i j a b = true ->
  is_Some (at2 marker i j) /\ b = j /\ (a = i \/ a = i + 1).
Proof.
  unfold writesU. rewrite !andb_true_iff, orb_true_iff, !andb_true_iff.
  rewrite !Nat.eqb_eq.
  intros [[Hm Hb] Hcase]. apply markerEq_true in Hm.
  split; [by rewrite Hm|]. split; [assumption|]. tauto.
Qed.

Lemma writesV_inv marker size i j a b :
  writesV marker size i j a b = true ->
  is_Some (at2 marker i j) /\ a = i /\ (b = j \/ b = j + 1).
Proof.
  unfold writesV. rewrite !andb_true_iff, orb_true_iff, !andb_true_iff.
  rewrite !Nat.eqb_eq.
  intros [[Hm Ha] Hcase]. apply markerEq_true in Hm.
  split; [by rewrite Hm|]. split; [assumption|]. tauto.
Qed.

(** X14. [onColliderUpdated] gives every cell of the grid a marker: the
    cell is a collider cell exactly where the signed distance cached by
    the base class is negative, and a fluid cell where it is zero or
    positive.  The collider itself is not consulted. *)
Theorem onColliderUpdated_classifies_every_cell (s : Solver)
    (gridSize : Size2) :
  let sdf := fractionalColliderSdf s gridSize in
  Array3.wellFormed (_marker s) ->
  wellFormed2 sdf -> size2 sdf = gridSize ->
  exists s', onColliderUpdated s gridSize = Some s' /\
    _colliderSdf s' = sdf /\ _collider s' = _collider s /\
    size2 (_marker s') = gridSize /\
    forall i j, i < x gridSize -> j < y gridSize ->
      exists phi, at2 sdf i j = Some phi /\
        (phi < 0 -> at2 (_marker s') i j = Some kCollider)%Q /\
        (0 <= phi -> at2 (_marker s') i j = Some kFluid)%Q.
Proof.
  intros sdf Hwm Hwsdf Hssdf.
  destruct (onColliderUpdated_spec s gridSize Hwm Hwsdf Hssdf)
    as (s' & Hrun & Hc & _ & _ & Hsz & Hcells).
  exists s'. split; [exact Hrun|].
  split.
  { unfold onColliderUpdated in Hrun.
    destruct (resize2 _ _ _) as [marker0|]; [|discriminate].
    destruct (forEachIndex2 _ _ _) as [marker|]; [|discriminate].
    by injection Hrun as <-. }
  split; [exact Hc|]. split; [exact Hsz|].
  intros i j Hi Hj. destruct (Hcells i j Hi Hj) as (phi & Hphi & Hm).
  exists phi. split; [exact Hphi|]. fold sdf in Hm. rewrite Hm.
  unfold isInsideSdf. split; intros Hsign.
  - by rewrite (proj2 (Qltb_lt phi 0) Hsign).
  - by rewrite (proj2 (Qltb_ge phi 0) Hsign).
Qed.

(** X15. The result of [constrainVelocity] is a fixed point of the
    no-flux pass: running the loop over the markers again on it changes
    no face. *)
Theorem constrained_velocity_is_fixed_point_of_no_flux
    (s : Solver) (c : Collider2) (velocity : FaceCenteredGrid2)
    (extrapolationDepth : nat) :
  let vel1 := fractionalConstrainVelocity s velocity extrapolationDepth in
  _collider s = Some c ->
  wellFormed2 (_marker s) ->
  size2 (_marker s) = resolution vel1 ->
  gridWellFormed vel1 ->
  exists vel2,
    constrainVelocity s velocity extrapolationDepth = Some vel2 /\
    noFlux s vel2 = Some vel2.
Proof.
  intros vel1 Hc Hwm Hsm Hwf. unfold constrainVelocity. fold vel1.
  destruct (noFlux_spec s c vel1 Hc Hwm Hsm Hwf)
    as (vel2 & Hrun & Hshape & Hfaces).
  exists vel2. split; [exact Hrun|].
  pose proof Hshape as (Hwf2 & Hres2 & HuP & HvP).
  destruct (noFlux_spec s c vel2 Hc Hwm ltac:(congruence) Hwf2)
    as (vel3 & Hrun3 & Hshape3 & Hfaces3).
  rewrite Hrun3. f_equal.
  rewrite Hres2 in Hfaces3.
  set (size := resolution vel1) in *.
  assert (Hrange : forall i j, is_Some (at2 (_marker s) i j) ->
                     i < x size /\ j < y size).
  { intros i j Hsome. apply at2_Some_inBounds in Hsome.
    by rewrite Hsm in Hsome. }
  apply (grid_ext vel2 vel3 Hshape3 Hwf2).
  - intros a b.
    destruct (Hfaces a b) as (Hw & _ & _ & _).
    destruct (Hfaces3 a b) as (Hw3 & Hn3 & _ & _).
    destruct (writesU (_marker s) size a b a b ||
              writesU (_marker s) size (a - 1) b a b) eqn:D.
    + assert (Hex : exists i j, i < x size /\ j < y size /\
                      writesU (_marker s) size i j a b = true).
      { apply orb_true_iff in D as [D | D].
        - exists a, b. destruct (writesU_inv _ _ _ _ _ _ D) as (Hsome & _).
          destruct (Hrange _ _ Hsome). auto.
        - exists (a - 1), b.
          destruct (writesU_inv _ _ _ _ _ _ D) as (Hsome & _).
          destruct (Hrange _ _ Hsome). auto. }
      rewrite (Hw Hex), (Hw3 Hex). by rewrite HuP.
    + apply Hn3. intros i j Hi Hj.
      destruct (writesU (_marker s) size i j a b) eqn:E; [|reflexivity].
      destruct (writesU_inv _ _ _ _ _ _ E) as (_ & -> & [-> | ->]).
      * rewrite E in D. discriminate.
      * replace (i + 1 - 1) with i in D by lia.
        rewrite E, orb_true_r in D. discriminate.
  - intros a b.
    destruct (Hfaces a b) as (_ & _ & Hw & _).
    destruct (Hfaces3 a b) as (_ & _ & Hw3 & Hn3).
    destruct (writesV (_marker s) size a b a b ||
              writesV (_marker s) size a (b - 1) a b) eqn:D.
    + assert (Hex : exists i j, i < x size /\ j < y size /\
                      writesV (_marker s) size i j a b = true).
      { apply orb_true_iff in D as [D | D].
        - exists a, b. destruct (writesV_inv _ _ _ _ _ _ D) as (Hsome & _).
          destruct (Hrange _ _ Hsome). auto.
        - exists a, (b - 1).
          destruct (writesV_inv _ _ _ _ _ _ D) as (Hsome & _).
          destruct (Hrange _ _ Hsome). auto. }
      rewrite (Hw Hex), (Hw3 Hex). by rewrite HvP.
    + apply Hn3. intros i j Hi Hj.
      destruct (writesV (_marker s) size i j a b) eqn:E; [|reflexivity].
      destruct (writesV_inv _ _ _ _ _ _ E) as (_ & -> & [-> | ->]).
      * rewrite E in D. discriminate.
      * replace (j + 1 - 1) with j in D by lia.
        rewrite E, orb_true_r in D. discriminate.
Qed.

(** X16. When the signed distance that the base class caches is nowhere
    negative, [updateCollider] marks every cell fluid, and from then on
    [constrainVelocity] returns exactly what the base class returns, for
    every velocity grid, with or without a collider. *)
Theorem blocked_solver_without_collider_cells_is_the_base_solver
    (s : Solver) (newCollider : option Collider2) (gridSize : Size2) :
  let s0 := mkSolver gridSize newCollider (_closedDomainBoundaryFlag s)
                     (_colliderSdf s) (_marker s) in
  let sdf := fractionalColliderSdf s0 gridSize in
  Array3.wellFormed (_marker s) ->
  wellFormed2 sdf -> size2 sdf = gridSize ->
  (forall i j phi, at2 sdf i j = Some phi -> (0 <= phi)%Q) ->
  exists s', updateCollider s newCollider gridSize = Some s' /\
    _collider s' = newCollider /\
    forall velocity extrapolationDepth,
      constrainVelocity s' velocity extrapolationDepth =
      Some (fractionalConstrainVelocity s' velocity extrapolationDepth).
Proof.
  intros s0 sdf Hwm Hwsdf Hssdf Hpos. unfold updateCollider. fold s0.
  destruct (onColliderUpdated_spec s0 gridSize Hwm Hwsdf Hssdf)
    as (s' & Hrun & Hc & _ & _ & Hsz & Hcells).
  exists s'. split; [exact Hrun|]. split; [exact Hc|].
  intros velocity depth. unfold constrainVelocity.
  apply noFlux_all_fluid. rewrite Hsz. intros i j Hi Hj.
  destruct (Hcells i j Hi Hj) as (phi & Hphi & ->).
  fold sdf in Hphi. unfold isInsideSdf.
  by rewrite (proj2 (Qltb_ge phi 0) (Hpos i j phi Hphi)).
Qed.

End BlockedSolverProperties.

Lemma onColliderUpdated_classifies_every_cell_witness :
  let s := Boundary2.sampleSolver in
  let sdf := @Boundary2.fractionalColliderSdf Boundary2.sampleBase s
               (Boundary2.mkSize2 2 1) in
  (Array3.wellFormed (Boundary2._marker s) /\
   Boundary2.wellFormed2 sdf /\
   Boundary2.size2 sdf = Boundary2.mkSize2 2 1) /\
  exists s',
    @Boundary2.onColliderUpdated Boundary2.sampleBase s
      (Boundary2.mkSize2 2 1) = Some s' /\
    Boundary2.at2 (Boundary2._marker s') 0 0 = Some Boundary2.kCollider /\
    Boundary2.at2 (Boundary2._marker s') 1 0 = Some Boundary2.kFluid.
Proof.
  intros s sdf.
  assert (Hm : Array3.wellFormed (Boundary2._marker s))
    by (split; reflexivity).
  assert (Hw : Boundary2.wellFormed2 sdf) by (split; [split|]; reflexivity).
  assert (Hs : Boundary2.size2 sdf = Boundary2.mkSize2 2 1) by reflexivity.
  split; [auto|].
  destruct (@onColliderUpdated_classifies_every_cell Boundary2.sampleBase
              s (Boundary2.mkSize2 2 1) Hm Hw Hs)
    as (s' & Hrun & _ & _ & _ & Hcells).
  exists s'. split; [exact Hrun|]. split.
  - destruct (Hcells 0 0) as (phi & Hphi & Hneg & _);
      [simpl; lia | simpl; lia |].
    apply Hneg. injection Hphi as <-. reflexivity.
  - destruct (Hcells 1 0) as (phi & Hphi & _ & Hpos);
      [simpl; lia | simpl; lia |].
    apply Hpos. injection Hphi as <-. discriminate.
Defined.

Lemma constrained_velocity_is_fixed_point_of_no_flux_witness :
  let s := Boundary2.sampleSolver in
  let c := Boundary2.sampleCollider in
  let vel1 := @Boundary2.fractionalConstrainVelocity Boundary2.sampleBase
                s Boundary2.sampleGrid 5 in
  (Boundary2._collider s = Some c /\
   Boundary2.wellFormed2 (Boundary2._marker s) /\
   Boundary2.size2 (Boundary2._marker s) = Boundary2.resolution vel1 /\
   Boundary2.gridWellFormed vel1) /\
  exists vel2,
    @Boundary2.constrainVelocity Boundary2.sampleBase s Boundary2.sampleGrid 5
      = Some vel2 /\
    Boundary2.noFlux s vel2 = Some vel2.
Proof.
  intros s c vel1.
  assert (Hc : Boundary2._collider s = Some c) by reflexivity.
  assert (Hm : Boundary2.wellFormed2 (Boundary2._marker s))
    by (split; [split|]; reflexivity).
  assert (Hs : Boundary2.size2 (Boundary2._marker s) = Boundary2.resolution vel1)
    by reflexivity.
  assert (Hg : Boundary2.gridWellFormed vel1)
    by (repeat split; reflexivity).
  split; [auto|].
  exact (@constrained_velocity_is_fixed_point_of_no_flux
           Boundary2.sampleBase s c Boundary2.sampleGrid 5 Hc Hm Hs Hg).
Defined.

Lemma blocked_solver_without_collider_cells_is_the_base_solver_witness :
  let base := Boundary2.specFractionalBase (fun _ _ vel _ => vel)
                (fun _ size => Boundary2.filled2 size 0%Q) in
  exists s',
    @Boundary2.updateCollider base Boundary2.newSolver None
      (Boundary2.mkSize2 2 2) = Some s' /\
    Boundary2._collider s' = None /\
    @Boundary2.constrainVelocity base s' Boundary2.sampleGrid 5 =
      Some (@Boundary2.fractionalConstrainVelocity base s'
              Boundary2.sampleGrid 5).
Proof.
  intros base.
  destruct (@blocked_solver_without_collider_cells_is_the_base_solver
              base Boundary2.newSolver None (Boundary2.mkSize2 2 2))
    as (s' & Hrun & Hc & Hsame).
  - split; reflexivity.
  - split; [split|]; reflexivity.
  - reflexivity.
  - intros i j phi Hphi.
    unfold Boundary2.at2, Array3.at_ in Hphi.
    destruct (Array3.inBounds _ i j 0); [|discriminate].
    apply lookup_replicate in Hphi as [-> _]. discriminate.
  - exists s'. split; [exact Hrun|]. split; [exact Hc|]. apply Hsame.
Defined.


(** * The frame and sub-step driver *)
Section NumberFacts.
Local Open Scope Q_scope.

Lemma inject_Z_of_nat_S (n : nat) :
  inject_Z (Z.of_nat (S n)) == inject_Z (Z.of_nat n) + 1.
Proof. rewrite Nat2Z.inj_succ. unfold Z.succ. rewrite inject_Z_plus. reflexivity. Qed.

Lemma inject_Z_of_nat_nonneg (n : nat) : 0 <= inject_Z (Z.of_nat n).
Proof. change 0 with (inject_Z 0). rewrite <- Zle_Qle. lia. Qed.

Lemma inject_Z_of_N_le (n m : N) :
  (n <= m)%N -> inject_Z (Z.of_N n) <= inject_Z (Z.of_N m).
Proof. intros. rewrite <- Zle_Qle. lia. Qed.

(** One part of [n] equal parts, for [1 <= n <= b]: it is at most the
    whole and [b] of them are at least the whole. *)
Lemma equal_part_bounds (rem : Q) (n b : N) :
  0 < rem -> (1 <= n)%N -> (n <= b)%N ->
  let q := rem / inject_Z (Z.of_N n) in
  0 < q /\ q <= rem /\ rem <= q * inject_Z (Z.of_N b).
Proof.
  intros Hrem Hn Hb q.
  assert (Hn1 : 1 <= inject_Z (Z.of_N n))
    by (change 1 with (inject_Z (Z.of_N 1)); by apply inject_Z_of_N_le).
  assert (Hnb := inject_Z_of_N_le n b Hb).
  assert (Hq : inject_Z (Z.of_N n) * q == rem).
  { unfold q. apply Qmult_div_r. intros E. rewrite E in Hn1. lra. }
  assert (Hqpos : 0 < q).
  { unfold q. apply Qlt_shift_div_l; lra. }
  repeat split; [assumption | nra | nra].
Qed.
End NumberFacts.

Section EventFacts.
Import PhysicsAnimation.
Local Open Scope Q_scope.

Lemma subSteps_app (e1 e2 : list Event) :
  subSteps (e1 ++ e2) = subSteps e1 ++ subSteps e2.
Proof.
  induction e1 as [|e rest IH]; [reflexivity|].
  destruct e; simpl; rewrite IH; reflexivity.
Qed.

Lemma Qsum_app (l1 l2 : list Q) : Qsum (l1 ++ l2) == Qsum l1 + Qsum l2.
Proof.
  induction l1 as [|q rest IH]; simpl; [lra | rewrite IH; lra].
Qed.





Lemma sameSettings_refl {U : Type} (s : State U) : sameSettings s s.
Proof. repeat split. Qed.

Lemma sameSettings_trans {U : Type} (s1 s2 s3 : State U) :
  sameSettings s1 s2 -> sameSettings s2 s3 -> sameSettings s1 s3.
Proof.
  intros (H1 & H2 & H3 & H4) (H1' & H2' & H3' & H4').
  repeat split; congruence.
Qed.
End EventFacts.

Section DriverFacts.
Import PhysicsAnimation.
Local Open Scope Q_scope.
Context {U : Type} `{Hooks U}.
Variable kEpsilonD : Q.

(** ** Fixed sub-steps *)

Lemma fixed_subSteps_spec (dt : Q) (n : nat) (s : State U) :
  let s' := forUpToT n (fun _ => subStep dt) s in
  trace s' = trace s ++ repeat (EvOnAdvanceTimeStep dt) n /\
  sameSettings s s' /\
  _currentTime s' == _currentTime s + inject_Z (Z.of_nat n) * dt.
Proof.
  apply (forUpToT_inv (fun k t =>
    trace t = trace s ++ repeat (EvOnAdvanceTimeStep dt) k /\
    sameSettings s t /\
    _currentTime t == _currentTime s + inject_Z (Z.of_nat k) * dt)).
  - cbn [repeat]. rewrite app_nil_r. split; [reflexivity|].
    split; [apply sameSettings_refl|].
    change (inject_Z (Z.of_nat 0)) with 0. lra.
  - intros k t _ (Ht & Hs & Hc). cbn [trace subStep _currentTime].
    split; [|split].
    + rewrite Ht, <- app_assoc. f_equal.
      change (EvOnAdvanceTimeStep dt :: repeat (EvOnAdvanceTimeStep dt) k)
        with (repeat (EvOnAdvanceTimeStep dt) (S k)).
      symmetry. apply repeat_cons.
    + destruct Hs as (H1 & H2 & H3 & H4). repeat split; assumption.
    + rewrite Hc, inject_Z_of_nat_S. lra.
Qed.


(** ** Adaptive sub-steps *)

Variable bound : N.
Variable fixedCount : N.
Variable Inv : U -> Prop.
Hypothesis kEpsilonD_positive : 0 < kEpsilonD.
Hypothesis Inv_onAdvanceTimeStep :
  forall (t dt : Q) (u : U), Inv u -> Inv (onAdvanceTimeStep t dt u).
Hypothesis numberOfSubTimeSteps_bounded :
  forall (u : U) (t : Q),
    Inv u -> kEpsilonD < t ->
    (1 <= numberOfSubTimeSteps fixedCount u t <= bound)%N.

(** The loop ends within the rounds allowed, the sub-steps and what is
    left add up to the time it started with, and what is left is at
    most [kEpsilonD]. *)
Lemma adaptiveLoop_spec :
  forall (fuel : nat) (remainingTime : Q) (s : State U),
    _numberOfFixedSubTimeSteps s = fixedCount ->
    Inv (derived s) ->
    remainingTime * inject_Z (Z.of_N bound) <=
      kEpsilonD * (inject_Z (Z.of_N bound) + inject_Z (Z.of_nat fuel)) ->
    exists (s' : State U) (events : list Event) (left : Q),
      adaptiveLoop kEpsilonD fuel remainingTime s = Done s' /\
      trace s' = trace s ++ events /\
      recomputedFrom remainingTime events /\
      Qsum (subSteps events) + left == remainingTime /\
      left <= kEpsilonD /\
      (0 <= remainingTime -> 0 <= left) /\
      sameSettings s s' /\
      _currentTime s' == _currentTime s + Qsum (subSteps events) /\
      countInitialize events = 0%nat /\
      countAdvanceTimeStep events = 0%nat /\
      Inv (derived s').
Proof.
  induction fuel as [|fuel IH]; intros rem s Hfixed Hinv Hpot.
  - (* no round allowed: the loop condition must be false *)
    assert (Hle : rem <= kEpsilonD).
    { destruct (Qlt_le_dec kEpsilonD rem) as [Hlt | Hle]; [|exact Hle].
      exfalso.
      assert (Hb : 1 <= inject_Z (Z.of_N bound)).
      { destruct (numberOfSubTimeSteps_bounded (derived s) rem Hinv Hlt).
        change 1 with (inject_Z (Z.of_N 1)). apply inject_Z_of_N_le. lia. }
      change (inject_Z (Z.of_nat 0)) with 0 in Hpot. nra. }
    cbn [adaptiveLoop].
    replace (Qltb kEpsilonD rem) with false
      by (symmetry; by apply Qltb_ge).
    exists s, [], rem. rewrite app_nil_r. cbn [subSteps Qsum recomputedFrom].
    repeat split; try reflexivity; try lra; auto.
  - cbn [adaptiveLoop].
    destruct (Qltb kEpsilonD rem) eqn:Hcond.
    2:{ apply Qltb_ge in Hcond.
        exists s, [], rem. rewrite app_nil_r.
        cbn [subSteps Qsum recomputedFrom].
        repeat split; try reflexivity; try lra; auto. }
    apply Qltb_lt in Hcond. rewrite Hfixed.
    set (n := numberOfSubTimeSteps fixedCount (derived s) rem).
    destruct (numberOfSubTimeSteps_bounded (derived s) rem Hinv Hcond)
      as [Hn1 Hnb]. fold n in Hn1, Hnb.
    destruct (N.eqb_spec n 0) as [E | _]; [lia|].
    unfold toDouble.
    destruct (equal_part_bounds rem n bound ltac:(lra) Hn1 Hnb)
      as (Hq0 & Hq1 & Hq2).
    set (dt := rem / inject_Z (Z.of_N n)) in *.
    rewrite inject_Z_of_nat_S in Hpot.
    destruct (IH (rem - dt)
                (subStep dt (logEvent (EvNumberOfSubTimeSteps rem n) s)))
      as (s' & events & left & Hrun & Htr & Hrec & Hsum & Hleft & Hpos
          & Hset & Htime & Hci & Hca & Hinv').
    { exact Hfixed. }
    { cbn [derived subStep logEvent]. by apply Inv_onAdvanceTimeStep. }
    { nra. }
    exists s', (EvNumberOfSubTimeSteps rem n :: EvOnAdvanceTimeStep dt :: events),
           left.
    split; [exact Hrun|].
    split.
    { rewrite Htr. cbn [trace subStep logEvent].
      rewrite <- !app_assoc. reflexivity. }
    split; [cbn [recomputedFrom]; auto|].
    cbn [subSteps Qsum].
    split; [lra|]. split; [assumption|].
    split; [intros; apply Hpos; lra|].
    split.
    { destruct Hset as (H1 & H2 & H3 & H4). repeat split; assumption. }
    split.
    { rewrite Htime. cbn [_currentTime subStep logEvent]. lra. }
    split; [exact Hci|]. split; [exact Hca | exact Hinv'].
Qed.

(** Rounds that are enough for the interval. *)
Lemma enoughFuel_enough (interval : Q) (fuel : nat) :
  (enoughFuel kEpsilonD interval bound <= fuel)%nat ->
  interval * inject_Z (Z.of_N bound) <=
    kEpsilonD * (inject_Z (Z.of_N bound) + inject_Z (Z.of_nat fuel)).
Proof.
  intros Hfuel. unfold enoughFuel in Hfuel.
  set (b := inject_Z (Z.of_N bound)) in *.
  assert (Hb : 0 <= b).
  { unfold b. change 0 with (inject_Z 0). rewrite <- Zle_Qle. lia. }
  assert (Hceil := Qle_ceiling (interval * b / kEpsilonD)).
  assert (Hf : inject_Z (Qceiling (interval * b / kEpsilonD)) <=
               inject_Z (Z.of_nat fuel)).
  { rewrite <- Zle_Qle. lia. }
  assert (Hx : interval * b / kEpsilonD <= inject_Z (Z.of_nat fuel)) by lra.
  assert (Hr : interval * b / kEpsilonD * kEpsilonD == interval * b)
    by (field; lra).
  set (r := interval * b / kEpsilonD) in *.
  assert (r * kEpsilonD <= inject_Z (Z.of_nat fuel) * kEpsilonD)
    by (apply Qmult_le_compat_r; lra).
  assert (0 <= kEpsilonD * b) by (apply Qmult_le_0_compat; lra).
  lra.
Qed.
End DriverFacts.

Section DriverClaims.
Import PhysicsAnimation.
Local Open Scope Q_scope.
Context {U : Type} `{Hooks U}.
Variable kEpsilonD : Q.


(** ** Whole frames *)

(** The condition under which the sub-stepping ends passes to a state
    with the same settings whose derived state satisfies the
    invariant. *)
Lemma subSteppingEnds_kept (bound : N) (Inv : U -> Prop) (s s' : State U) :
  sameSettings s s' ->
  (_isUsingFixedSubTimeSteps s = false -> Inv (derived s')) ->
  subSteppingEnds kEpsilonD bound Inv s ->
  subSteppingEnds kEpsilonD bound Inv s'.
Proof.
  intros (_ & Hmode & Hcount & _) Hinv Hends.
  destruct (_isUsingFixedSubTimeSteps s) eqn:Hm; [left; congruence|].
  destruct Hends as [Hfixed | (Heps & _ & Hinit & Hstep & Hbounded)];
    [congruence|].
  right. rewrite Hcount.
  split; [exact Heps|]. split; [by apply Hinv|].
  split; [exact Hinit | split; [exact Hstep | exact Hbounded]].
Qed.



Lemma wrapInt32_small (n : Z) :
  (- 2 ^ 31 <= n < 2 ^ 31)%Z -> wrapInt32 n = n.
Proof.
  intros Hn. unfold wrapInt32.
  rewrite Z.mod_small by lia. lia.
Qed.


End DriverClaims.

(** ** The statements at concrete animations *)



(** The sub-steps of that run: each is a third of the time then
    remaining, and after six of them less than 1/10 is left. *)
Example adaptive_subSteps_sample :
  match @PhysicsAnimation.advanceTimeStep nat
          PhysicsAnimation.baseCountingHooks
          (1 # 10) 30 1 (PhysicsAnimation.newAnimation false 3) with
  | PhysicsAnimation.Done s' =>
      Forall2 Qeq (PhysicsAnimation.subSteps (PhysicsAnimation.trace s'))
        [1 # 3; 2 # 9; 4 # 27; 8 # 81; 16 # 243; 32 # 729]%Q
  | _ => False
  end.
Proof. vm_compute. repeat constructor. Qed.


Example onUpdate_samples :
  let s := PhysicsAnimation.newAnimation true 2 in
  let run := fun frame =>
    @PhysicsAnimation.onUpdate nat (PhysicsAnimation.countingHooks 1)
      (1 # 10) 5 frame s in
  run (PhysicsAnimation.mkFrame (-1) (1 # 60)) = PhysicsAnimation.Done s /\
  run (PhysicsAnimation.mkFrame (-7) (1 # 60)) = PhysicsAnimation.Done s /\
  match run (PhysicsAnimation.mkFrame 1 (1 # 60)) with
  | PhysicsAnimation.Done s' => PhysicsAnimation.derived s' = 4%nat
  | _ => False
  end.
Proof. repeat split; reflexivity. Qed.


(** ** The clock and single frames *)

Section ClockFacts.
Import PhysicsAnimation.
Local Open Scope Q_scope.
Context {U : Type} `{Hooks U}.
Variable kEpsilonD : Q.
Variable bound : N.
Variable Inv : U -> Prop.

(** The clock after one call of [advanceTimeStep]: the start of the
    current frame plus the interval, less what the adaptive loop leaves
    over. *)
Lemma advanceTimeStep_clock (T : Q) (fuel : nat) (s : State U) :
  0 < T ->
  subSteppingEnds kEpsilonD bound Inv s ->
  (_isUsingFixedSubTimeSteps s = true ->
   (1 <= _numberOfFixedSubTimeSteps s)%N) ->
  (enoughFuel kEpsilonD T bound <= fuel)%nat ->
  exists (s' : State U) (left : Q),
    advanceTimeStep kEpsilonD fuel T s = Done s' /\
    sameSettings s s' /\
    subSteppingEnds kEpsilonD bound Inv s' /\
    _currentTime s' + left == timeInSeconds (_currentFrame s) + T /\
    (_isUsingFixedSubTimeSteps s = true -> left == 0) /\
    (_isUsingFixedSubTimeSteps s = false -> 0 <= left <= kEpsilonD).
Proof.
  intros HT Hends Hcount Hfuel. unfold advanceTimeStep.
  cbn [_isUsingFixedSubTimeSteps logEvent setCurrentTime
       _numberOfFixedSubTimeSteps].
  set (s0 := logEvent (EvAdvanceTimeStep T)
               (setCurrentTime (timeInSeconds (_currentFrame s)) s)).
  destruct (_isUsingFixedSubTimeSteps s) eqn:Hmode.
  - specialize (Hcount eq_refl).
    set (count := _numberOfFixedSubTimeSteps s) in *.
    destruct (fixed_subSteps_spec (T / toDouble count) (N.to_nat count) s0)
      as (_ & Hset & Hclock).
    eexists. exists 0. split; [reflexivity|].
    split; [exact Hset|].
    split; [left; destruct Hset as (_ & -> & _); exact Hmode|].
    split; [|split; [reflexivity | discriminate]].
    rewrite Hclock. cbn [s0 _currentTime logEvent setCurrentTime].
    unfold toDouble. rewrite N_nat_Z.
    assert (Hn : inject_Z (Z.of_N count) * (T / inject_Z (Z.of_N count)) == T).
    { apply Qmult_div_r.
      assert (inject_Z (Z.of_N 1) <= inject_Z (Z.of_N count))
        by (by apply inject_Z_of_N_le).
      change (inject_Z (Z.of_N 1)) with 1 in *. lra. }
    rewrite Hn. lra.
  - pose proof Hends as [Hfixed | (Heps & Hinv & Hinit & Hstep & Hbounded)];
      [congruence|].
    destruct (adaptiveLoop_spec kEpsilonD bound (_numberOfFixedSubTimeSteps s)
                Inv Heps Hstep Hbounded fuel T s0)
      as (s' & events & left & Hrun & _ & _ & Hsum & Hleft & Hpos & Hset
          & Hclock & _ & _ & Hinv').
    { reflexivity. }
    { exact Hinv. }
    { by apply enoughFuel_enough. }
    exists s', left. split; [exact Hrun|]. split; [exact Hset|].
    split.
    { apply (subSteppingEnds_kept kEpsilonD bound Inv s s');
        [exact Hset | auto | exact Hends]. }
    split; [|split; [discriminate|]].
    + rewrite Hclock. cbn [s0 _currentTime logEvent setCurrentTime]. lra.
    + intros _. split; [apply Hpos; lra | exact Hleft].
Qed.

(** The clock after the loop over the frames, when it runs at least
    once: every round starts again from the same frame. *)
Lemma advanceFrames_clock (T : Q) (fuel : nat) :
  0 < T ->
  (enoughFuel kEpsilonD T bound <= fuel)%nat ->
  forall (count : nat) (s : State U),
    (0 < count)%nat ->
    subSteppingEnds kEpsilonD bound Inv s ->
    (_isUsingFixedSubTimeSteps s = true ->
     (1 <= _numberOfFixedSubTimeSteps s)%N) ->
    exists (s' : State U) (left : Q),
      advanceFrames kEpsilonD fuel count T s = Done s' /\
      sameSettings s s' /\
      _currentTime s' + left == timeInSeconds (_currentFrame s) + T /\
      (_isUsingFixedSubTimeSteps s = true -> left == 0) /\
      (_isUsingFixedSubTimeSteps s = false -> 0 <= left <= kEpsilonD).
Proof.
  intros HT Hfuel. induction count as [|count IH]; intros s Hpos Hends Hcount;
    [lia|].
  cbn [advanceFrames].
  destruct (advanceTimeStep_clock T fuel s HT Hends Hcount Hfuel)
    as (s1 & left1 & -> & Hset1 & Hends1 & Hclock1 & Hfixed1 & Hadaptive1).
  destruct count as [|count].
  - exists s1, left1. cbn [advanceFrames]. auto.
  - pose proof Hset1 as (Hf & Hm & Hn & _).
    destruct (IH s1 ltac:(lia) Hends1)
      as (s2 & left2 & Hrun & Hset2 & Hclock2 & Hfixed2 & Hadaptive2).
    { rewrite Hm, Hn. exact Hcount. }
    exists s2, left2. split; [exact Hrun|].
    split; [by apply (sameSettings_trans s s1 s2)|].
    rewrite Hf, Hm in *. auto.
Qed.

(** X18. After a call of [update] that advances the animation, the clock
    reads the start of the frame that was current before the call plus
    one interval of the target frame (less what the adaptive loop left
    over), however many frames the call caught up: every
    [advanceTimeStep] of the call starts the clock again from the frame
    it began with. *)
Theorem clock_after_update_is_one_interval_past_old_frame
    (s : State U) (frame : Frame) (fuel : nat) :
  (index (_currentFrame s) < index frame)%Z ->
  (index frame - index (_currentFrame s) < 2 ^ 31)%Z ->
  0 < timeIntervalInSeconds frame ->
  subSteppingEnds kEpsilonD bound Inv s ->
  (_isUsingFixedSubTimeSteps s = true ->
   (1 <= _numberOfFixedSubTimeSteps s)%N) ->
  (enoughFuel kEpsilonD (timeIntervalInSeconds frame) bound <= fuel)%nat ->
  exists (s' : State U) (left : Q),
    onUpdate kEpsilonD fuel frame s = Done s' /\
    _currentFrame s' = frame /\
    _currentTime s' + left ==
      timeInSeconds (_currentFrame s) + timeIntervalInSeconds frame /\
    (_isUsingFixedSubTimeSteps s = true -> left == 0) /\
    (_isUsingFixedSubTimeSteps s = false -> 0 <= left <= kEpsilonD).
Proof.
  intros Hlt Hrange HT Hends Hcount Hfuel. unfold onUpdate.
  destruct (Z.ltb_spec (index (_currentFrame s)) (index frame)); [|lia].
  assert (Hinit : _currentFrame (initialize s) = _currentFrame s /\
                  _isUsingFixedSubTimeSteps (initialize s) =
                    _isUsingFixedSubTimeSteps s /\
                  _numberOfFixedSubTimeSteps (initialize s) =
                    _numberOfFixedSubTimeSteps s).
  { unfold initialize. destruct (_isInitialized s); auto. }
  destruct Hinit as (Hf0 & Hm0 & Hn0).
  rewrite Hf0, wrapInt32_small by lia.
  destruct (advanceFrames_clock (timeIntervalInSeconds frame) fuel HT Hfuel
              (Z.to_nat (index frame - index (_currentFrame s)))
              (initialize s))
    as (s2 & left & -> & _ & Hclock & Hfixed & Hadaptive).
  - lia.
  - destruct Hends as [Hfx | (Heps & Hinv & Hinit & Hstep & Hbounded)];
      [left; congruence | right].
    rewrite Hn0. split; [exact Heps|].
    split; [unfold initialize; destruct (_isInitialized s); cbn [derived];
            auto|].
    split; [exact Hinit | split; [exact Hstep | exact Hbounded]].
  - rewrite Hm0, Hn0. exact Hcount.
  - exists (setCurrentFrame frame s2), left.
    split; [reflexivity|]. split; [reflexivity|].
    cbn [setCurrentFrame _currentTime].
    rewrite Hf0, Hm0 in *. auto.
Qed.

End ClockFacts.

Lemma clock_after_update_is_one_interval_past_old_frame_witness :
  let s := PhysicsAnimation.newAnimation true 2 in
  let frame := PhysicsAnimation.mkFrame 2 (1 # 60) in
  exists s' left,
    @PhysicsAnimation.onUpdate nat (PhysicsAnimation.countingHooks 1)
      (1 # 10) 5 frame s = PhysicsAnimation.Done s' /\
    PhysicsAnimation._currentFrame s' = frame /\
    (PhysicsAnimation._currentTime s' + left ==
       PhysicsAnimation.timeInSeconds (PhysicsAnimation._currentFrame s) +
       (1 # 60))%Q /\
    (left == 0)%Q.
Proof.
  intros s frame.
  destruct (@clock_after_update_is_one_interval_past_old_frame nat
              (PhysicsAnimation.countingHooks 1) (1 # 10) 1 (fun _ => True)
              s frame 5%nat)
    as (s' & left & Hrun & Hf & Hclock & Hfixed & _).
  - simpl. lia.
  - simpl. lia.
  - reflexivity.
  - left. reflexivity.
  - intros _. simpl. lia.
  - vm_compute. lia.
  - exists s', left. split; [exact Hrun|]. split; [exact Hf|].
    split; [exact Hclock|]. apply Hfixed. reflexivity.
Defined.


(** Three frames caught up in one call of [update] from the frame of
    index -1: the clock ends at (-1 + 1) / 60, not at 2 / 60. *)
Example clock_after_catching_up_sample :
  match @PhysicsAnimation.onUpdate nat (PhysicsAnimation.countingHooks 1)
          (1 # 10) 5 (PhysicsAnimation.mkFrame 2 (1 # 60))
          (PhysicsAnimation.newAnimation true 2) with
  | PhysicsAnimation.Done s' =>
      (PhysicsAnimation._currentTime s' == 0)%Q /\
      PhysicsAnimation.index (PhysicsAnimation._currentFrame s') = 2%Z
  | _ => False
  end.
Proof. vm_compute. split; reflexivity. Qed.

(** * The grid fluid solver *)

Section SolverFacts.
Import GridFluidSolver3.
Local Open Scope Q_scope.
Context `{Collaborators}.
Variables (kEpsilonD kMaxD : Q).
Implicit Types (s : Solver).

(** ** The clamped members *)




(** ** The CFL number *)

(** The loop over the cells, with an invariant on the running value. *)
Lemma forEachCellIndex_inv {St : Type} (P : St -> Prop)
    (resolution : Array3.Size3) (func : nat -> nat -> nat -> St -> St)
    (init : St) :
  P init ->
  (forall i j k t, (i < Array3.x resolution)%nat ->
     (j < Array3.y resolution)%nat -> (k < Array3.z resolution)%nat ->
     P t -> P (func i j k t)) ->
  P (forEachCellIndex resolution func init).
Proof.
  intros Hinit Hstep. unfold forEachCellIndex.
  apply (forUpToT_inv (fun _ t => P t)); [assumption|].
  intros k t Hk Ht.
  apply (forUpToT_inv (fun _ t => P t)); [assumption|].
  intros j t' Hj Ht'.
  apply (forUpToT_inv (fun _ t => P t)); [assumption|].
  intros i t'' Hi Ht''. by apply Hstep.
Qed.

(** What the missing absolute value does in general: when no component
    of the cell-centre velocity plus dt times gravity is positive, the
    CFL number computed is 0, however fast the flow. *)
Lemma cfl_zero_for_flow_in_negative_directions s (dt : Q) :
  (forall i j k,
     (i < Array3.x (_resolution (_grids s)))%nat ->
     (j < Array3.y (_resolution (_grids s)))%nat ->
     (k < Array3.z (_resolution (_grids s)))%nat ->
     let v := vadd (valueAtCellCenter (_velocity (_grids s)) i j k)
                   (vscale dt (_gravity s)) in
     x v <= 0 /\ y v <= 0 /\ z v <= 0) ->
  cfl s dt == 0.
Proof.
  intros Hneg. unfold cfl.
  assert (Hmax : forEachCellIndex (_resolution (_grids s)) (cflCell s dt) 0
                 = 0).
  { apply (forEachCellIndex_inv (fun m => m = 0)); [reflexivity|].
    intros i j k t Hi Hj Hk ->. unfold cflCell. cbv zeta.
    destruct (Hneg i j k Hi Hj Hk) as (Hx & Hy & Hz).
    cbv zeta in Hx, Hy, Hz.
    rewrite (std_max_keeps 0 _ Hx), (std_max_keeps 0 _ Hy),
      (std_max_keeps 0 _ Hz).
    reflexivity. }
  rewrite Hmax. unfold Qdiv. ring.
Qed.

(** ** The sub-step *)

Lemma applyBoundaryCondition_sameEquationSolvers s s' :
  applyBoundaryCondition s = Some s' -> sameEquationSolvers s s'.
Proof.
  unfold applyBoundaryCondition.
  destruct (_boundaryConditionSolver s); [|intros [= <-]; repeat split].
  destruct (toUnsigned (ceil (_maxCfl s))); [|discriminate].
  intros [= <-]. repeat split.
Qed.

Lemma sameEquationSolvers_trans s1 s2 s3 :
  sameEquationSolvers s1 s2 -> sameEquationSolvers s2 s3 ->
  sameEquationSolvers s1 s3.
Proof.
  intros (Ha & Hd & Hp) (Ha' & Hd' & Hp'). repeat split; congruence.
Qed.

Lemma updateCollider_sameEquationSolvers (dt : Q) s :
  sameEquationSolvers s (updateCollider dt s).
Proof. unfold updateCollider. destruct (_collider s); repeat split. Qed.

Lemma updateEmitter_sameEquationSolvers (dt : Q) s :
  sameEquationSolvers s (updateEmitter dt s).
Proof.
  unfold updateEmitter. destruct (_emitter s) as [e|]; [|repeat split].
  destruct (emitterUpdate e (currentTimeInSeconds s) dt
              (_velocity (_grids s))).
  repeat split.
Qed.

Lemma beginAdvanceTimeStep_sameEquationSolvers (dt : Q) s s' :
  beginAdvanceTimeStep dt s = Some s' -> sameEquationSolvers s s'.
Proof.
  unfold beginAdvanceTimeStep. intros Hrun.
  eapply sameEquationSolvers_trans;
    [apply (updateCollider_sameEquationSolvers dt)|].
  eapply sameEquationSolvers_trans;
    [apply (updateEmitter_sameEquationSolvers dt)|].
  eapply sameEquationSolvers_trans;
    [|apply applyBoundaryCondition_sameEquationSolvers; exact Hrun].
  destruct (_boundaryConditionSolver
              (updateEmitter dt (updateCollider dt s))); repeat split.
Qed.

Lemma computeExternalForces_sameEquationSolvers (dt : Q) s s' :
  computeExternalForces kEpsilonD dt s = Some s' ->
  sameEquationSolvers s s'.
Proof.
  unfold computeExternalForces, computeGravity.
  destruct (Qltb kEpsilonD (lengthSquared (_gravity s)));
    [|intros [= <-]; repeat split].
  intros Hrun.
  apply applyBoundaryCondition_sameEquationSolvers in Hrun.
  destruct Hrun as (Ha & Hd & Hp). repeat split; assumption.
Qed.

Lemma computeViscosity_sameEquationSolvers (dt : Q) s s' :
  computeViscosity kEpsilonD kMaxD dt s = Some s' ->
  sameEquationSolvers s s'.
Proof.
  unfold computeViscosity, colliderSdf.
  destruct (_diffusionSolver s) eqn:Hd; [|intros [= <-]; repeat split].
  destruct (Qltb kEpsilonD (_viscosityCoefficient s));
    [|intros [= <-]; repeat split].
  destruct (_boundaryConditionSolver s) eqn:Hbc; [|discriminate].
  intros Hrun.
  apply applyBoundaryCondition_sameEquationSolvers in Hrun.
  destruct Hrun as (Ha & Hd' & Hp). cbn in Ha, Hd', Hp.
  repeat split; congruence.
Qed.

Lemma computePressure_sameEquationSolvers (dt : Q) s s' :
  computePressure kMaxD dt s = Some s' ->
  sameEquationSolvers s s'.
Proof.
  unfold computePressure, colliderSdf, colliderVelocityField.
  destruct (_pressureSolver s) eqn:Hp; [|intros [= <-]; repeat split].
  destruct (_boundaryConditionSolver s) eqn:Hbc; [|discriminate].
  intros Hrun.
  apply applyBoundaryCondition_sameEquationSolvers in Hrun.
  destruct Hrun as (Ha & Hd & Hp'). cbn in Ha, Hd, Hp'.
  repeat split; congruence.
Qed.

(** The two stages that open the sub-step keep the equation solvers. *)
Lemma earlyStages_sameEquationSolvers (dt : Q) s s1 s2 :
  beginAdvanceTimeStep dt s = Some s1 ->
  computeExternalForces kEpsilonD dt s1 = Some s2 ->
  sameEquationSolvers s s2.
Proof.
  intros Hb He.
  eapply sameEquationSolvers_trans;
    [eapply beginAdvanceTimeStep_sameEquationSolvers; exact Hb
    | eapply computeExternalForces_sameEquationSolvers; exact He].
Qed.

(** C8.  A sub-step on a grid whose resolution has a zero component
    returns the solver as it is, without an error.  With a null
    diffusion, pressure or advection solver the stage of that solver
    returns the solver as it is, and the sub-step is the sequence of the
    remaining stages. *)
Theorem degenerate_configurations_are_skipped (dt : Q) s :
  (Array3.x (_resolution (_grids s)) = 0%nat \/
   Array3.y (_resolution (_grids s)) = 0%nat \/
   Array3.z (_resolution (_grids s)) = 0%nat ->
   onAdvanceTimeStep kEpsilonD kMaxD dt s = Some s) /\
  (_diffusionSolver s = None ->
   computeViscosity kEpsilonD kMaxD dt s = Some s /\
   (isEmptyGrid s = false ->
    onAdvanceTimeStep kEpsilonD kMaxD dt s =
      (((beginAdvanceTimeStep dt s ≫= computeExternalForces kEpsilonD dt)
        ≫= computePressure kMaxD dt)
       ≫= computeAdvection dt)
      ≫= fun s5 => Some (endAdvanceTimeStep dt s5))) /\
  (_pressureSolver s = None ->
   computePressure kMaxD dt s = Some s /\
   (isEmptyGrid s = false ->
    onAdvanceTimeStep kEpsilonD kMaxD dt s =
      (((beginAdvanceTimeStep dt s ≫= computeExternalForces kEpsilonD dt)
        ≫= computeViscosity kEpsilonD kMaxD dt)
       ≫= computeAdvection dt)
      ≫= fun s5 => Some (endAdvanceTimeStep dt s5))) /\
  (_advectionSolver s = None ->
   computeAdvection dt s = Some s /\
   (isEmptyGrid s = false ->
    onAdvanceTimeStep kEpsilonD kMaxD dt s =
      (((beginAdvanceTimeStep dt s ≫= computeExternalForces kEpsilonD dt)
        ≫= computeViscosity kEpsilonD kMaxD dt)
       ≫= computePressure kMaxD dt)
      ≫= fun s4 => Some (endAdvanceTimeStep dt s4))).
Proof.
  split; [|split; [|split]].
  - intros Hzero. unfold onAdvanceTimeStep, isEmptyGrid.
    destruct Hzero as [-> | [-> | ->]]; cbn;
      rewrite ?orb_true_r; reflexivity.
  - intros Hnull. split.
    + unfold computeViscosity. by rewrite Hnull.
    + intros Hgrid. unfold onAdvanceTimeStep. rewrite Hgrid.
      destruct (beginAdvanceTimeStep dt s) as [s1|] eqn:Hb; [|reflexivity].
      cbn.
      destruct (computeExternalForces kEpsilonD dt s1) as [s2|] eqn:He;
        [|reflexivity].
      cbn.
      pose proof (earlyStages_sameEquationSolvers dt s s1 s2 Hb He)
        as Hearly.
      assert (Hskip : computeViscosity kEpsilonD kMaxD dt s2 = Some s2).
      { unfold computeViscosity.
        destruct Hearly as (_ & -> & _). by rewrite Hnull. }
      rewrite Hskip.
      destruct (computePressure kMaxD dt s2) as [s4|]; [|reflexivity].
      cbn. destruct (computeAdvection dt s4); reflexivity.
  - intros Hnull. split.
    + unfold computePressure. by rewrite Hnull.
    + intros Hgrid. unfold onAdvanceTimeStep. rewrite Hgrid.
      destruct (beginAdvanceTimeStep dt s) as [s1|] eqn:Hb; [|reflexivity].
      cbn.
      destruct (computeExternalForces kEpsilonD dt s1) as [s2|] eqn:He;
        [|reflexivity].
      cbn.
      pose proof (earlyStages_sameEquationSolvers dt s s1 s2 Hb He)
        as Hearly.
      destruct (computeViscosity kEpsilonD kMaxD dt s2) as [s3|] eqn:Hv;
        [|reflexivity].
      cbn.
      assert (Hskip : computePressure kMaxD dt s3 = Some s3).
      { unfold computePressure.
        destruct (computeViscosity_sameEquationSolvers dt s2 s3 Hv)
          as (_ & _ & ->).
        destruct Hearly as (_ & _ & ->). by rewrite Hnull. }
      rewrite Hskip.
      destruct (computeAdvection dt s3); reflexivity.
  - intros Hnull. split.
    + unfold computeAdvection. by rewrite Hnull.
    + intros Hgrid. unfold onAdvanceTimeStep. rewrite Hgrid.
      destruct (beginAdvanceTimeStep dt s) as [s1|] eqn:Hb; [|reflexivity].
      cbn.
      destruct (computeExternalForces kEpsilonD dt s1) as [s2|] eqn:He;
        [|reflexivity].
      cbn.
      pose proof (earlyStages_sameEquationSolvers dt s s1 s2 Hb He)
        as Hearly.
      destruct (computeViscosity kEpsilonD kMaxD dt s2) as [s3|] eqn:Hv;
        [|reflexivity].
      cbn.
      destruct (computePressure kMaxD dt s3) as [s4|] eqn:Hp;
        [|reflexivity].
      cbn.
      assert (Hskip : computeAdvection dt s4 = Some s4).
      { unfold computeAdvection.
        destruct (computePressure_sameEquationSolvers dt s3 s4 Hp)
          as (-> & _ & _).
        destruct (computeViscosity_sameEquationSolvers dt s2 s3 Hv)
          as (-> & _ & _).
        destruct Hearly as (-> & _ & _). by rewrite Hnull. }
      by rewrite Hskip.
Qed.
End SolverFacts.

(** ** The statements at concrete solvers *)

(** C1, at the failing input.  One cell, unit spacing, no gravity, and a
    flow of speed 1 in the negative x direction: for dt = 1 the code
    returns the CFL number 0, because the components enter the maximum
    with their sign, where the CFL number of the spec (and of the
    glossary: velocity times time step over grid spacing) is 1.  The
    number of sub-steps derived from it is 1 however fast the flow. *)
Theorem cfl_ignores_flow_in_negative_direction :
  let s := GridFluidSolver3.sampleSolver (Array3.mkSize3 1 1 1)
             (GridFluidSolver3.mkVector3D (-1) 0 0)
             (GridFluidSolver3.mkVector3D 0 0 0) in
  (GridFluidSolver3.cfl s 1 == 0)%Q /\
  (GridFluidSolver3.cflAsSpecified s 1 == 1)%Q /\
  let fast := GridFluidSolver3.sampleSolver (Array3.mkSize3 1 1 1)
                (GridFluidSolver3.mkVector3D (-1000) 0 0)
                (GridFluidSolver3.mkVector3D 0 0 0) in
  GridFluidSolver3.numberOfSubTimeSteps fast 1 = Some 1%N /\
  (GridFluidSolver3.cflAsSpecified fast 1 / GridFluidSolver3._maxCfl fast
     == 200)%Q.
Proof. repeat split; reflexivity. Qed.

(** With the flow in the positive direction the two agree. *)
Example cfl_sample_positive_direction :
  let s := GridFluidSolver3.sampleSolver (Array3.mkSize3 2 2 2)
             (GridFluidSolver3.mkVector3D 3 1 2)
             (GridFluidSolver3.mkVector3D 0 0 0) in
  (GridFluidSolver3.cfl s (1 # 2) == 3 # 2)%Q /\
  (GridFluidSolver3.cflAsSpecified s (1 # 2) == 3 # 2)%Q.
Proof. split; reflexivity. Qed.


(** The statement of C8 at a solver on a 0 x 1 x 1 grid, and at a solver
    on a 1 x 1 x 1 grid without diffusion solver. *)
Lemma degenerate_configurations_are_skipped_witness :
  let empty := GridFluidSolver3.sampleSolver (Array3.mkSize3 0 1 1)
                 (GridFluidSolver3.mkVector3D 1 0 0)
                 (GridFluidSolver3.mkVector3D 0 (-10) 0) in
  let inviscid :=
    GridFluidSolver3.setDiffusionSolver None
      (GridFluidSolver3.sampleSolver (Array3.mkSize3 1 1 1)
         (GridFluidSolver3.mkVector3D 1 0 0)
         (GridFluidSolver3.mkVector3D 0 (-10) 0)) in
  (Array3.x (GridFluidSolver3._resolution (GridFluidSolver3._grids empty))
     = 0%nat /\
   GridFluidSolver3._diffusionSolver inviscid = None) /\
  GridFluidSolver3.onAdvanceTimeStep (1 # 1000) 1000 (1 # 60) empty
    = Some empty /\
  GridFluidSolver3.computeViscosity (1 # 1000) 1000 (1 # 60) inviscid
    = Some inviscid.
Proof.
  intros empty inviscid.
  split; [split; reflexivity|].
  split.
  - destruct (@degenerate_configurations_are_skipped
                GridFluidSolver3.idleCollaborators (1 # 1000) 1000 (1 # 60)
                empty) as (Hempty & _).
    apply Hempty. left. reflexivity.
  - destruct (@degenerate_configurations_are_skipped
                GridFluidSolver3.idleCollaborators (1 # 1000) 1000 (1 # 60)
                inviscid) as (_ & Hdiffusion & _).
    apply Hdiffusion. reflexivity.
Defined.


(** ** Sub-step counts, the CFL bound and the stages *)

Section SolverProperties.
Import GridFluidSolver3.
Local Open Scope Q_scope.
Context `{Collaborators}.
Variables (kEpsilonD kMaxD : Q).
Implicit Types (s : Solver).






(** ** The largest velocity component *)

Section Relational.
Context {St : Type}.
Variable R : St -> St -> Prop.


End Relational.

(** A loop whose body never lowers the running value ends at least as
    high as the body leaves it at any one index. *)
Lemma forLoopT_reaches (body : nat -> Q -> Q) (c : Q) (k0 : nat) :
  (forall k t, t <= body k t) ->
  (forall t, c <= body k0 t) ->
  forall count lo t, (lo <= k0 < lo + count)%nat ->
    c <= forLoopT body lo count t.
Proof.
  intros Hmono Hat. induction count as [|n IH]; intros lo t Hr; [lia|].
  simpl. destruct (decide (lo = k0)) as [-> | Hne].
  - apply Qle_trans with (body k0 t); [apply Hat|].
    apply (forLoopT_inv (fun _ u => body k0 t <= u)); [lra|].
    intros k u _ Hu. apply Qle_trans with u; [exact Hu | apply Hmono].
  - apply IH. lia.
Qed.

Lemma forLoopT_increases (body : nat -> Q -> Q) :
  (forall k t, t <= body k t) ->
  forall count lo t, t <= forLoopT body lo count t.
Proof.
  intros Hmono count lo t.
  apply (forLoopT_inv (fun _ u => t <= u)); [lra|].
  intros k u _ Hu. apply Qle_trans with u; [exact Hu | apply Hmono].
Qed.

Lemma cflCell_increases s dt i j k (t : Q) : t <= cflCell s dt i j k t.
Proof.
  unfold cflCell. cbv zeta.
  eapply Qle_trans; [|apply std_max_ge_l].
  eapply Qle_trans; [|apply std_max_ge_l].
  apply std_max_ge_l.
Qed.

Lemma cflCell_bounds s dt i j k (t : Q) :
  let v := vadd (valueAtCellCenter (_velocity (_grids s)) i j k)
                (vscale dt (_gravity s)) in
  x v <= cflCell s dt i j k t /\
  y v <= cflCell s dt i j k t /\
  z v <= cflCell s dt i j k t.
Proof.
  unfold cflCell. cbv zeta.
  set (v := vadd _ _).
  pose proof (std_max_ge_r t (x v)).
  pose proof (std_max_ge_l (std_max t (x v)) (y v)).
  pose proof (std_max_ge_r (std_max t (x v)) (y v)).
  pose proof (std_max_ge_l (std_max (std_max t (x v)) (y v)) (z v)).
  pose proof (std_max_ge_r (std_max (std_max t (x v)) (y v)) (z v)).
  repeat split; lra.
Qed.

(** The running maximum of [cfl] after the loop over the cells: it is
    not negative and not below any component of any cell. *)
Lemma maxVel_bounds s dt :
  let maxVel := forEachCellIndex (_resolution (_grids s)) (cflCell s dt) 0 in
  0 <= maxVel /\
  forall i j k,
    (i < Array3.x (_resolution (_grids s)))%nat ->
    (j < Array3.y (_resolution (_grids s)))%nat ->
    (k < Array3.z (_resolution (_grids s)))%nat ->
    let v := vadd (valueAtCellCenter (_velocity (_grids s)) i j k)
                  (vscale dt (_gravity s)) in
    x v <= maxVel /\ y v <= maxVel /\ z v <= maxVel.
Proof.
  intros maxVel. split.
  - apply (forEachCellIndex_inv (fun t => 0 <= t)); [lra|].
    intros i j k t _ _ _ Ht.
    apply Qle_trans with t; [exact Ht | apply cflCell_increases].
  - intros i j k Hi Hj Hk v.
    assert (Hinner : forall j' k' t, t <=
              forUpToT (Array3.x (_resolution (_grids s)))
                (fun i' => cflCell s dt i' j' k') t).
    { intros j' k' t. apply forLoopT_increases.
      intros; apply cflCell_increases. }
    assert (Hmiddle : forall k' t, t <=
              forUpToT (Array3.y (_resolution (_grids s)))
                (fun j' => forUpToT (Array3.x (_resolution (_grids s)))
                   (fun i' => cflCell s dt i' j' k')) t).
    { intros k' t. apply forLoopT_increases. intros; apply Hinner. }
    assert (Hall : forall c, (forall t, c <= cflCell s dt i j k t) ->
                     c <= maxVel).
    { intros c Hc. unfold maxVel, forEachCellIndex, forUpToT.
      apply (forLoopT_reaches _ c k); [intros; apply Hmiddle | | lia].
      intros t. apply (forLoopT_reaches _ c j); [intros; apply Hinner | | lia].
      intros t'. apply (forLoopT_reaches _ c i);
        [intros; apply cflCell_increases | exact Hc | lia]. }
    repeat split; apply Hall; intros t; apply (cflCell_bounds s dt i j k t).
Qed.

(** X21. The CFL number that [cfl] returns is not negative, and it
    bounds, for every cell and every axis, the signed displacement in
    grid cells that the cell-centre velocity plus dt times gravity
    makes during dt along that axis. *)
Theorem cfl_bounds_every_cell s (dt : Q) :
  0 <= dt ->
  0 < min3 (x (_gridSpacing (_grids s))) (y (_gridSpacing (_grids s)))
           (z (_gridSpacing (_grids s))) ->
  let h := min3 (x (_gridSpacing (_grids s))) (y (_gridSpacing (_grids s)))
                (z (_gridSpacing (_grids s))) in
  0 <= cfl s dt /\
  forall i j k,
    (i < Array3.x (_resolution (_grids s)))%nat ->
    (j < Array3.y (_resolution (_grids s)))%nat ->
    (k < Array3.z (_resolution (_grids s)))%nat ->
    let v := vadd (valueAtCellCenter (_velocity (_grids s)) i j k)
                  (vscale dt (_gravity s)) in
    x v * dt / h <= cfl s dt /\
    y v * dt / h <= cfl s dt /\
    z v * dt / h <= cfl s dt.
Proof.
  intros Hdt Hh h. unfold cfl. fold h. change (0 < h) in Hh. clearbody h.
  destruct (maxVel_bounds s dt) as [Hpos Hcells].
  set (maxVel := forEachCellIndex _ _ _) in *.
  assert (Hscale : forall a, a <= maxVel -> a * dt / h <= maxVel * dt / h).
  { intros a Ha. unfold Qdiv. apply Qmult_le_compat_r; [nra|].
    apply Qinv_le_0_compat. lra. }
  split.
  - unfold Qdiv. apply Qmult_le_0_compat; [nra|].
    apply Qinv_le_0_compat. lra.
  - intros i j k Hi Hj Hk.
    destruct (Hcells i j k Hi Hj Hk) as (Hx & Hy & Hz).
    repeat split; apply Hscale; assumption.
Qed.



(** ** The boundary-condition solver, once installed *)

Lemma keepsLayout_refl s :
  is_Some (_boundaryConditionSolver s) -> keepsLayout s s.
Proof. intros Hbc. repeat split; auto. Qed.

Lemma keepsLayout_trans s1 s2 s3 :
  keepsLayout s1 s2 -> keepsLayout s2 s3 -> keepsLayout s1 s3.
Proof.
  intros (_ & Hr & Hs & Hv & Hc) (Hbc & Hr' & Hs' & Hv' & Hc').
  repeat split; [assumption | congruence..].
Qed.

(** The conversion of the depth depends on the maximal CFL number
    alone. *)
Lemma keepsLayout_depthFits s s' :
  keepsLayout s s' -> depthFits s -> depthFits s'.
Proof. intros (_ & _ & _ & _ & Hc). unfold depthFits. by rewrite Hc. Qed.

Lemma applyBoundaryCondition_keepsLayout s :
  is_Some (_boundaryConditionSolver s) -> depthFits s ->
  exists s', applyBoundaryCondition s = Some s' /\ keepsLayout s s'.
Proof.
  intros [bc Hbc] [depth Hdepth]. unfold applyBoundaryCondition.
  rewrite Hbc, Hdepth. eexists. split; [reflexivity|].
  repeat split; cbn; rewrite ?Hbc; eauto.
Qed.

Lemma withVelocity_keepsLayout s vel :
  is_Some (_boundaryConditionSolver s) -> depthFits s ->
  exists s',
    applyBoundaryCondition (withGrids (withVelocity vel (_grids s)) s)
      = Some s' /\
    keepsLayout s s'.
Proof.
  intros Hbc Hfit.
  destruct (applyBoundaryCondition_keepsLayout
              (withGrids (withVelocity vel (_grids s)) s) Hbc Hfit)
    as (s' & Hrun & Hkeep).
  exists s'. split; [exact Hrun|].
  apply keepsLayout_trans with (withGrids (withVelocity vel (_grids s)) s);
    [|exact Hkeep].
  repeat split; cbn; auto.
Qed.

Lemma updateCollider_keepsLayout (dt : Q) s :
  is_Some (_boundaryConditionSolver s) -> keepsLayout s (updateCollider dt s).
Proof.
  intros Hbc. unfold updateCollider.
  destruct (_collider s); repeat split; cbn; auto.
Qed.

Lemma updateEmitter_keepsLayout (dt : Q) s :
  is_Some (_boundaryConditionSolver s) -> keepsLayout s (updateEmitter dt s).
Proof.
  intros Hbc. unfold updateEmitter.
  destruct (_emitter s) as [e|]; [|by apply keepsLayout_refl].
  destruct (emitterUpdate e _ _ _) as [e' vel].
  repeat split; cbn; auto.
Qed.

(** The solver as [beginAdvanceTimeStep] hands it to
    [applyBoundaryCondition]. *)
Lemma beginAdvanceTimeStep_reaches (dt : Q) s :
  is_Some (_boundaryConditionSolver s) ->
  exists s3, beginAdvanceTimeStep dt s = applyBoundaryCondition s3 /\
             keepsLayout s s3.
Proof.
  intros Hbc. unfold beginAdvanceTimeStep.
  pose proof (updateCollider_keepsLayout dt s Hbc) as H1.
  set (s1 := updateCollider dt s) in *.
  pose proof (updateEmitter_keepsLayout dt s1 (proj1 H1)) as H2.
  set (s2 := updateEmitter dt s1) in *.
  pose proof (keepsLayout_trans _ _ _ H1 H2) as H12.
  destruct (proj1 H2) as [bc Hbc2]. rewrite Hbc2.
  eexists. split; [reflexivity|].
  destruct H12 as (_ & Hr & Hs & Hv & Hc).
  repeat split; cbn; eauto.
Qed.

Lemma beginAdvanceTimeStep_keepsLayout (dt : Q) s :
  is_Some (_boundaryConditionSolver s) -> depthFits s ->
  exists s', beginAdvanceTimeStep dt s = Some s' /\ keepsLayout s s'.
Proof.
  intros Hbc Hfit.
  destruct (beginAdvanceTimeStep_reaches dt s Hbc) as (s3 & -> & H3).
  destruct (applyBoundaryCondition_keepsLayout s3 (proj1 H3)
              (keepsLayout_depthFits s s3 H3 Hfit)) as (s' & Hrun & Hkeep).
  exists s'. split; [exact Hrun|]. by apply keepsLayout_trans with s3.
Qed.

Lemma computeGravity_keepsLayout (dt : Q) s :
  is_Some (_boundaryConditionSolver s) -> depthFits s ->
  exists s', computeGravity kEpsilonD dt s = Some s' /\ keepsLayout s s'.
Proof.
  intros Hbc Hfit. unfold computeGravity.
  destruct (Qltb kEpsilonD (lengthSquared (_gravity s)));
    [|exists s; split; [reflexivity | by apply keepsLayout_refl]].
  by apply withVelocity_keepsLayout.
Qed.

Lemma computeViscosity_keepsLayout (dt : Q) s :
  is_Some (_boundaryConditionSolver s) -> depthFits s ->
  exists s', computeViscosity kEpsilonD kMaxD dt s = Some s' /\
             keepsLayout s s'.
Proof.
  intros Hbc Hfit. unfold computeViscosity, colliderSdf.
  destruct (_diffusionSolver s) as [d|];
    [|exists s; split; [reflexivity | by apply keepsLayout_refl]].
  destruct (Qltb kEpsilonD (_viscosityCoefficient s));
    [|exists s; split; [reflexivity | by apply keepsLayout_refl]].
  pose proof Hbc as [bc Hbc']. rewrite Hbc'.
  by apply withVelocity_keepsLayout.
Qed.

Lemma computePressure_keepsLayout (dt : Q) s :
  is_Some (_boundaryConditionSolver s) -> depthFits s ->
  exists s', computePressure kMaxD dt s = Some s' /\ keepsLayout s s'.
Proof.
  intros Hbc Hfit. unfold computePressure, colliderSdf, colliderVelocityField.
  destruct (_pressureSolver s) as [p|];
    [|exists s; split; [reflexivity | by apply keepsLayout_refl]].
  pose proof Hbc as [bc Hbc']. rewrite Hbc'.
  by apply withVelocity_keepsLayout.
Qed.

Lemma advectScalarLayer_keepsLayout advection (dt : Q) (i : nat) s :
  is_Some (_boundaryConditionSolver s) -> depthFits s ->
  (i < length (_advectableScalarDataList (_grids s)))%nat ->
  exists s', advectScalarLayer advection dt i s = Some s' /\
             keepsLayout s s'.
Proof.
  intros [bc Hbc] [depth Hdepth] Hi.
  unfold advectScalarLayer, colliderSdf, extrapolationDepth.
  destruct (lookup_lt_is_Some_2 _ _ Hi) as [grid0 ->]. rewrite Hbc, Hdepth.
  eexists. split; [reflexivity|].
  repeat split; cbn; rewrite ?Hbc, ?length_insert; eauto.
Qed.

Lemma advectVectorLayer_keepsLayout advection (dt : Q) (i : nat) s :
  is_Some (_boundaryConditionSolver s) -> depthFits s ->
  (i < length (_advectableVectorDataList (_grids s)))%nat ->
  exists s', advectVectorLayer advection dt i s = Some s' /\
             keepsLayout s s'.
Proof.
  intros Hsome [depth Hdepth] Hi. pose proof Hsome as [bc Hbc].
  unfold advectVectorLayer, colliderSdf, extrapolationDepth.
  destruct (i =? _velocityIdx (_grids s))%nat;
    [exists s; split; [reflexivity | by apply keepsLayout_refl]|].
  destruct (lookup_lt_is_Some_2 _ _ Hi) as [layer ->]. rewrite Hbc, ?Hdepth.
  destruct layer;
    try (exists s; split; [reflexivity | by apply keepsLayout_refl]);
    (rewrite ?Hdepth; eexists; split; [reflexivity|];
     repeat split; cbn; rewrite ?Hbc, ?length_insert; eauto).
Qed.

Lemma computeAdvection_keepsLayout (dt : Q) s :
  is_Some (_boundaryConditionSolver s) -> depthFits s ->
  exists s', computeAdvection dt s = Some s' /\ keepsLayout s s'.
Proof.
  intros Hbc Hfit. unfold computeAdvection.
  destruct (_advectionSolver s) as [advection|];
    [|exists s; split; [reflexivity | by apply keepsLayout_refl]].
  destruct (forUpTo_inv (fun _ t => keepsLayout s t)
              (advectScalarLayer advection dt)
              (length (_advectableScalarDataList (_grids s))) s)
    as (s1 & -> & H1).
  { by apply keepsLayout_refl. }
  { intros k t Hk Ht. pose proof Ht as (Hbct & _ & Hlen & _).
    destruct (advectScalarLayer_keepsLayout advection dt k t Hbct
                (keepsLayout_depthFits s t Ht Hfit))
      as (t' & Hrun & Ht'); [lia|].
    exists t'. split; [exact Hrun|]. by apply keepsLayout_trans with t. }
  destruct (forUpTo_inv (fun _ t => keepsLayout s1 t)
              (advectVectorLayer advection dt)
              (length (_advectableVectorDataList (_grids s1))) s1)
    as (s2 & -> & H2).
  { apply keepsLayout_refl. apply H1. }
  { intros k t Hk Ht. pose proof Ht as (Hbct & _ & _ & Hlen & _).
    destruct (advectVectorLayer_keepsLayout advection dt k t Hbct
                (keepsLayout_depthFits s t
                   (keepsLayout_trans _ _ _ H1 Ht) Hfit))
      as (t' & Hrun & Ht'); [lia|].
    exists t'. split; [exact Hrun|]. by apply keepsLayout_trans with t. }
  pose proof (keepsLayout_trans _ _ _ H1 H2) as H12.
  unfold colliderSdf. pose proof (proj1 H2) as [bc Hbc2]. rewrite Hbc2.
  destruct (withVelocity_keepsLayout s2
              (advectFaceCentered advection (_velocity (_grids s2))
                 (_velocity (_grids s2)) dt (bcColliderSdf bc)) (proj1 H2)
              (keepsLayout_depthFits s s2 H12 Hfit))
    as (s' & Hrun & Hkeep).
  exists s'. split; [exact Hrun|]. by apply keepsLayout_trans with s2.
Qed.

(** X23. With a boundary-condition solver installed and a maximal CFL
    number whose ceiling is a value of [unsigned int], a sub-step
    succeeds: no stage dereferences a null pointer or leaves a layer
    list, whichever equation solvers are present.  The solver stays
    installed, and the resolution, the numbers of advectable layers and
    the maximal CFL number are those before the sub-step.  When the
    ceiling is not a value of [unsigned int], the sub-step on a grid
    that is not empty ends in the undefined conversion. *)
Theorem substep_succeeds_once_boundary_solver_installed (dt : Q) s :
  is_Some (_boundaryConditionSolver s) ->
  (depthFits s ->
   exists s', onAdvanceTimeStep kEpsilonD kMaxD dt s = Some s' /\
              keepsLayout s s') /\
  (~ depthFits s -> isEmptyGrid s = false ->
   onAdvanceTimeStep kEpsilonD kMaxD dt s = None).
Proof.
  intros Hbc. split.
  - intros Hfit. unfold onAdvanceTimeStep.
    destruct (isEmptyGrid s);
      [exists s; split; [reflexivity | by apply keepsLayout_refl]|].
    destruct (beginAdvanceTimeStep_keepsLayout dt s Hbc Hfit)
      as (s1 & -> & H1).
    pose proof (keepsLayout_depthFits s s1 H1 Hfit) as Hfit1.
    unfold computeExternalForces.
    destruct (computeGravity_keepsLayout dt s1 (proj1 H1) Hfit1)
      as (s2 & -> & H2).
    pose proof (keepsLayout_depthFits s1 s2 H2 Hfit1) as Hfit2.
    destruct (computeViscosity_keepsLayout dt s2 (proj1 H2) Hfit2)
      as (s3 & -> & H3).
    pose proof (keepsLayout_depthFits s2 s3 H3 Hfit2) as Hfit3.
    destruct (computePressure_keepsLayout dt s3 (proj1 H3) Hfit3)
      as (s4 & -> & H4).
    pose proof (keepsLayout_depthFits s3 s4 H4 Hfit3) as Hfit4.
    destruct (computeAdvection_keepsLayout dt s4 (proj1 H4) Hfit4)
      as (s5 & -> & H5).
    exists s5. split; [reflexivity|].
    apply keepsLayout_trans with s4; [|exact H5].
    apply keepsLayout_trans with s3; [|exact H4].
    apply keepsLayout_trans with s2; [|exact H3].
    apply keepsLayout_trans with s1; [exact H1 | exact H2].
  - intros Hnofit Hgrid. unfold onAdvanceTimeStep. rewrite Hgrid.
    destruct (beginAdvanceTimeStep_reaches dt s Hbc) as (s3 & -> & H3).
    unfold applyBoundaryCondition.
    destruct (proj1 H3) as [bc ->].
    destruct (toUnsigned (ceil (_maxCfl s3))) as [depth|] eqn:Hdepth;
      [|reflexivity].
    exfalso. apply Hnofit. unfold depthFits.
    destruct H3 as (_ & _ & _ & _ & <-). rewrite Hdepth. eauto.
Qed.

(** What one setter call does to an installed boundary-condition
    solver. *)
Lemma applySetter_installed (call : SetterCall) s :
  is_Some (_boundaryConditionSolver s) ->
  (suggestsSolver call ->
   exists s1, applySetter kEpsilonD call s = Some s1 /\
              is_Some (_boundaryConditionSolver s1)) /\
  (~ suggestsSolver call -> applySetter kEpsilonD call s = None).
Proof.
  intros Hbc. split.
  - intros Hcall.
    destruct call; cbn;
      try (eexists; split; [reflexivity | cbn; exact Hbc]).
    + unfold setPressureSolver. destruct newSolver as [p|].
      * cbn in Hcall. destruct Hcall as [bc ->].
        eexists. split; [reflexivity|]. cbn. eauto.
      * eexists. split; [reflexivity|]. cbn. exact Hbc.
    + unfold setClosedDomainBoundaryFlag. destruct Hbc as [bc ->].
      eexists. split; [reflexivity|]. cbn. eauto.
  - intros Hcall.
    destruct call; cbn in Hcall; try (exfalso; by apply Hcall).
    destruct newSolver as [p|]; [|exfalso; by apply Hcall].
    cbn. unfold setPressureSolver.
    destruct (suggestedBoundaryConditionSolver p) eqn:Hp; [|reflexivity].
    exfalso. apply Hcall. eauto.
Qed.

(** X24. [setPressureSolver] with a pressure solver whose suggested
    boundary-condition solver is not null installs that solver, with the
    flag applied; with one whose suggestion is null it dereferences the
    null pointer.  Once a boundary-condition solver is installed, a
    sequence of setter calls succeeds and leaves one installed when every
    pressure solver it passes suggests a solver
    ([setPressureSolver(nullptr)] keeps the one installed), and ends in
    the null dereference otherwise. *)
Theorem setters_keep_boundary_solver_installed
    (calls : list SetterCall) s :
  (forall p bc,
     suggestedBoundaryConditionSolver p = Some bc ->
     exists s', setPressureSolver (Some p) s = Some s' /\
       _boundaryConditionSolver s' =
         Some (bcSetClosedDomainBoundaryFlag bc
                 (_closedDomainBoundaryFlag s))) /\
  (forall p,
     suggestedBoundaryConditionSolver p = None ->
     setPressureSolver (Some p) s = None) /\
  (is_Some (_boundaryConditionSolver s) ->
   (Forall suggestsSolver calls ->
    exists s', applySetters kEpsilonD calls s = Some s' /\
               is_Some (_boundaryConditionSolver s')) /\
   (~ Forall suggestsSolver calls ->
    applySetters kEpsilonD calls s = None)).
Proof.
  split; [|split].
  - intros p bc Hp. unfold setPressureSolver. rewrite Hp.
    eexists. split; reflexivity.
  - intros p Hp. unfold setPressureSolver. by rewrite Hp.
  - revert s. induction calls as [|call rest IH]; intros s Hbc.
    + split; [exists s; auto|]. intros Hno. exfalso. apply Hno. constructor.
    + destruct (applySetter_installed call s Hbc) as [Hok Hfail].
      cbn [applySetters]. split.
      * intros Hall. inversion Hall as [|? ? Hcall Hrest]; subst.
        destruct (Hok Hcall) as (s1 & -> & Hbc1).
        by apply (IH s1 Hbc1).
      * intros Hno.
        destruct (applySetter kEpsilonD call s) as [s1|] eqn:Hrun;
          [|reflexivity].
        assert (Hcall : suggestsSolver call).
        { destruct call; cbn; auto.
          destruct newSolver as [p|]; [|exact I].
          cbn in Hrun. unfold setPressureSolver in Hrun.
          destruct (suggestedBoundaryConditionSolver p); [eauto|discriminate]. }
        destruct (Hok Hcall) as (s1' & Hrun' & Hbc1).
        injection Hrun' as <-.
        apply (IH s1 Hbc1). intros Hrest. apply Hno. by constructor.
Qed.
End SolverProperties.

(** ** The statements at concrete solvers *)


Lemma cfl_bounds_every_cell_witness :
  let s := GridFluidSolver3.sampleSolver (Array3.mkSize3 2 2 2)
             (GridFluidSolver3.mkVector3D 3 (-1) 2)
             (GridFluidSolver3.mkVector3D 0 0 0) in
  (0 <= 1 # 2)%Q /\ (0 <= GridFluidSolver3.cfl s (1 # 2))%Q.
Proof.
  intros s. split; [discriminate|].
  destruct (@cfl_bounds_every_cell GridFluidSolver3.idleCollaborators
              s (1 # 2)) as [Hpos _].
  - discriminate.
  - reflexivity.
  - exact Hpos.
Defined.


Lemma substep_succeeds_once_boundary_solver_installed_witness :
  let s := GridFluidSolver3.sampleSolver (Array3.mkSize3 1 1 1)
             (GridFluidSolver3.mkVector3D 1 0 0)
             (GridFluidSolver3.mkVector3D 0 (-10) 0) in
  is_Some (GridFluidSolver3._boundaryConditionSolver s) /\
  GridFluidSolver3.depthFits s /\
  exists s',
    GridFluidSolver3.onAdvanceTimeStep (1 # 1000) 1000 (1 # 60) s = Some s' /\
    GridFluidSolver3.keepsLayout s s'.
Proof.
  intros s.
  assert (Hbc : is_Some (GridFluidSolver3._boundaryConditionSolver s))
    by (by exists tt).
  assert (Hfit : GridFluidSolver3.depthFits s) by (by exists 5%N).
  split; [exact Hbc|]. split; [exact Hfit|].
  destruct (@substep_succeeds_once_boundary_solver_installed
              GridFluidSolver3.idleCollaborators (1 # 1000) 1000 (1 # 60) s
              Hbc) as [Hrun _].
  exact (Hrun Hfit).
Defined.

Lemma setters_keep_boundary_solver_installed_witness :
  let s := GridFluidSolver3.sampleSolver (Array3.mkSize3 1 1 1)
             (GridFluidSolver3.mkVector3D 0 0 0)
             (GridFluidSolver3.mkVector3D 0 0 0) in
  let calls := [GridFluidSolver3.CallSetPressureSolver None;
                GridFluidSolver3.CallSetClosedDomainBoundaryFlag 9;
                @GridFluidSolver3.CallSetPressureSolver
                  GridFluidSolver3.idleCollaborators (Some tt)] in
  is_Some (GridFluidSolver3._boundaryConditionSolver s) /\
  Forall GridFluidSolver3.suggestsSolver calls /\
  exists s',
    GridFluidSolver3.applySetters (1 # 1000) calls s = Some s' /\
    is_Some (GridFluidSolver3._boundaryConditionSolver s').
Proof.
  intros s calls.
  assert (Hbc : is_Some (GridFluidSolver3._boundaryConditionSolver s))
    by (by exists tt).
  assert (Hall : Forall GridFluidSolver3.suggestsSolver calls).
  { repeat constructor. by exists tt. }
  split; [exact Hbc|]. split; [exact Hall|].
  destruct (@setters_keep_boundary_solver_installed
              GridFluidSolver3.idleCollaborators (1 # 1000) calls s)
    as (_ & _ & Hseq).
  destruct (Hseq Hbc) as [Hok _].
  exact (Hok Hall).
Defined.

(** With a gravity that has a negative component the bound of the
    sub-step can fail: the flow (0, 10, 0) under the gravity
    (0, -10, 0), unit spacing and the maximal CFL number 1/2, for the
    interval 9/10.  The CFL number of the whole interval is 9/10 and
    asks for two sub-steps; the CFL number of a sub-step of 45/100 is
    2475/1000. *)
Example substep_bound_needs_gravity_without_negative_component :
  let s := GridFluidSolver3.sampleSolver (Array3.mkSize3 1 1 1)
             (GridFluidSolver3.mkVector3D 0 10 0)
             (GridFluidSolver3.mkVector3D 0 (-10) 0) in
  let s' := GridFluidSolver3.setMaxCfl (1 # 1000) (1 # 2) s in
  GridFluidSolver3.numberOfSubTimeSteps s' (9 # 10) = Some 2%N /\
  (GridFluidSolver3.cfl s' ((9 # 10) / 2) == 2475 # 1000)%Q /\
  (GridFluidSolver3._maxCfl s' == 1 # 2)%Q.
Proof. repeat split; reflexivity. Qed.

(** A flow too fast for the count to be an [unsigned int]: one cell of
    unit spacing, the speed 5 * 2^32 and the maximal CFL number 5, for
    the interval 1.  The count would be 2^32; its conversion is
    undefined. *)
Example numberOfSubTimeSteps_beyond_unsigned :
  let s := GridFluidSolver3.sampleSolver (Array3.mkSize3 1 1 1)
             (GridFluidSolver3.mkVector3D (inject_Z (5 * 2 ^ 32)) 0 0)
             (GridFluidSolver3.mkVector3D 0 0 0) in
  (GridFluidSolver3.cfl s 1 / GridFluidSolver3._maxCfl s
     == inject_Z (2 ^ 32))%Q /\
  GridFluidSolver3.numberOfSubTimeSteps s 1 = None.
Proof. vm_compute. split; reflexivity. Qed.
